(** * 1G1R ROM set generator: a shallow embedding of [generate.py]

    The development follows the layout of the program: text helpers and the
    regular expressions of the classifier, the catalogue model, the scorer,
    the hash indexer with its cancellable workers, option validation in
    [main], and the candidate selection walk.  Names are those of the
    source.  Text is ASCII: Python's Unicode case folding and Unicode
    white space are outside the model.  So are [getopt], the help text,
    the progress bar and the listings written with [--verbose] and
    [--debug]; diagnostics and the lines of the primary output are kept as
    events. *)

From Stdlib Require Import ZArith Ascii String List Bool Lia Sorted.
From stdpp Require Import base option list strings gmap fin_maps.

Local Open Scope string_scope.
Local Open Scope list_scope.
Local Open Scope Z_scope.

(** ** Text helpers (Python [str] methods on ASCII text) *)

Module Text.

Definition chars (s : string) : list ascii := list_ascii_of_string s.
Definition str (l : list ascii) : string := string_of_list_ascii l.

Definition code (c : ascii) : Z := Z.of_N (N_of_ascii c).

Definition is_upper (c : ascii) : bool := (65 <=? code c) && (code c <=? 90).
Definition is_lower (c : ascii) : bool := (97 <=? code c) && (code c <=? 122).
Definition is_digit (c : ascii) : bool := (48 <=? code c) && (code c <=? 57).

(** [str.isspace] on ASCII: TAB..CR, FS..US and the blank. *)
Definition is_space (c : ascii) : bool :=
  ((9 <=? code c) && (code c <=? 13))
  || ((28 <=? code c) && (code c <=? 32)).

Definition lower_char (c : ascii) : ascii :=
  if is_upper c then ascii_of_N (N_of_ascii c + 32) else c.
Definition upper_char (c : ascii) : ascii :=
  if is_lower c then ascii_of_N (N_of_ascii c - 32) else c.

Definition lower (s : string) : string := str (map lower_char (chars s)).
Definition upper (s : string) : string := str (map upper_char (chars s)).

Definition char_eqb (a b : ascii) : bool := Ascii.eqb a b.

Fixpoint lstrip_by (p : ascii -> bool) (l : list ascii) : list ascii :=
  match l with
  | c :: r => if p c then lstrip_by p r else l
  | [] => []
  end.

Definition rstrip_by (p : ascii -> bool) (l : list ascii) : list ascii :=
  rev (lstrip_by p (rev l)).

Definition strip (s : string) : string :=
  str (rstrip_by is_space (lstrip_by is_space (chars s))).

Definition lstrip_char (c : ascii) (s : string) : string :=
  str (lstrip_by (char_eqb c) (chars s)).

(** [s.split(sep)] for a one-character separator: always at least one
    piece, empty pieces kept. *)
Fixpoint split_chars (sep : ascii) (l : list ascii) : list (list ascii) :=
  match l with
  | [] => [[]]
  | c :: r =>
      if char_eqb c sep then [] :: split_chars sep r
      else match split_chars sep r with
           | p :: ps => (c :: p) :: ps
           | [] => [[c]]
           end
  end.

Definition split (sep : ascii) (s : string) : list string :=
  map str (split_chars sep (chars s)).

Fixpoint starts_with_chars (p l : list ascii) : bool :=
  match p, l with
  | [], _ => true
  | a :: p', b :: l' => char_eqb a b && starts_with_chars p' l'
  | _ :: _, [] => false
  end.

Definition startswith (s p : string) : bool :=
  starts_with_chars (chars p) (chars s).
Definition endswith (s p : string) : bool :=
  starts_with_chars (rev (chars p)) (rev (chars s)).

(** [sub in s] *)
Fixpoint contains_chars (sub l : list ascii) : bool :=
  starts_with_chars sub l ||
  match l with
  | [] => false
  | _ :: r => contains_chars sub r
  end.

Definition contains (sub s : string) : bool :=
  contains_chars (chars sub) (chars s).

(** [s.replace(old, new, 1)]: the leftmost occurrence only.  An empty
    [old] matches at position 0. *)
Fixpoint replace_first_chars (old new l : list ascii) : list ascii :=
  if starts_with_chars old l then new ++ drop (length old) l
  else match l with
       | [] => []
       | c :: r => c :: replace_first_chars old new r
       end.

Definition replace_first (old new s : string) : string :=
  str (replace_first_chars (chars old) (chars new) (chars s)).

Definition is_empty (s : string) : bool :=
  match s with EmptyString => true | _ => false end.

Definition truthy (s : string) : bool := negb (is_empty s).

End Text.

(** ** Regular expressions (the fragment of Python's [re] the program uses)

    A backtracking matcher in continuation-passing style: alternatives are
    tried left to right and repetition is greedy, as in [re].  Character
    tests are predicates, so that [re.IGNORECASE] is built into the
    pattern when it is written down. *)

Module Re.

Inductive regex : Type :=
| Eps
| Chr (p : ascii -> bool)
| Seq (r1 r2 : regex)
| Alt (r1 r2 : regex)
| Star (r : regex)
| Group (n : nat) (r : regex)
| Eos.

(** Captured groups, most recent first. *)
Definition caps : Type := list (nat * list ascii).
Definition cont : Type := list ascii -> caps -> option (list ascii * caps).

Definition newline : ascii := ascii_of_N 10.

Fixpoint run (r : regex) (s : list ascii) (c : caps) (k : cont)
  : option (list ascii * caps) :=
  match r with
  | Eps => k s c
  | Chr p =>
      match s with
      | x :: s' => if p x then k s' c else None
      | [] => None
      end
  | Seq r1 r2 => run r1 s c (fun s' c' => run r2 s' c' k)
  | Alt r1 r2 =>
      match run r1 s c k with
      | Some x => Some x
      | None => run r2 s c k
      end
  | Star r' =>
      (fix star (n : nat) (s : list ascii) (c : caps) {struct n} :=
         match n with
         | O => k s c
         | S n' =>
             match run r' s c
                     (fun s' c' =>
                        if (length s' <? length s)%nat
                        then star n' s' c' else None) with
             | Some x => Some x
             | None => k s c
             end
         end) (S (length s)) s c
  | Group n r' =>
      run r' s c
        (fun s' c' => k s' ((n, take (length s - length s') s) :: c'))
  | Eos =>
      match s with
      | [] => k s c
      | [x] => if Text.char_eqb x newline then k s c else None
      | _ => None
      end
  end.

(** A successful match: what is left of the subject after it, and the
    text of group 1 when that group took part. *)
Record Match : Type := { rest : list ascii; group1 : option string }.

Definition lookup_group (n : nat) (c : caps) : option string :=
  match find (fun e => Nat.eqb (fst e) n) c with
  | Some e => Some (Text.str (snd e))
  | None => None
  end.

Definition mk_match (x : list ascii * caps) : Match :=
  {| rest := fst x; group1 := lookup_group 1 (snd x) |}.

Definition match_at (r : regex) (s : list ascii) : option Match :=
  mk_match <$> run r s [] (fun s' c' => Some (s', c')).

Definition fullmatch_chars (r : regex) (s : list ascii) : option Match :=
  mk_match <$>
    run r s [] (fun s' c' => match s' with [] => Some (s', c') | _ => None end).

Fixpoint search_chars (r : regex) (s : list ascii) : option Match :=
  match match_at r s with
  | Some m => Some m
  | None =>
      match s with
      | [] => None
      | _ :: s' => search_chars r s'
      end
  end.

(** [finditer]: non-overlapping matches, left to right.  [skip] counts the
    characters still covered by the previous match. *)
Fixpoint finditer_chars (r : regex) (skip : nat) (s : list ascii)
  : list Match :=
  match s with
  | [] =>
      match skip, match_at r [] with
      | O, Some m => [m]
      | _, _ => []
      end
  | _ :: s' =>
      match skip with
      | S k => finditer_chars r k s'
      | O =>
          match match_at r s with
          | Some m =>
              m :: finditer_chars r (length s - length (rest m) - 1) s'
          | None => finditer_chars r 0 s'
          end
      end
  end.

Definition search (r : regex) (s : string) : option Match :=
  search_chars r (Text.chars s).
Definition fullmatch (r : regex) (s : string) : option Match :=
  fullmatch_chars r (Text.chars s).
Definition finditer (r : regex) (s : string) : list Match :=
  finditer_chars r 0 (Text.chars s).

(** Pattern builders. *)
Definition chr (ignore_case : bool) (c : ascii) : regex :=
  Chr (fun x =>
         if ignore_case
         then Text.char_eqb (Text.lower_char x) (Text.lower_char c)
         else Text.char_eqb x c).

(** [re.escape(s)]: the text taken literally. *)
Definition escape (ignore_case : bool) (s : string) : regex :=
  fold_right (fun c r => Seq (chr ignore_case c) r) Eps (Text.chars s).

Definition plus (r : regex) : regex := Seq r (Star r).
Definition opt (r : regex) : regex := Alt r Eps.
Definition seqs (rs : list regex) : regex := fold_right Seq Eps rs.

(** [\s], [[a-z]] and [[a-z0-9.]] under [re.IGNORECASE], [[^()]]. *)
Definition space : regex := Chr Text.is_space.
Definition letter_i : regex :=
  Chr (fun x => Text.is_lower x || Text.is_upper x).
Definition alnum_dot_i : regex :=
  Chr (fun x => Text.is_lower x || Text.is_upper x || Text.is_digit x
                || Text.char_eqb x ".").
Definition not_paren : regex :=
  Chr (fun x => negb (Text.char_eqb x "(" || Text.char_eqb x ")")).

End Re.

(** ** Module-level constants of [generate.py] *)

Definition UNSELECTED : Z := 10000.
Definition NOT_PRERELEASE : string := "Z".
Definition FILE_PREFIX : string := "file:".
Definition sep : string := "/".
Definition extsep : string := ".".

(** ** The catalogue, as [datafile.parse] hands it back *)

Module Dat.

Record rom : Type :=
  { rom_name : string; rom_size : Z; sha1 : option string }.

Record release : Type := { region : option string }.

Record game : Type :=
  { name : string;
    cloneof : option string;
    releases : list release;
    roms : list rom }.

End Dat.

(** Python truthiness of an optional string: [None] and [''] are false. *)
Definition opt_truthy (o : option string) : bool :=
  match o with
  | Some s => Text.truthy s
  | None => false
  end.

(** ** Records of [classes.py], as the constructor calls in the source fix
    them *)

Record RegionData : Type :=
  { code : string; pattern : option Re.regex; languages : list string }.

Record FileData : Type := { size : Z; path : string }.

Module Score.

Record t : Type :=
  { region : Z;
    languages : Z;
    revision : list Z;
    version : list Z;
    sample : list Z;
    demo : list Z;
    beta : list Z;
    proto : list Z }.

End Score.

Module Entry.

Record t : Type :=
  { is_bad : bool;
    is_prerelease : bool;
    region : string;
    languages : list string;
    input_index : Z;
    revision : string;
    version : string;
    sample : string;
    demo : string;
    beta : string;
    proto : string;
    is_parent : bool;
    name : string;
    roms : list Dat.rom;
    score : option Score.t }.

Definition set_revision (g : t) (v : string) : t :=
  {| is_bad := is_bad g; is_prerelease := is_prerelease g; region := region g;
     languages := languages g; input_index := input_index g; revision := v;
     version := version g; sample := sample g; demo := demo g; beta := beta g;
     proto := proto g; is_parent := is_parent g; name := name g;
     roms := roms g; score := score g |}.

Definition set_version (g : t) (v : string) : t :=
  {| is_bad := is_bad g; is_prerelease := is_prerelease g; region := region g;
     languages := languages g; input_index := input_index g;
     revision := revision g; version := v; sample := sample g; demo := demo g;
     beta := beta g; proto := proto g; is_parent := is_parent g;
     name := name g; roms := roms g; score := score g |}.

Definition set_sample (g : t) (v : string) : t :=
  {| is_bad := is_bad g; is_prerelease := is_prerelease g; region := region g;
     languages := languages g; input_index := input_index g;
     revision := revision g; version := version g; sample := v; demo := demo g;
     beta := beta g; proto := proto g; is_parent := is_parent g;
     name := name g; roms := roms g; score := score g |}.

Definition set_demo (g : t) (v : string) : t :=
  {| is_bad := is_bad g; is_prerelease := is_prerelease g; region := region g;
     languages := languages g; input_index := input_index g;
     revision := revision g; version := version g; sample := sample g;
     demo := v; beta := beta g; proto := proto g; is_parent := is_parent g;
     name := name g; roms := roms g; score := score g |}.

Definition set_beta (g : t) (v : string) : t :=
  {| is_bad := is_bad g; is_prerelease := is_prerelease g; region := region g;
     languages := languages g; input_index := input_index g;
     revision := revision g; version := version g; sample := sample g;
     demo := demo g; beta := v; proto := proto g; is_parent := is_parent g;
     name := name g; roms := roms g; score := score g |}.

Definition set_proto (g : t) (v : string) : t :=
  {| is_bad := is_bad g; is_prerelease := is_prerelease g; region := region g;
     languages := languages g; input_index := input_index g;
     revision := revision g; version := version g; sample := sample g;
     demo := demo g; beta := beta g; proto := v; is_parent := is_parent g;
     name := name g; roms := roms g; score := score g |}.

Definition set_score (g : t) (s : Score.t) : t :=
  {| is_bad := is_bad g; is_prerelease := is_prerelease g; region := region g;
     languages := languages g; input_index := input_index g;
     revision := revision g; version := version g; sample := sample g;
     demo := demo g; beta := beta g; proto := proto g;
     is_parent := is_parent g; name := name g; roms := roms g;
     score := Some s |}.

(** The candidate with its region replaced: what two candidates of one
    catalogue item share is everything else. *)
Definition with_region (g : t) (r : string) : t :=
  {| is_bad := is_bad g; is_prerelease := is_prerelease g; region := r;
     languages := languages g; input_index := input_index g;
     revision := revision g; version := version g; sample := sample g;
     demo := demo g; beta := beta g; proto := proto g;
     is_parent := is_parent g; name := name g; roms := roms g;
     score := score g |}.

End Entry.

(** ** What the program writes and does, in order *)

Inductive warning : Type :=
| UnrecognizedRegion (code : string)
| NoRegions (game : string)
| NoRoms (game : string)
| RomNotFound (game : option string) (rom candidate : string)
| CandidateNotFound (game : option string) (file_name : string)
| NoEligible (game : string).

Inductive event : Type :=
| Stdout (line : string)
| Warn (w : warning)
| Makedirs (dir : string)
| Transfer (input_path output_path : string) (move : bool)
| Copystat (src dst : string).

(** ** The region table and the patterns of the classifier *)

Definition region_pattern (alternatives : list string) : Re.regex :=
  match alternatives with
  | [a] => Re.Group 1 (Re.escape true a)
  | a :: b :: _ =>
      Re.Group 1 (Re.Alt (Re.Group 2 (Re.escape true a))
                         (Re.Group 3 (Re.escape true b)))
  | [] => Re.Eps
  end.

Definition region_data (c : string) (alts : list string) (langs : list string)
  : RegionData :=
  {| code := c; pattern := Some (region_pattern alts); languages := langs |}.

Definition COUNTRY_REGION_CORRELATION : list RegionData :=
  [ region_data "ASI" ["Asia"] ["zh"];
    region_data "ARG" ["Argentina"] ["es"];
    region_data "AUS" ["Australia"] ["en"];
    region_data "BRA" ["Brazil"] ["pt"];
    region_data "CAN" ["Canada"] ["en"; "fr"];
    region_data "CHN" ["China"; "Hong Kong"] ["zh"];
    region_data "DAN" ["Denmark"] ["da"];
    region_data "EUR" ["Europe"; "World"] ["en"];
    region_data "FRA" ["France"] ["fr"];
    region_data "FYN" ["Finland"] ["fi"];
    region_data "GER" ["Germany"] ["de"];
    region_data "GRE" ["Greece"] ["el"];
    region_data "ITA" ["Italy"] ["it"];
    region_data "JPN" ["Japan"; "World"] ["ja"];
    region_data "HOL" ["Netherlands"] ["nl"];
    region_data "KOR" ["Korea"] ["ko"];
    region_data "MEX" ["Mexico"] ["es"];
    region_data "NOR" ["Norway"] ["no"];
    region_data "RUS" ["Russia"] ["ru"];
    region_data "SPA" ["Spain"] ["es"];
    region_data "SWE" ["Sweden"] ["sv"];
    region_data "USA" ["USA"; "World"] ["en"];
    region_data "TAI" ["Taiwan"] ["zh"] ].

(** [\(([^()]+)\)] *)
Definition sections_regex : Re.regex :=
  Re.seqs [Re.chr false "("; Re.Group 1 (Re.plus Re.not_paren);
           Re.chr false ")"].

Definition bios_regex : Re.regex := Re.escape true "[BIOS]".

(** An opening parenthesis, optionally [Test] and white space, then
    [Program] and a closing parenthesis. *)
Definition program_regex : Re.regex :=
  Re.seqs [Re.chr true "(";
           Re.opt (Re.Seq (Re.escape true "Test") (Re.Star Re.space));
           Re.escape true "Program"; Re.chr true ")"].

(** [\(Enhancement\s*Chip\)] *)
Definition enhancement_chip_regex : Re.regex :=
  Re.seqs [Re.escape true "(Enhancement"; Re.Star Re.space;
           Re.escape true "Chip)"].

Definition unl_regex : Re.regex := Re.escape true "(Unl)".
Definition pirate_regex : Re.regex := Re.escape true "(Pirate)".
Definition promo_regex : Re.regex := Re.escape true "(Promo)".

(** [\(Tag(?:\s*([a-z0-9.]+))?\)], the shape of the four prerelease
    patterns. *)
Definition prerelease_regex (tag : string) : Re.regex :=
  Re.seqs [Re.escape true ("(" +:+ tag);
           Re.opt (Re.Seq (Re.Star Re.space)
                          (Re.Group 1 (Re.plus Re.alnum_dot_i)));
           Re.chr true ")"].

Definition beta_regex : Re.regex := prerelease_regex "Beta".
Definition proto_regex : Re.regex := prerelease_regex "Proto".
Definition sample_regex : Re.regex := prerelease_regex "Sample".
Definition demo_regex : Re.regex := prerelease_regex "Demo".

(** [\(Tag\s*([a-z0-9.]+)\)], the shape of the revision and version
    patterns. *)
Definition numbered_regex (tag : string) : Re.regex :=
  Re.seqs [Re.escape true ("(" +:+ tag); Re.Star Re.space;
           Re.Group 1 (Re.plus Re.alnum_dot_i); Re.chr true ")"].

Definition rev_regex : Re.regex := numbered_regex "Rev".
Definition version_regex : Re.regex := numbered_regex "v".

(** In parentheses, as group 1: two letters, then any number of times a
    comma or plus sign and two letters. *)
Definition languages_regex : Re.regex :=
  let two := Re.Seq Re.letter_i Re.letter_i in
  let comma_or_plus :=
    Re.Chr (fun x => Text.char_eqb x "," || Text.char_eqb x "+") in
  Re.seqs [Re.chr true "(";
           Re.Group 1 (Re.Seq two (Re.Star (Re.Seq comma_or_plus two)));
           Re.chr true ")"].

Definition bad_regex : Re.regex := Re.escape true "[b]".

(** [re.escape(os.path.extsep) + r'zip$'] *)
Definition zip_regex : Re.regex := Re.Seq (Re.escape true ".zip") Re.Eos.

Definition is_zip (file : string) : bool :=
  bool_decide (is_Some (Re.search zip_regex file)).

(** ** Helpers of [utils.py] *)

Definition index_of (ls : list string) (item : string) : option nat :=
  fst <$> list_find (fun x => x = item) ls.

(** Modelled from the spec: [utils.get_index] is not among the sources.  The
    specification reads "index of candidate.region within the ordered user
    region-preference list, or UNSELECTED if absent": the position of the
    item in the list, and the default when the list does not hold it. *)
Definition get_index (ls : list string) (item : string) (default : Z) : Z :=
  match index_of ls item with
  | Some i => Z.of_nat i
  | None => default
  end.

(** Modelled from the spec: [utils.check_in_pattern_list] is not among the
    sources.  The specification reads "the current candidate's name matches
    any pattern": some pattern of the list is found in the name. *)
Definition check_in_pattern_list (name : string) (patterns : list Re.regex)
  : bool :=
  existsb (fun p => bool_decide (is_Some (Re.search p name))) patterns.

(** Modelled from the spec: [utils.get_or_default] is not among the sources.
    The specification reads "each either a captured version-like string or
    a sentinel meaning not applicable" and "unset values treated as zero":
    the captured token when there is one, the default otherwise. *)
Definition get_or_default (m : option Re.Match) (default : string) : string :=
  match m with
  | Some m' =>
      match Re.group1 m' with
      | Some v => if Text.truthy v then v else default
      | None => default
      end
  | None => default
  end.

(** *** Family-wide padding *)

Inductive token : Type :=
| Num (digits : list ascii)
| Other (c : ascii).

(** Modelled from the spec: the tokens of [utils.add_padding], which is not
    among the sources.  The numeric fields of a tag are its maximal runs
    of digits; every other character is a boundary and is kept where it
    stands. *)
Fixpoint tokenize (l : list ascii) : list token :=
  match l with
  | [] => []
  | c :: r =>
      if Text.is_digit c then
        match tokenize r with
        | Num d :: ts => Num (c :: d) :: ts
        | ts => Num [c] :: ts
        end
      else Other c :: tokenize r
  end.

Fixpoint field_widths (ts : list token) : list nat :=
  match ts with
  | [] => []
  | Num d :: r => length d :: field_widths r
  | Other _ :: r => field_widths r
  end.

Fixpoint max_widths (w1 w2 : list nat) : list nat :=
  match w1, w2 with
  | [], w => w
  | w, [] => w
  | a :: r1, b :: r2 => Nat.max a b :: max_widths r1 r2
  end.

Definition zero : ascii := "0"%char.

Definition zfill (w : nat) (d : list ascii) : list ascii :=
  replicate (w - length d) zero ++ d.

(** Modelled from the spec: the second pass of [utils.add_padding], which
    is not among the sources.  The tag is written out again under the
    widths of the family; a position the tag does not have is written as a
    field of zeros, after a dot. *)
Fixpoint render (ws : list nat) (ts : list token) : list ascii :=
  match ts with
  | [] => flat_map (fun w => "."%char :: replicate w zero) ws
  | Other c :: r => c :: render ws r
  | Num d :: r =>
      match ws with
      | w :: ws' => zfill w d ++ render ws' r
      | [] => d ++ render [] r
      end
  end.

Definition family_widths (strings : list string) : list nat :=
  fold_right max_widths []
    (map (fun s => field_widths (tokenize (Text.chars s))) strings).

(** Modelled from the spec: [utils.add_padding] is not among the sources.
    The specification reads "each candidate's tag string is tokenized into a
    sequence of numeric fields (splitting on non-digit boundaries); across
    the whole family, each numeric field position is zero-padded to the
    maximum width used by any candidate at that position, so that
    pure-string comparison after padding is equivalent to numeric
    comparison", in two passes: "collect widths, then re-render".  The
    characters between the fields stay where they are. *)
Definition add_padding (strings : list string) : list string :=
  let ws := family_widths strings in
  map (fun s => Text.str (render ws (tokenize (Text.chars s)))) strings.

(** Modelled from the spec: [utils.to_int_list] is not among the sources.
    The specification asks for "comparable integer vectors" such that
    "pure-string comparison after padding is equivalent to numeric
    comparison", whose "sign is inverted" by the multiplier: one integer per
    character of the padded text, its code times the multiplier. *)
Definition to_int_list (s : string) (multiplier : Z) : list Z :=
  map (fun c => multiplier * Text.code c) (Text.chars s).

(** ** The classifier *)

Definition parse_revision (name : string) : string :=
  get_or_default (Re.search rev_regex name) "0".

Definition parse_version (name : string) : string :=
  get_or_default (Re.search version_regex name) "0".

Definition parse_prerelease (m : option Re.Match) : string :=
  get_or_default m NOT_PRERELEASE.

Definition pattern_fullmatch (rd : RegionData) (element : string) : bool :=
  match pattern rd with
  | Some p => bool_decide (is_Some (Re.fullmatch p element))
  | None => false
  end.

(** The region table is a module-level list that grows while the catalogue
    is read, so the functions that consult it take it as an argument. *)
Definition parse_region_data (registry : list RegionData) (name : string)
  : list RegionData :=
  flat_map
    (fun section =>
       let elements :=
         map Text.strip (Text.split "," (default "" (Re.group1 section))) in
       flat_map
         (fun element =>
            filter (fun rd => pattern_fullmatch rd element = true) registry)
         elements)
    (Re.finditer sections_regex name).

Definition parse_languages (name : string) : list string :=
  match Re.search languages_regex name with
  | Some m =>
      flat_map (fun entry => map Text.lower (Text.split "+" entry))
        (Text.split "," (default "" (Re.group1 m)))
  | None => []
  end.

Definition find_region (registry : list RegionData) (c : string)
  : option RegionData :=
  find (fun r => String.eqb (code r) c) registry.

(** [get_region_data]: the entry, the table afterwards and what was
    written. *)
Definition get_region_data (no_warning : bool) (registry : list RegionData)
  (c : string) : RegionData * list RegionData * list event :=
  let c := if Text.truthy c then Text.upper c else c in
  match find_region registry c with
  | Some r => (r, registry, [])
  | None =>
      let r := {| code := c; pattern := None; languages := [] |} in
      (r, registry ++ [r],
       if no_warning then [] else [Warn (UnrecognizedRegion c)])
  end.

Definition add_language (acc : list string) (language : string)
  : list string :=
  if bool_decide (language ∈ acc) then acc else acc ++ [language].

Definition get_languages (region_data_list : list RegionData) : list string :=
  fold_left (fun acc rd => fold_left add_language (languages rd) acc)
    region_data_list [].

Definition is_present (c : string) (rds : list RegionData) : bool :=
  existsb (fun r => String.eqb (code r) c) rds.

Record Filters : Type :=
  { filter_bios : bool;
    filter_program : bool;
    filter_enhancement_chip : bool;
    filter_pirate : bool;
    filter_promo : bool;
    filter_unlicensed : bool;
    filter_proto : bool;
    filter_beta : bool;
    filter_demo : bool;
    filter_sample : bool }.

Definition found (r : Re.regex) (s : string) : bool :=
  bool_decide (is_Some (Re.search r s)).

(** The chain of [continue] statements at the head of the loop body. *)
Definition filtered_out (f : Filters) (exclude : list Re.regex)
  (name : string) : bool :=
  (filter_bios f && found bios_regex name)
  || (filter_unlicensed f && found unl_regex name)
  || (filter_pirate f && found pirate_regex name)
  || (filter_promo f && found promo_regex name)
  || (filter_program f && found program_regex name)
  || (filter_enhancement_chip f && found enhancement_chip_regex name)
  || (filter_beta f && found beta_regex name)
  || (filter_demo f && found demo_regex name)
  || (filter_sample f && found sample_regex name)
  || (filter_proto f && found proto_regex name)
  || check_in_pattern_list name exclude.

(** The loop over the releases of a game: codes the name did not yield are
    looked up, or registered, and appended. *)
Fixpoint add_release_regions (no_warning : bool) (rels : list Dat.release)
  (region_data : list RegionData) (registry : list RegionData)
  (out : list event) : list RegionData * list RegionData * list event :=
  match rels with
  | [] => (region_data, registry, out)
  | rel :: rest =>
      match Dat.region rel with
      | Some c =>
          if Text.truthy c && negb (is_present c region_data) then
            let '(r, registry', w) := get_region_data no_warning registry c in
            add_release_regions no_warning rest (region_data ++ [r])
              registry' (out ++ w)
          else add_release_regions no_warning rest region_data registry out
      | None => add_release_regions no_warning rest region_data registry out
      end
  end.

(** The families: a Python [dict], whose iteration order is insertion
    order. *)
Definition families : Type := list (string * list Entry.t).

Fixpoint extend_family (games : families) (parent_name : string)
  (entries : list Entry.t) : families :=
  match games with
  | [] => [(parent_name, entries)]
  | (k, es) :: rest =>
      if String.eqb k parent_name then (k, es ++ entries) :: rest
      else (k, es) :: extend_family rest parent_name entries
  end.

Record ParseState : Type :=
  { games : families; registry : list RegionData; stderr : list event }.

(** The regions of one catalogue item: those its name yields, then those
    its releases declare. *)
Definition game_regions (no_warning : bool) (registry : list RegionData)
  (game : Dat.game) : list RegionData * list RegionData * list event :=
  add_release_regions no_warning (Dat.releases game)
    (parse_region_data registry (Dat.name game)) registry [].

(** Everything a candidate of the item carries, with the region left to be
    filled in. *)
Definition entry_for (game : Dat.game) (input_index : nat)
  (langs : list string) (region : string) : Entry.t :=
  let name := Dat.name game in
  let beta_match := Re.search beta_regex name in
  let demo_match := Re.search demo_regex name in
  let sample_match := Re.search sample_regex name in
  let proto_match := Re.search proto_regex name in
  {| Entry.is_bad := found bad_regex name;
     Entry.is_prerelease :=
       bool_decide (is_Some beta_match) || bool_decide (is_Some demo_match)
       || bool_decide (is_Some sample_match)
       || bool_decide (is_Some proto_match);
     Entry.region := region;
     Entry.languages := langs;
     Entry.input_index := Z.of_nat input_index;
     Entry.revision := parse_revision name;
     Entry.version := parse_version name;
     Entry.sample := parse_prerelease sample_match;
     Entry.demo := parse_prerelease demo_match;
     Entry.beta := parse_prerelease beta_match;
     Entry.proto := parse_prerelease proto_match;
     Entry.is_parent := negb (opt_truthy (Dat.cloneof game));
     Entry.name := name;
     Entry.roms := Dat.roms game;
     Entry.score := None |}.

(** One turn of the loop of [parse_games]. *)
Definition parse_game (no_warning : bool) (f : Filters)
  (exclude : list Re.regex) (st : ParseState) (input_index : nat)
  (game : Dat.game) : ParseState :=
  if filtered_out f exclude (Dat.name game) then st
  else
    let '(region_data, registry', w) :=
      game_regions no_warning (registry st) game in
    let langs := parse_languages (Dat.name game) in
    let langs := match langs with
                 | [] => get_languages region_data
                 | _ => langs
                 end in
    let parent_name :=
      if opt_truthy (Dat.cloneof game)
      then default "" (Dat.cloneof game) else Dat.name game in
    let region_codes := map code region_data in
    let game_entries := map (entry_for game input_index langs) region_codes in
    let games' :=
      match game_entries with
      | [] => games st
      | _ => extend_family (games st) parent_name game_entries
      end in
    let no_regions :=
      match game_entries with
      | [] => if no_warning then [] else [Warn (NoRegions (Dat.name game))]
      | _ => []
      end in
    let no_roms :=
      match Dat.roms game with
      | [] => if no_warning then [] else [Warn (NoRoms (Dat.name game))]
      | _ => []
      end in
    {| games := games'; registry := registry';
       stderr := stderr st ++ w ++ no_regions ++ no_roms |}.

Fixpoint parse_games_from (no_warning : bool) (f : Filters)
  (exclude : list Re.regex) (st : ParseState) (input_index : nat)
  (gs : list Dat.game) : ParseState :=
  match gs with
  | [] => st
  | g :: rest =>
      parse_games_from no_warning f exclude
        (parse_game no_warning f exclude st input_index g)
        (S input_index) rest
  end.

Definition parse_games (no_warning : bool) (registry : list RegionData)
  (root : list Dat.game) (f : Filters) (exclude : list Re.regex)
  : ParseState :=
  parse_games_from no_warning f exclude
    {| games := []; registry := registry; stderr := [] |} 0 root.

(** ** The scorer *)

(** [pad_values]: the tags of the family are padded together and written
    back, candidate by candidate.  [add_padding] returns one text per tag;
    were the padded list shorter, the remaining candidates would be left
    as they are. *)
Fixpoint write_back (set_function : Entry.t -> string -> Entry.t)
  (games : list Entry.t) (padded : list string) : list Entry.t :=
  match games, padded with
  | g :: gs, p :: ps => set_function g p :: write_back set_function gs ps
  | gs, [] => gs
  | [], _ :: _ => []
  end.

Definition pad_values (games : list Entry.t)
  (get_function : Entry.t -> string)
  (set_function : Entry.t -> string -> Entry.t) : list Entry.t :=
  let padded := add_padding (map get_function games) in
  write_back set_function games padded.

Definition sum (l : list Z) : Z := fold_left Z.add l 0.

Definition language_value (languages : list string) (weight : Z)
  (selected_languages : list string) : Z :=
  sum (map (fun lang => (get_index selected_languages lang (-1) + 1)
                        * weight * -1) languages).

Definition score_of (selected_regions selected_languages : list string)
  (language_weight : Z) (revision_asc version_asc : bool) (game : Entry.t)
  : Score.t :=
  let region_score := get_index selected_regions (Entry.region game)
                        UNSELECTED in
  let languages_score :=
    sum (map (fun lang => (get_index selected_languages lang (-1) + 1)
                          * - language_weight) (Entry.languages game)) in
  {| Score.region := region_score;
     Score.languages := languages_score;
     Score.revision :=
       to_int_list (Entry.revision game) (if revision_asc then 1 else -1);
     Score.version :=
       to_int_list (Entry.version game) (if version_asc then 1 else -1);
     Score.sample := to_int_list (Entry.sample game) (-1);
     Score.demo := to_int_list (Entry.demo game) (-1);
     Score.beta := to_int_list (Entry.beta game) (-1);
     Score.proto := to_int_list (Entry.proto game) (-1) |}.

Definition set_scores (games : list Entry.t)
  (selected_regions selected_languages : list string) (language_weight : Z)
  (revision_asc version_asc : bool) : list Entry.t :=
  map (fun game =>
         Entry.set_score game
           (score_of selected_regions selected_languages language_weight
              revision_asc version_asc game))
    games.

(** ** The ranking comparator *)

Inductive key_part : Type :=
| KInt (z : Z)
| KVec (v : list Z).

(** Python's ordering of lists of integers. *)
Fixpoint compare_vec (a b : list Z) : comparison :=
  match a, b with
  | [], [] => Eq
  | [], _ :: _ => Lt
  | _ :: _, [] => Gt
  | x :: a', y :: b' =>
      match x ?= y with
      | Eq => compare_vec a' b'
      | c => c
      end
  end.

Definition compare_part (p q : key_part) : comparison :=
  match p, q with
  | KInt x, KInt y => x ?= y
  | KVec u, KVec v => compare_vec u v
  | KInt _, KVec _ => Lt
  | KVec _, KInt _ => Gt
  end.

(** Python's ordering of tuples. *)
Fixpoint compare_key (k1 k2 : list key_part) : comparison :=
  match k1, k2 with
  | [], [] => Eq
  | [], _ :: _ => Lt
  | _ :: _, [] => Gt
  | p :: k1', q :: k2' =>
      match compare_part p q with
      | Eq => compare_key k1' k2'
      | c => c
      end
  end.

Record KeyGenerator : Type :=
  { prioritize_languages : bool;
    prefer_prereleases : bool;
    prefer_parents : bool;
    input_order : bool;
    prefer : list Re.regex;
    avoid : list Re.regex }.

Definition flag (b : bool) : key_part := KInt (if b then 1 else 0).

Definition stage (enabled : bool) (p : key_part) : list key_part :=
  if enabled then [p] else [].

Definition non_empty {A : Type} (l : list A) : bool :=
  match l with [] => false | _ => true end.

Definition distinct_count (l : list string) : Z :=
  Z.of_nat (length (remove_dups l)).

Definition score_or_zero (g : Entry.t) : Score.t :=
  default {| Score.region := 0; Score.languages := 0; Score.revision := [];
             Score.version := []; Score.sample := []; Score.demo := [];
             Score.beta := []; Score.proto := [] |} (Entry.score g).

(** Modelled from the spec: [classes.GameEntryKeyGenerator] is not among the
    sources.  The specification lists the stages of the ordering, each
    "skipped entirely when disabled": bad dump (non-bad wins); prerelease
    against released, in the configured direction; avoid-list membership,
    when there is an avoid list; region rank then language rank, or the
    reverse; parent flag, when parents are preferred; discovery index, when
    input order is kept; prefer-list membership, when there is a prefer
    list; revision, version, sample, demo, beta and proto ranks; number of
    distinct languages (more wins); parent flag.  Smaller keys rank
    first. *)
Definition generate (kg : KeyGenerator) (g : Entry.t) : list key_part :=
  let s := score_or_zero g in
  let region_rank := KInt (Score.region s) in
  let language_rank := KInt (Score.languages s) in
  [flag (Entry.is_bad g)]
  ++ [flag (if prefer_prereleases kg then negb (Entry.is_prerelease g)
            else Entry.is_prerelease g)]
  ++ stage (non_empty (avoid kg))
       (flag (check_in_pattern_list (Entry.name g) (avoid kg)))
  ++ (if prioritize_languages kg then [language_rank; region_rank]
      else [region_rank; language_rank])
  ++ stage (prefer_parents kg) (flag (negb (Entry.is_parent g)))
  ++ stage (input_order kg) (KInt (Entry.input_index g))
  ++ stage (non_empty (prefer kg))
       (flag (negb (check_in_pattern_list (Entry.name g) (prefer kg))))
  ++ [KVec (Score.revision s); KVec (Score.version s); KVec (Score.sample s);
      KVec (Score.demo s); KVec (Score.beta s); KVec (Score.proto s)]
  ++ [KInt (- distinct_count (Entry.languages g))]
  ++ [flag (negb (Entry.is_parent g))].

(** [list.sort(key=...)]: a stable sort, smallest key first. *)
Fixpoint insert_by (kg : KeyGenerator) (g : Entry.t) (sorted : list Entry.t)
  : list Entry.t :=
  match sorted with
  | [] => [g]
  | h :: t =>
      match compare_key (generate kg h) (generate kg g) with
      | Gt => g :: h :: t
      | _ => h :: insert_by kg g t
      end
  end.

Definition sort_games (kg : KeyGenerator) (games : list Entry.t)
  : list Entry.t :=
  fold_left (fun sorted g => insert_by kg g sorted) games [].

(** The body of the first loop over the families in [main]: six padding
    passes, scoring, sorting. *)
Definition pad_all (games : list Entry.t) : list Entry.t :=
  let games := pad_values games Entry.version Entry.set_version in
  let games := pad_values games Entry.revision Entry.set_revision in
  let games := pad_values games Entry.sample Entry.set_sample in
  let games := pad_values games Entry.demo Entry.set_demo in
  let games := pad_values games Entry.beta Entry.set_beta in
  pad_values games Entry.proto Entry.set_proto.

Definition rank_family (kg : KeyGenerator)
  (selected_regions selected_languages : list string) (language_weight : Z)
  (revision_asc version_asc : bool) (games : list Entry.t) : list Entry.t :=
  let games := pad_all games in
  let games := set_scores games selected_regions selected_languages
                 language_weight revision_asc version_asc in
  sort_games kg games.

(** ** Exceptions *)

(** The ways a computation of the program ends other than by returning.
    [OutOfFuel] is not an exception of the program: it marks a loop of the
    model that reached its bound. *)
Inductive exn : Type :=
| AttributeError
| KeyError (key : string)
| ValueError
| OSError
| RuntimeError
| NotImplementedError
| ZlibError
| SystemExit (status : Z)
| OutOfFuel.

Inductive res (A : Type) : Type :=
| Ok (a : A)
| Raise (e : exn).

Arguments Ok {A} a.
Arguments Raise {A} e.

Definition res_bind {A B : Type} (x : res A) (f : A -> res B) : res B :=
  match x with
  | Ok a => f a
  | Raise e => Raise e
  end.

(** ** The hash indexer *)

Definition bytes : Type := list Byte.byte.

(** An open binary file: the chunks that successive [read(CHUNK_SIZE)] calls
    return; once they are used up, [read] returns the empty chunk. *)
Definition stream : Type := list bytes.

Definition read (f : stream) : bytes * stream :=
  match f with
  | [] => ([], [])
  | chunk :: f' => (chunk, f')
  end.

(** [hashlib.sha1] *)
Class Hashlib : Type :=
  { hasher : Type;
    sha1 : hasher;
    update : hasher -> bytes -> hasher;
    hexdigest : hasher -> string }.

(** What [zipfile] raises other than [BadZipFile]: [OSError] for a file
    that cannot be opened, [RuntimeError] for an encrypted member,
    [NotImplementedError] for a compression method that is not supported,
    [zlib.error] for compressed data that cannot be inflated. *)
Inductive failure : Type :=
| CannotOpen
| Encrypted
| Unsupported
| Corrupt.

Definition exception_of (f : failure) : exn :=
  match f with
  | CannotOpen => OSError
  | Encrypted => RuntimeError
  | Unsupported => NotImplementedError
  | Corrupt => ZlibError
  end.

(** How [ZipFile(full_path)], or [open(name)] and the reading of a member,
    ends: with what was opened; with [BadZipFile], which [process_file]
    handles; or with an exception that it does not handle. *)
Inductive attempt (A : Type) : Type :=
| Opened (a : A)
| BadZipFile
| Unhandled (f : failure).

Arguments Opened {A} a.
Arguments BadZipFile {A}.
Arguments Unhandled {A} f.

(** The files of the repository: the members of an archive, and the
    content of a file ([None] when [open] or [read] raises [IOError], which
    [process_file] handles). *)
Class Repository : Type :=
  { zip_members : string -> attempt (list (string * attempt stream));
    open_rb : string -> option stream }.

(** A worker reads the process-wide flag [QUIT] now and then.  Its
    computations are run against a clock that counts these reads; the flag
    is given as a function of that clock.  A computation ends, at some
    moment of the clock, with a value or with an exception. *)
Definition Worker (A : Type) : Type := nat -> res A * nat.

Definition ret {A : Type} (a : A) : Worker A := fun t => (Ok a, t).

Definition raise {A : Type} (e : exn) : Worker A := fun t => (Raise e, t).

Definition bind {A B : Type} (m : Worker A) (f : A -> Worker B) : Worker B :=
  fun t =>
    match m t with
    | (Ok a, t') => f a t'
    | (Raise e, t') => (Raise e, t')
    end.

Definition out_of_fuel {A : Type} : Worker A := raise OutOfFuel.

Notation "'let*' x ':=' m 'in' k" := (bind m (fun x => k))
  (at level 10, x name, m at level 100, k at level 200).

(** A Python [dict] from digests to paths, in insertion order. *)
Definition dict : Type := list (string * string).

Definition dict_get (d : dict) (k : string) : option string :=
  snd <$> find (fun e => String.eqb (fst e) k) d.

Fixpoint dict_set (d : dict) (k v : string) : dict :=
  match d with
  | [] => [(k, v)]
  | (k', v') :: d' =>
      if String.eqb k' k then (k', v) :: d' else (k', v') :: dict_set d' k v
  end.

Section Indexer.

Context `{Hashlib} `{Repository}.
Variable QUIT : nat -> bool.

Definition read_QUIT : Worker bool := fun t => (Ok (QUIT t), S t).

(** The loop of [compute_hash].  [QUIT] is read by the loop test and, when
    the chunk is empty, by the test of the [break]. *)
Fixpoint compute_hash_loop (fuel : nat) (internal_file : stream)
  (h : hasher) : Worker hasher :=
  match fuel with
  | O => out_of_fuel
  | S fuel' =>
      let* q := read_QUIT in
      if q then ret h
      else
        let '(chunk, file') := read internal_file in
        match chunk with
        | [] =>
            let* q' := read_QUIT in
            if negb q' then ret h
            else compute_hash_loop fuel' file' (update h chunk)
        | _ :: _ => compute_hash_loop fuel' file' (update h chunk)
        end
  end.

Definition compute_hash (internal_file : stream) : Worker string :=
  let* h := compute_hash_loop (S (S (length internal_file))) internal_file sha1 in
  ret (Text.lower (hexdigest h)).

(** The loop over the members of an archive.  [BadZipFile] ends it, and
    the handler keeps what was entered so far; any other exception leaves
    [process_file]. *)
Fixpoint hash_members (full_path : string)
  (members : list (string * attempt stream)) (result : dict) : Worker dict :=
  match members with
  | [] => ret result
  | (_, member) :: rest =>
      let* q := read_QUIT in
      if negb q then
        match member with
        | Opened internal_file =>
            let* digest := compute_hash internal_file in
            hash_members full_path rest (dict_set result digest full_path)
        | BadZipFile => ret result
        | Unhandled f => raise (exception_of f)
        end
      else hash_members full_path rest result
  end.

Definition process_file (file_data : FileData) : Worker dict :=
  let full_path := path file_data in
  let* result :=
    (if is_zip full_path then
       match zip_members full_path with
       | Opened members => hash_members full_path members []
       | BadZipFile => ret []
       | Unhandled f => raise (exception_of f)
       end
     else ret []) in
  match open_rb full_path with
  | Some uncompressed_file =>
      let* digest := compute_hash uncompressed_file in
      match dict_get result digest with
      | None => ret (dict_set result digest full_path)
      | Some p =>
          if is_zip p then ret (dict_set result digest full_path)
          else ret result
      end
  | None => ret result
  end.

Definition process_with_progress (file_data : FileData) : Worker dict :=
  let* q := read_QUIT in
  if q then ret []
  else
    let* this_result := process_file file_data in
    let* q' := read_QUIT in
    if q' then ret [] else ret this_result.

(** [pool.map]: the results come back in the order of the files, and the
    exception of a worker is raised again when its result is asked for.
    The workers share nothing but the flag, so they are run one after the
    other against the clock. *)
Fixpoint pool_map (files_data : list FileData) : Worker (list dict) :=
  match files_data with
  | [] => ret []
  | fd :: rest =>
      let* r := process_with_progress fd in
      let* rs := pool_map rest in
      ret (r :: rs)
  end.

End Indexer.

(** The merge of one worker's result into the index. *)
Definition merge_item (result : gmap string string) (item : string * string)
  : gmap string string :=
  let '(key, value) := item in
  match result !! key with
  | Some current => if is_zip current then result else <[key := value]> result
  | None => result
  end.

Definition merge_results (result : gmap string string)
  (intermediate_results : list dict) : gmap string string :=
  fold_left (fun r d => fold_left merge_item d r) intermediate_results result.

(** Every digest of the catalogue is entered with an empty path. *)
Fixpoint declare_roms (result : gmap string string) (roms : list Dat.rom)
  : res (gmap string string) :=
  match roms with
  | [] => Ok result
  | rom_entry :: rest =>
      match Dat.sha1 rom_entry with
      | Some d => declare_roms (<[Text.lower d := ""]> result) rest
      | None => Raise AttributeError
      end
  end.

Fixpoint declare_games (result : gmap string string) (root : list Dat.game)
  : res (gmap string string) :=
  match root with
  | [] => Ok result
  | game :: rest =>
      res_bind (declare_roms result (Dat.roms game))
        (fun result' => declare_games result' rest)
  end.

(** [files_data.sort(key=FileDataUtils.get_size, reverse=True)]: largest
    first, files of equal size in the order they were found. *)
Fixpoint insert_by_size (fd : FileData) (sorted : list FileData)
  : list FileData :=
  match sorted with
  | [] => [fd]
  | h :: t =>
      if size h <? size fd then fd :: h :: t
      else h :: insert_by_size fd t
  end.

Definition sort_by_size (files_data : list FileData) : list FileData :=
  fold_left (fun sorted fd => insert_by_size fd sorted) files_data [].

(** What [os.walk] and [os.path.getsize] yield: the paths of the files, each
    with its size, or with [None] when [getsize] raises [OSError]. *)
Definition listing : Type := list (string * option Z).

Definition files_data_of (walked : listing) : list FileData :=
  omap (fun e => match snd e with
                 | Some n => Some {| size := n; path := fst e |}
                 | None => None
                 end) walked.

(** [ThreadPoolExecutor(THREADS)] raises [ValueError] for a number of
    threads that is not positive. *)
Definition no_threads (threads : option Z) : bool :=
  match threads with
  | Some n => n <=? 0
  | None => false
  end.

Definition index_files `{Hashlib} `{Repository} (QUIT : nat -> bool)
  (threads : option Z) (walked : listing) (root : list Dat.game)
  : nat -> res (gmap string string * nat) :=
  fun t =>
    match declare_games ∅ root with
    | Raise e => Raise e
    | Ok result =>
        let files_data := sort_by_size (files_data_of walked) in
        match files_data with
        | [] => Ok (result, t)
        | _ :: _ =>
            if no_threads threads then Raise ValueError
            else
              match pool_map QUIT files_data t with
              | (Raise e, _) => Raise e
              | (Ok intermediate_results, t') =>
                  Ok (merge_results result intermediate_results, t')
              end
        end
    end.

(** ** Options *)

(** What [main] asks of its surroundings: the file system, [int], the
    compilation of a pattern given as a regular expression ([None] for
    [re.error]), the lines of a list file, and [utils.is_valid]. *)
Class Env : Type :=
  { is_valid : string -> bool;
    expanduser : string -> string;
    isfile : string -> bool;
    isdir : string -> bool;
    makedirs : string -> bool;
    int_of : string -> option Z;
    re_compile : bool -> string -> option Re.regex;
    readlines : string -> list string }.

Record Config : Type :=
  { dat_file : string;
    filters : Filters;
    all_regions : bool;
    all_regions_with_lang : bool;
    revision_asc : bool;
    version_asc : bool;
    verbose : bool;
    use_hashes : bool;
    opt_input_order : bool;
    selected_regions : list string;
    file_extension : string;
    input_dir : string;
    prefer_str : string;
    exclude_str : string;
    avoid_str : string;
    exclude_after_str : string;
    separator : string;
    ignore_case : bool;
    regex : bool;
    output_dir : string;
    selected_languages : list string;
    opt_prioritize_languages : bool;
    opt_prefer_parents : bool;
    opt_prefer_prereleases : bool;
    language_weight : Z;
    debug : bool;
    move : bool;
    NO_WARNING : bool;
    CHUNK_SIZE : Z;
    THREADS : option Z }.

Definition no_filters : Filters :=
  {| filter_bios := false; filter_program := false;
     filter_enhancement_chip := false; filter_pirate := false;
     filter_promo := false; filter_unlicensed := false;
     filter_proto := false; filter_beta := false; filter_demo := false;
     filter_sample := false |}.

(** The values of the local variables of [main] before the options are
    read. *)
Definition defaults : Config :=
  {| dat_file := ""; filters := no_filters; all_regions := false;
     all_regions_with_lang := false; revision_asc := false;
     version_asc := false; verbose := false; use_hashes := false;
     opt_input_order := false; selected_regions := []; file_extension := "";
     input_dir := ""; prefer_str := ""; exclude_str := ""; avoid_str := "";
     exclude_after_str := ""; separator := ","; ignore_case := false;
     regex := false; output_dir := ""; selected_languages := [];
     opt_prioritize_languages := false; opt_prefer_parents := false;
     opt_prefer_prereleases := false; language_weight := 3; debug := false;
     move := false; NO_WARNING := false; CHUNK_SIZE := 33554432;
     THREADS := None |}.

Definition is_opt (opt : string) (names : list string) : bool :=
  existsb (String.eqb opt) names.

(** [s.split(sep)] for a separator of any length; the empty separator is a
    [ValueError]. *)
Fixpoint split_by (sepc : list ascii) (skip : nat) (l : list ascii)
  : list (list ascii) :=
  match l with
  | [] => [[]]
  | c :: r =>
      match skip with
      | S k => split_by sepc k r
      | O =>
          if Text.starts_with_chars sepc l
          then [] :: split_by sepc (length sepc - 1) r
          else match split_by sepc 0 r with
               | p :: ps => (c :: p) :: ps
               | [] => [[c]]
               end
      end
  end.

Definition split_str (s separator : string) : res (list string) :=
  match Text.chars separator with
  | [] => Raise ValueError
  | sepc => Ok (map Text.str (split_by sepc 0 (Text.chars s)))
  end.

Section Options.

Context `{Env}.

Definition exit_unless {A : Type} (ok : bool) (a : A) : res A :=
  if ok then Ok a else Raise (SystemExit 1).

(** The flags of the ten filters, as the option accumulates into them. *)
Definition filters_with (f : Filters) (opt : string) : Filters :=
  {| filter_bios := filter_bios f || is_opt opt ["--no-bios"; "--no-all"];
     filter_program :=
       filter_program f || is_opt opt ["--no-program"; "--no-all"];
     filter_enhancement_chip :=
       filter_enhancement_chip f
       || is_opt opt ["--no-enhancement-chip"; "--no-all"];
     filter_pirate :=
       filter_pirate f || is_opt opt ["--no-pirate"; "--no-all"];
     filter_promo := filter_promo f || is_opt opt ["--no-promo"; "--no-all"];
     filter_unlicensed := filter_unlicensed f || String.eqb opt "--no-unlicensed";
     filter_proto := filter_proto f || is_opt opt ["--no-proto"; "--no-all"];
     filter_beta := filter_beta f || is_opt opt ["--no-beta"; "--no-all"];
     filter_demo := filter_demo f || is_opt opt ["--no-demo"; "--no-all"];
     filter_sample :=
       filter_sample f || is_opt opt ["--no-sample"; "--no-all"] |}.

Definition regions_of (arg : string) : list string :=
  map (fun x => Text.upper (Text.strip x))
    (filter (fun x => is_valid x = true) (Text.split "," arg)).

Definition languages_of (arg : string) : list string :=
  map (fun x => Text.lower (Text.strip x))
    (filter (fun x => is_valid x = true) (reverse (Text.split "," arg))).

(** The body of the loop over the options.  An option names one thing, so
    at most one of the tests that end the program applies to it; they are
    taken in the order of the source, before the assignments. *)
Definition check_opt (opt arg : string) : res unit :=
  if is_opt opt ["-h"; "--help"] then Raise (SystemExit 0)
  else if is_opt opt ["-w"; "--language-weight"] then
    match int_of (Text.strip arg) with
    | Some w => if w <=? 0 then Raise (SystemExit 1) else Ok tt
    | None => Raise (SystemExit 1)
    end
  else if is_opt opt ["-d"; "--dat"] then
    exit_unless (isfile (expanduser (Text.strip arg))) tt
  else if is_opt opt ["-i"; "--input-dir"] then
    exit_unless (isdir (expanduser (Text.strip arg))) tt
  else if is_opt opt ["-o"; "--output-dir"] then
    let d := expanduser (Text.strip arg) in
    exit_unless (isdir d || makedirs d) tt
  else if is_opt opt ["--chunk-size"; "--threads"] then
    match int_of arg with
    | Some _ => Ok tt
    | None => Raise ValueError
    end
  else Ok tt.

Definition assign {A : Type} (opt : string) (names : list string)
  (new old : A) : A :=
  if is_opt opt names then new else old.

Definition update_opt (c : Config) (opt arg : string) : Config :=
  let debug' := debug c || String.eqb opt "--debug" in
  {| dat_file :=
       assign opt ["-d"; "--dat"] (expanduser (Text.strip arg)) (dat_file c);
     filters := filters_with (filters c) opt;
     all_regions := all_regions c || String.eqb opt "--all-regions";
     all_regions_with_lang :=
       all_regions_with_lang c || String.eqb opt "--all-regions-with-lang";
     revision_asc := revision_asc c || String.eqb opt "--early-revisions";
     version_asc := version_asc c || String.eqb opt "--early-versions";
     verbose := verbose c || is_opt opt ["-v"; "--verbose"] || debug';
     use_hashes := use_hashes c || String.eqb opt "--use-hashes";
     opt_input_order := opt_input_order c || String.eqb opt "--input-order";
     selected_regions :=
       assign opt ["-r"; "--regions"] (regions_of arg) (selected_regions c);
     file_extension :=
       assign opt ["-e"; "--extension"]
         (Text.lstrip_char "." (Text.strip arg)) (file_extension c);
     input_dir :=
       assign opt ["-i"; "--input-dir"] (expanduser (Text.strip arg))
         (input_dir c);
     prefer_str := assign opt ["--prefer"] arg (prefer_str c);
     exclude_str := assign opt ["--exclude"] arg (exclude_str c);
     avoid_str := assign opt ["--avoid"] arg (avoid_str c);
     exclude_after_str :=
       assign opt ["--exclude-after"] arg (exclude_after_str c);
     separator := assign opt ["--separator"] (Text.strip arg) (separator c);
     ignore_case := ignore_case c || String.eqb opt "--ignore-case";
     regex := regex c || String.eqb opt "--regex";
     output_dir :=
       assign opt ["-o"; "--output-dir"] (expanduser (Text.strip arg))
         (output_dir c);
     selected_languages :=
       assign opt ["-l"; "--languages"] (languages_of arg)
         (selected_languages c);
     opt_prioritize_languages :=
       opt_prioritize_languages c || String.eqb opt "--prioritize-languages";
     opt_prefer_parents :=
       opt_prefer_parents c || String.eqb opt "--prefer-parents";
     opt_prefer_prereleases :=
       opt_prefer_prereleases c || String.eqb opt "--prefer-prereleases";
     language_weight :=
       assign opt ["-w"; "--language-weight"]
         (default 0 (int_of (Text.strip arg))) (language_weight c);
     debug := debug';
     move := move c || String.eqb opt "--move";
     NO_WARNING := NO_WARNING c || String.eqb opt "--no-warning";
     CHUNK_SIZE :=
       assign opt ["--chunk-size"] (default 0 (int_of arg)) (CHUNK_SIZE c);
     THREADS := assign opt ["--threads"] (int_of arg) (THREADS c) |}.

Fixpoint read_opts (c : Config) (opts : list (string * string))
  : res Config :=
  match opts with
  | [] => Ok c
  | (opt, arg) :: rest =>
      res_bind (check_opt opt arg)
        (fun _ => read_opts (update_opt c opt arg) rest)
  end.

(** The tests after the loop, in the order of the source.  The last one
    calls [sys.exit()] without a status. *)
Definition check_config (c : Config) : res Config :=
  if Text.truthy (file_extension c) && use_hashes c
  then Raise (SystemExit 1)
  else if negb (Text.truthy (input_dir c)) && use_hashes c
  then Raise (SystemExit 1)
  else if negb (Text.truthy (dat_file c))
  then Raise (SystemExit 1)
  else if negb (non_empty (selected_regions c))
  then Raise (SystemExit 1)
  else if (revision_asc c || version_asc c) && opt_input_order c
  then Raise (SystemExit 1)
  else if (revision_asc c || version_asc c) && opt_prefer_parents c
  then Raise (SystemExit 1)
  else if opt_prefer_parents c && opt_input_order c
  then Raise (SystemExit 1)
  else if Text.truthy (output_dir c) && negb (Text.truthy (input_dir c))
  then Raise (SystemExit 1)
  else if ignore_case c && negb (Text.truthy (prefer_str c))
          && negb (Text.truthy (avoid_str c))
          && negb (Text.truthy (exclude_str c))
  then Raise (SystemExit 1)
  else if regex c && negb (Text.truthy (prefer_str c))
          && negb (Text.truthy (avoid_str c))
          && negb (Text.truthy (exclude_str c))
  then Raise (SystemExit 1)
  else if all_regions c && all_regions_with_lang c
  then Raise (SystemExit 0)
  else Ok c.

(** [re.error], the [OSError] that [parse_list] raises for a list file
    that is not there, and the [ValueError] of an empty separator. *)
Inductive list_error : Type :=
| ReError
| InvalidFile
| SplitError.

Fixpoint compile_all (ignore_case regex : bool) (items : list string)
  : list_error + list Re.regex :=
  match items with
  | [] => inr []
  | x :: rest =>
      let p := if regex then re_compile ignore_case x
               else Some (Re.escape ignore_case x) in
      match p with
      | None => inl ReError
      | Some r =>
          match compile_all ignore_case regex rest with
          | inl e => inl e
          | inr rs => inr (r :: rs)
          end
      end
  end.

Definition parse_list (arg_str : string) (ignore_case regex : bool)
  (separator : string) : list_error + list Re.regex :=
  if Text.truthy arg_str then
    let arg_list :=
      if Text.startswith arg_str FILE_PREFIX then
        let file :=
          expanduser
            (Text.strip
               (Text.str (drop (String.length FILE_PREFIX)
                            (Text.chars arg_str)))) in
        if isfile file
        then inr (map Text.strip
                    (filter (fun x => is_valid x = true) (readlines file)))
        else inl InvalidFile
      else
        match split_str arg_str separator with
        | Ok pieces =>
            inr (map Text.strip (filter (fun x => is_valid x = true) pieces))
        | Raise _ => inl SplitError
        end in
    match arg_list with
    | inl e => inl e
    | inr l =>
        compile_all ignore_case regex
          (filter (fun x => is_valid x = true) l)
    end
  else inr [].

(** [re.error] and [OSError] are handled by leaving with status 1; the
    [ValueError] of an empty separator is not handled. *)
Definition parsed_list (c : Config) (arg_str : string) : res (list Re.regex) :=
  match parse_list arg_str (ignore_case c) (regex c) (separator c) with
  | inr l => Ok l
  | inl SplitError => Raise ValueError
  | inl _ => Raise (SystemExit 1)
  end.

Record Settings : Type :=
  { config : Config;
    prefer_list : list Re.regex;
    avoid_list : list Re.regex;
    exclude_list : list Re.regex;
    exclude_after : list Re.regex }.

(** [main] up to the call of [validate_dat]: nothing of the catalogue has
    been read when this returns or raises. *)
Definition configure (opts : list (string * string)) : res Settings :=
  res_bind (read_opts defaults opts) (fun c =>
  res_bind (check_config c) (fun c =>
  res_bind (parsed_list c (prefer_str c)) (fun prefer =>
  res_bind (parsed_list c (avoid_str c)) (fun avoid =>
  res_bind (parsed_list c (exclude_str c)) (fun exclude =>
  res_bind (parsed_list c (exclude_after_str c)) (fun exclude_after =>
  Ok {| config := c; prefer_list := prefer; avoid_list := avoid;
        exclude_list := exclude; exclude_after := exclude_after |})))))).

End Options.

(** ** Validation of the catalogue *)

Definition lacks_sha1 (root : list Dat.game) : bool :=
  existsb (fun game =>
             existsb (fun game_rom => negb (opt_truthy (Dat.sha1 game_rom)))
               (Dat.roms game))
    root.

Definition has_cloneof (root : list Dat.game) : bool :=
  existsb (fun game => opt_truthy (Dat.cloneof game)) root.

(** [answer] is what the user types when asked whether to go on with a
    catalogue without clones. *)
Definition validate_dat (root : list Dat.game) (use_hashes : bool)
  (answer : string) : res unit :=
  if use_hashes && lacks_sha1 root then Raise (SystemExit 1)
  else if negb (has_cloneof root) then
    if is_opt (Text.strip answer) ["y"; "Y"] then Ok tt
    else Raise (SystemExit 0)
  else Ok tt.

(** ** The candidate selector *)

Definition add_extension (file_name file_extension : string) : string :=
  if Text.truthy file_extension
  then file_name +:+ extsep +:+ file_extension
  else file_name.

Definition file_relative_to_input (file input_dir : string) : string :=
  Text.lstrip_char "/" (Text.replace_first input_dir "" file).

(** [os.path.join] of two components, on POSIX. *)
Definition path_join (a b : string) : string :=
  if Text.startswith b sep then b
  else if Text.is_empty a || Text.endswith a sep then a +:+ b
  else a +:+ sep +:+ b.

(** The outcome of the walk over one family: what was written and done,
    and the candidate the walk stopped at because it was resolved. *)
Record Walk : Type :=
  { events : list event; selected : option Entry.t }.

Section Selector.

Context `{Env}.
Variable s : Settings.
Variable hash_index : gmap string string.

Definition rom_not_found (game : string) (rom candidate : string)
  : list event :=
  if NO_WARNING (config s) then []
  else [Warn (RomNotFound (if verbose (config s) then Some game else None)
                rom candidate)].

(** The loop over the files of a candidate in hash-based resolution.  It
    carries the set of paths already handled and what was written. *)
Fixpoint resolve_roms (game : string) (entry : Entry.t)
  (roms : list Dat.rom) (copied_files : gset string) (out : list event)
  : res (gset string * list event) :=
  match roms with
  | [] => Ok (copied_files, out)
  | entry_rom :: rest =>
      match Dat.sha1 entry_rom with
      | None => Raise AttributeError
      | Some d =>
          let digest := Text.lower d in
          match hash_index !! digest with
          | None => Raise (KeyError digest)
          | Some rom_input_path =>
              if Text.truthy rom_input_path then
                let is_zip_file := is_zip rom_input_path in
                let file :=
                  file_relative_to_input rom_input_path
                    (input_dir (config s)) in
                if bool_decide (rom_input_path ∈ copied_files) then
                  resolve_roms game entry rest copied_files out
                else if negb (Text.truthy (output_dir (config s))) then
                  resolve_roms game entry rest
                    ({[rom_input_path]} ∪ copied_files) (out ++ [Stdout file])
                else
                  let in_own_dir :=
                    negb is_zip_file
                    && ((1 <? length (Entry.roms entry))%nat
                        || Text.contains sep file) in
                  let rom_output_dir :=
                    if in_own_dir
                    then path_join (output_dir (config s)) (Entry.name entry)
                    else output_dir (config s) in
                  let rom_output_path :=
                    if is_zip_file
                    then path_join rom_output_dir
                           (add_extension (Entry.name entry) "zip")
                    else path_join rom_output_dir (Dat.rom_name entry_rom) in
                  resolve_roms game entry rest
                    ({[rom_input_path]} ∪ copied_files)
                    (out
                     ++ (if in_own_dir then [Makedirs rom_output_dir] else [])
                     ++ [Transfer rom_input_path rom_output_path
                           (move (config s))])
              else
                resolve_roms game entry rest copied_files
                  (out ++ rom_not_found game (Dat.rom_name entry_rom)
                            (Entry.name entry))
          end
      end
  end.

(** The loop over the files of a candidate found as a directory. *)
Definition directory_roms (game : string) (entry : Entry.t)
  (file_name full_path : string) : list event :=
  flat_map
    (fun entry_rom =>
       let rom_input_path := path_join full_path (Dat.rom_name entry_rom) in
       if isfile rom_input_path then
         if Text.truthy (output_dir (config s)) then
           let rom_output_dir := path_join (output_dir (config s)) file_name in
           [Makedirs rom_output_dir;
            Transfer rom_input_path rom_output_dir (move (config s));
            Copystat full_path rom_output_dir]
         else [Stdout (file_name +:+ sep +:+ Dat.rom_name entry_rom)]
       else rom_not_found game (Dat.rom_name entry_rom) file_name)
    (Entry.roms entry).

Definition no_eligible (game : string) (last : bool) : list event :=
  if last then [Warn (NoEligible game)] else [].

(** What one turn of the loop over the candidates does: leave the loop,
    with or without a resolved candidate, or go on to the next one. *)
Inductive turn : Type :=
| Break (out : list event) (resolved : bool)
| Next (out : list event).

Definition try_candidate (game : string) (entry : Entry.t) (last : bool)
  : res turn :=
  if check_in_pattern_list (Entry.name entry) (exclude_after s)
  then Ok (Break [] false)
  else if use_hashes (config s) then
    match resolve_roms game entry (Entry.roms entry) ∅ [] with
    | Raise e => Raise e
    | Ok (copied_files, out) =>
        if bool_decide (copied_files ≠ ∅) then Ok (Break out true)
        else if negb (NO_WARNING (config s)) && last
        then Ok (Next (out ++ [Warn (NoEligible game)]))
        else Ok (Next out)
    end
  else if Text.truthy (input_dir (config s)) then
    let file_name :=
      add_extension (Entry.name entry) (file_extension (config s)) in
    let full_path := path_join (input_dir (config s)) file_name in
    if isfile full_path then
      if Text.truthy (output_dir (config s))
      then Ok (Break [Transfer full_path (output_dir (config s))
                        (move (config s))] true)
      else Ok (Break [Stdout file_name] true)
    else if isdir full_path then
      Ok (Break (directory_roms game entry file_name full_path) true)
    else if negb (NO_WARNING (config s)) then
      Ok (Next ([Warn (CandidateNotFound
                         (if verbose (config s) then Some game else None)
                         file_name)]
                ++ no_eligible game last))
    else Ok (Next [])
  else
    Ok (Break [Stdout (add_extension (Entry.name entry)
                         (file_extension (config s)))] true).

(** The loop [for i in range(0, size)] over the candidates that are left
    of [entries]. *)
Fixpoint walk (game : string) (entries : list Entry.t) : res Walk :=
  match entries with
  | [] => Ok {| events := []; selected := None |}
  | entry :: rest =>
      match try_candidate game entry (bool_decide (rest = [])) with
      | Raise e => Raise e
      | Ok (Break out resolved) =>
          Ok {| events := out;
                selected := if resolved then Some entry else None |}
      | Ok (Next out) =>
          match walk game rest with
          | Raise e => Raise e
          | Ok w => Ok {| events := out ++ events w; selected := selected w |}
          end
      end
  end.

(** The candidates of a family that are walked. *)
Definition region_selected (x : Entry.t) : res bool :=
  match Entry.score x with
  | None => Raise AttributeError
  | Some sc =>
      Ok (negb (Score.region sc =? UNSELECTED)
          || (all_regions_with_lang (config s) && (Score.languages sc <? 0)))
  end.

Fixpoint candidates (entries : list Entry.t) : res (list Entry.t) :=
  if all_regions (config s) then Ok entries
  else
    match entries with
    | [] => Ok []
    | x :: rest =>
        res_bind (region_selected x) (fun keep =>
        res_bind (candidates rest) (fun rest' =>
        Ok (if keep then x :: rest' else rest')))
    end.

Definition select (game : string) (entries : list Entry.t) : res Walk :=
  res_bind (candidates entries) (walk game).

(** The second loop over the families in [main]. *)
Fixpoint select_all (parsed_games : families) : res (list Walk) :=
  match parsed_games with
  | [] => Ok []
  | (game, entries) :: rest =>
      res_bind (select game entries) (fun w =>
      res_bind (select_all rest) (fun ws => Ok (w :: ws)))
  end.

End Selector.

(** ** [main] *)

Definition key_generator (s : Settings) : KeyGenerator :=
  {| prioritize_languages := opt_prioritize_languages (config s);
     prefer_prereleases := opt_prefer_prereleases (config s);
     prefer_parents := opt_prefer_parents (config s);
     input_order := opt_input_order (config s);
     prefer := prefer_list s;
     avoid := avoid_list s |}.

(** The first loop over the families: each is padded, scored and sorted. *)
Definition rank_all (s : Settings) (parsed_games : families) : families :=
  map (fun '(key, games) =>
         (key,
          rank_family (key_generator s) (selected_regions (config s))
            (selected_languages (config s)) (language_weight (config s))
            (revision_asc (config s)) (version_asc (config s)) games))
    parsed_games.

(** The index that [main] hands to the selection loop. *)
Definition hash_index_of `{Hashlib} `{Repository} (QUIT : nat -> bool)
  (s : Settings) (walked : listing) (root : list Dat.game)
  : res (gmap string string) :=
  if use_hashes (config s) && Text.truthy (input_dir (config s)) then
    match index_files QUIT (THREADS (config s)) walked root 0%nat with
    | Ok (index, _) => Ok index
    | Raise e => Raise e
    end
  else Ok ∅.

(** [main] after the options: the catalogue [root] is what every call of
    [datafile.parse] returns, [walked] what the scan of the input directory
    finds. *)
Definition process `{Env} `{Hashlib} `{Repository} (QUIT : nat -> bool)
  (s : Settings) (root : list Dat.game) (walked : listing) (answer : string)
  : res (list Walk) :=
  res_bind (validate_dat root (use_hashes (config s)) answer) (fun _ =>
  res_bind (hash_index_of QUIT s walked root) (fun hash_index =>
  let parsed :=
    parse_games (NO_WARNING (config s)) COUNTRY_REGION_CORRELATION root
      (filters (config s)) (exclude_list s) in
  select_all s hash_index (rank_all s (games parsed)))).

Definition main `{Env} `{Hashlib} `{Repository} (QUIT : nat -> bool)
  (opts : list (string * string)) (root : list Dat.game) (walked : listing)
  (answer : string) : res (list Walk) :=
  res_bind (configure opts) (fun s => process QUIT s root walked answer).

(** * Specification-side notions and worked inputs *)

(** The languages of a [--languages] argument in the order the user wrote
    them; [languages_of] keeps them in the opposite order. *)
Definition user_languages `{Env} (arg : string) : list string :=
  map (fun x => Text.lower (Text.strip x))
    (filter (fun x => is_valid x = true) (Text.split "," arg)).

(** What one language of a candidate adds to its language score. *)
Definition contribution (selected_languages : list string) (weight : Z)
  (lang : string) : Z :=
  (get_index selected_languages lang (-1) + 1) * weight * -1.

(** The language rank in the words of the specification: the sum over the
    candidate's languages of (index or -1, plus one) times weight times
    -1. *)
Fixpoint language_rank (languages : list string) (weight : Z)
  (selected_languages : list string) : Z :=
  match languages with
  | [] => 0
  | lang :: rest =>
      contribution selected_languages weight lang
      + language_rank rest weight selected_languages
  end.

(** An environment for the worked inputs: a catalogue [x.dat], an input
    directory [roms], entries of a list valid when they are not blank. *)
Definition example_env : Env :=
  {| is_valid := fun x => Text.truthy (Text.strip x);
     expanduser := fun x => x;
     isfile := fun x => String.eqb x "x.dat";
     isdir := fun x => String.eqb x "roms";
     makedirs := fun _ => true;
     int_of := fun _ => None;
     re_compile := fun _ _ => None;
     readlines := fun _ => [] |}.

(** A candidate that is nothing but a name, a region and its languages. *)
Definition plain_entry (name region : string) (languages : list string)
  (roms : list Dat.rom) : Entry.t :=
  {| Entry.is_bad := false; Entry.is_prerelease := false;
     Entry.region := region; Entry.languages := languages;
     Entry.input_index := 0; Entry.revision := "0"; Entry.version := "0";
     Entry.sample := NOT_PRERELEASE; Entry.demo := NOT_PRERELEASE;
     Entry.beta := NOT_PRERELEASE; Entry.proto := NOT_PRERELEASE;
     Entry.is_parent := true; Entry.name := name; Entry.roms := roms;
     Entry.score := None |}.

(** A preference list of 10001 regions. *)
Definition long_region_list : list string :=
  replicate (Z.to_nat 10000) "A" ++ ["B"].

(** A stand-in for SHA-1 in the worked inputs: the digest of a content is
    the content itself, read as text. *)
Definition example_hashlib : Hashlib :=
  {| hasher := bytes;
     sha1 := [];
     update := fun h chunk => h ++ chunk;
     hexdigest := fun h => Text.str (map ascii_of_byte h) |}.

Definition rom_content : bytes := [Byte.x67; Byte.x61; Byte.x6d; Byte.x65].
Definition zip_content : bytes := [Byte.x50; Byte.x4b].

(** A repository with the same content twice: loose, as [roms/game.bin],
    and as the one member of the archive [roms/game.zip]. *)
Definition example_repository : Repository :=
  {| zip_members := fun p =>
       if String.eqb p "roms/game.zip"
       then Opened [("game.bin", Opened [rom_content])] else BadZipFile;
     open_rb := fun p =>
       if String.eqb p "roms/game.bin" then Some [rom_content]
       else if String.eqb p "roms/game.zip" then Some [zip_content]
       else None |}.

(** A repository with an archive whose first member can be read and whose
    second member is encrypted. *)
Definition locked_repository : Repository :=
  {| zip_members := fun p =>
       if String.eqb p "roms/locked.zip"
       then Opened [("game.bin", Opened [rom_content]);
                    ("secret.bin", Unhandled Encrypted)]
       else BadZipFile;
     open_rb := fun p =>
       if String.eqb p "roms/locked.zip" then Some [zip_content] else None |}.

Definition example_rom : Dat.rom :=
  {| Dat.rom_name := "game.bin"; Dat.rom_size := 4; Dat.sha1 := Some "GAME" |}.

Definition example_catalogue : list Dat.game :=
  [ {| Dat.name := "Game (USA)"; Dat.cloneof := None; Dat.releases := [];
       Dat.roms := [example_rom] |} ].

Definition loose_first : listing :=
  [("roms/game.bin", Some 4); ("roms/game.zip", Some 4)].
Definition archive_first : listing :=
  [("roms/game.zip", Some 4); ("roms/game.bin", Some 4)].

(** The flag when the run is never interrupted, and when it is interrupted
    at the third look at it. *)
Definition never : nat -> bool := fun _ => false.
Definition at_third : nat -> bool := fun t => Nat.leb 3 t.

(** The digest of a file, without the flag: the chunks up to the first
    empty one. *)
Fixpoint hash_chunks `{Hashlib} (f : stream) (h : hasher) : hasher :=
  match f with
  | [] => h
  | [] :: _ => h
  | chunk :: f' => hash_chunks f' (update h chunk)
  end.

Definition digest_of `{Hashlib} (f : stream) : string :=
  Text.lower (hexdigest (hash_chunks f sha1)).

(** What an uninterrupted worker enters for the members of an archive, up
    to the first member that cannot be read. *)
Fixpoint entered `{Hashlib} (full_path : string)
  (members : list (string * attempt stream)) (result : dict) : dict :=
  match members with
  | [] => result
  | (_, Opened f) :: rest =>
      entered full_path rest (dict_set result (digest_of f) full_path)
  | (_, _) :: _ => result
  end.

(** What an uninterrupted worker returns for a file, when it returns. *)
Definition result_of `{Hashlib} `{Repository} (fd : FileData) : dict :=
  let full_path := path fd in
  let result :=
    if is_zip full_path then
      match zip_members full_path with
      | Opened members => entered full_path members []
      | _ => []
      end
    else [] in
  match open_rb full_path with
  | Some f =>
      match dict_get result (digest_of f) with
      | None => dict_set result (digest_of f) full_path
      | Some p =>
          if is_zip p then dict_set result (digest_of f) full_path
          else result
      end
  | None => result
  end.

(** A digest is found in an archive of the listing: the archive opens, and
    the member with that digest and all members before it can be read. *)
Definition in_archive `{Hashlib} `{Repository} (walked : listing)
  (digest : string) : Prop :=
  exists (p : string) (n : Z) (pre post : list (string * attempt stream))
         (name : string) (f : stream),
    (p, Some n) ∈ walked
    /\ is_zip p = true
    /\ zip_members p = Opened (pre ++ (name, Opened f) :: post)
    /\ Forall (fun m => exists g, snd m = Opened g) pre
    /\ digest_of f = digest.

(** A digest is declared by the catalogue. *)
Definition declared (root : list Dat.game) (digest : string) : Prop :=
  exists (game : Dat.game) (rom : Dat.rom) (d : string),
    game ∈ root /\ rom ∈ Dat.roms game /\ Dat.sha1 rom = Some d
    /\ Text.lower d = digest.

(** The walk passes over a candidate: the turn of the loop ends without
    leaving the loop. *)
Definition passed_over `{Env} (s : Settings) (index : gmap string string)
  (game : string) (x : Entry.t) : Prop :=
  exists out, try_candidate s index game x false = Ok (Next out).

Definition settings_or_defaults (r : res Settings) : Settings :=
  match r with
  | Ok s => s
  | Raise _ =>
      {| config := defaults; prefer_list := []; avoid_list := [];
         exclude_list := []; exclude_after := [] |}
  end.

(** Path-based resolution in [roms], with candidates naming a beta
    excluded after the selection. *)
Definition beta_excluded : Settings :=
  settings_or_defaults
    (@configure example_env
       [("-d", "x.dat"); ("-r", "USA,EUR"); ("-i", "roms");
        ("--exclude-after", "Beta")]).

(** The path the index holds for a file of a candidate. *)
Definition rom_path (index : gmap string string) (rom : Dat.rom)
  : option string :=
  match Dat.sha1 rom with
  | Some d => index !! Text.lower d
  | None => None
  end.

(** The file resolves: its digest is mapped to a path that is not empty. *)
Definition rom_resolves (index : gmap string string) (rom : Dat.rom) : bool :=
  match rom_path index rom with
  | Some p => Text.truthy p
  | None => false
  end.

Definition resolves (index : gmap string string) (entry : Entry.t) : bool :=
  existsb (rom_resolves index) (Entry.roms entry).

(** The diagnostics among what was written. *)
Definition warnings (out : list event) : list warning :=
  omap (fun ev => match ev with Warn w => Some w | _ => None end) out.

(** The diagnostics that are due for the files of a candidate: unless
    warnings are suppressed, one for each file that does not resolve, in
    the order of the files; it names the file and the candidate and, when
    the program is verbose, the family. *)
Definition missing_warnings (s : Settings) (index : gmap string string)
  (game : string) (entry : Entry.t) (roms : list Dat.rom) : list warning :=
  if NO_WARNING (config s) then []
  else
    map (fun rom =>
           RomNotFound (if verbose (config s) then Some game else None)
             (Dat.rom_name rom) (Entry.name entry))
      (filter (fun rom => rom_resolves index rom = false) roms).

(** These diagnostics, written and nothing else. *)
Definition missing_roms (s : Settings) (index : gmap string string)
  (game : string) (entry : Entry.t) (roms : list Dat.rom) : list event :=
  map Warn (missing_warnings s index game entry roms).

(** A candidate the hash-based walk takes up, finds all digests of in the
    index, and does not resolve. *)
Definition unresolved `{Env} (s : Settings) (index : gmap string string)
  (entry : Entry.t) : Prop :=
  check_in_pattern_list (Entry.name entry) (exclude_after s) = false
  /\ Forall (fun rom => is_Some (rom_path index rom)) (Entry.roms entry)
  /\ resolves index entry = false.

(** Hash-based resolution in [roms], with and without warnings. *)
Definition with_hashes : Settings :=
  settings_or_defaults
    (@configure example_env
       [("-d", "x.dat"); ("-r", "USA,EUR"); ("-i", "roms");
        ("--use-hashes", "")]).

Definition with_hashes_quiet : Settings :=
  settings_or_defaults
    (@configure example_env
       [("-d", "x.dat"); ("-r", "USA,EUR"); ("-i", "roms");
        ("--use-hashes", ""); ("--no-warning", "")]).

(** An index in which the digest of [example_rom] has no path. *)
Definition nothing_found : gmap string string := <["game" := ""]> ∅.

(** The candidates filed under a key. *)
Definition family_of (fs : families) (key : string) : list Entry.t :=
  match find (fun family => String.eqb (fst family) key) fs with
  | Some family => snd family
  | None => []
  end.

Definition parent_name_of (game : Dat.game) : string :=
  if opt_truthy (Dat.cloneof game)
  then default "" (Dat.cloneof game) else Dat.name game.

Definition named (name : string) : Dat.game :=
  {| Dat.name := name; Dat.cloneof := None; Dat.releases := [];
     Dat.roms := [] |}.

Definition fresh : ParseState :=
  {| games := []; registry := COUNTRY_REGION_CORRELATION; stderr := [] |}.

(** Options naming both [--all-regions] and [--all-regions-with-lang],
    with a catalogue and a region as required. *)
Definition both_all_regions : list (string * string) :=
  [("-d", "x.dat"); ("-r", "USA"); ("--all-regions", "");
   ("--all-regions-with-lang", "")].

(** The number a run of digits denotes. *)
Fixpoint value (d : list ascii) : Z :=
  match d with
  | [] => 0
  | c :: r => (Text.code c - 48) * 10 ^ Z.of_nat (length r) + value r
  end.

(** A tag made of numeric fields separated by dots, as in [10] or
    [1.02]. *)
Fixpoint dotted (fields : list (list ascii)) : list ascii :=
  match fields with
  | [] => []
  | [f] => f
  | f :: fs => f ++ "."%char :: dotted fs
  end.

Definition digits (d : list ascii) : Prop :=
  Forall (fun c => Text.is_digit c = true) d.

Definition numeric (fields : list (list ascii)) : Prop :=
  fields <> []
  /\ Forall (fun f => f <> [] /\ digits f) fields.

(** Numeric comparison of two tags, field by field; a field that a tag
    does not have counts as zero. *)
Fixpoint zero_against (b : list Z) : comparison :=
  match b with
  | [] => Eq
  | y :: b' =>
      match 0 ?= y with
      | Eq => zero_against b'
      | c => c
      end
  end.

Fixpoint compare_numeric (a b : list Z) : comparison :=
  match a with
  | [] => zero_against b
  | x :: a' =>
      match b with
      | [] =>
          match x ?= 0 with
          | Eq => compare_numeric a' []
          | c => c
          end
      | y :: b' =>
          match x ?= y with
          | Eq => compare_numeric a' b'
          | c => c
          end
      end
  end.

(** A family of two revisions of one game, the later one a clone. *)
Definition two_revisions : list Dat.game :=
  [ {| Dat.name := "Game (USA) (Rev 2)"; Dat.cloneof := None;
       Dat.releases := []; Dat.roms := [] |};
    {| Dat.name := "Game (USA) (Rev 10)";
       Dat.cloneof := Some "Game (USA) (Rev 2)";
       Dat.releases := []; Dat.roms := [] |} ].

(** The defaults of the program with a catalogue and the region USA. *)
Definition plain_settings : Settings :=
  settings_or_defaults
    (@configure example_env [("-d", "x.dat"); ("-r", "USA")]).

(** The tokens of a dotted tag after its first field, and how they are
    written out under the widths of the family. *)
Fixpoint tokens_after (fs : list (list ascii)) : list token :=
  match fs with
  | [] => []
  | f :: fs' => Other "."%char :: Num f :: tokens_after fs'
  end.

Fixpoint tail_blocks (ws : list nat) (fs : list (list ascii)) : list ascii :=
  match fs with
  | [] => flat_map (fun w => "."%char :: replicate w zero) ws
  | f :: fs' =>
      "."%char ::
      match ws with
      | w :: ws' => zfill w f ++ tail_blocks ws' fs'
      | [] => f ++ tail_blocks [] fs'
      end
  end.

(** The widths are enough for the fields, position by position. *)
Fixpoint covers (ws : list nat) (l : list nat) {struct l} : Prop :=
  match l with
  | [] => True
  | n :: l' =>
      match ws with
      | [] => False
      | w :: ws' => (n <= w)%nat /\ covers ws' l'
      end
  end.

(** The six tags of a candidate that are padded and scored. *)
Inductive tag_field : Type :=
| Revision
| Version
| Sample
| Demo
| Beta
| Proto.

Definition tag_of (k : tag_field) (g : Entry.t) : string :=
  match k with
  | Revision => Entry.revision g
  | Version => Entry.version g
  | Sample => Entry.sample g
  | Demo => Entry.demo g
  | Beta => Entry.beta g
  | Proto => Entry.proto g
  end.

Definition vector_of (k : tag_field) (s : Score.t) : list Z :=
  match k with
  | Revision => Score.revision s
  | Version => Score.version s
  | Sample => Score.sample s
  | Demo => Score.demo s
  | Beta => Score.beta s
  | Proto => Score.proto s
  end.

(** Earliest first, for the revision and the version when so configured;
    latest first otherwise. *)
Definition ascending (revision_asc version_asc : bool) (k : tag_field)
  : bool :=
  match k with
  | Revision => revision_asc
  | Version => version_asc
  | _ => false
  end.

(** The names of the candidates of the catalogue [two_revisions], in the
    order the program ranks them with its defaults. *)
Definition ranked_revisions : list string :=
  flat_map (fun family => map Entry.name (snd family))
    (rank_all plain_settings
       (games (parse_games false COUNTRY_REGION_CORRELATION two_revisions
                 no_filters []))).

(** The candidates of [two_revisions] as the classifier leaves them. *)
Definition revision_candidates : list Entry.t :=
  family_of
    (games (parse_games false COUNTRY_REGION_CORRELATION two_revisions
              no_filters []))
    "Game (USA) (Rev 2)".

(** The flag is only ever set: nothing in the program clears it. *)
Definition never_cleared (QUIT : nat -> bool) : Prop :=
  forall t, QUIT t = true -> QUIT (S t) = true.

(** The worker returns, whenever it is started. *)
Definition total {A : Type} (m : Worker A) : Prop :=
  forall t, exists a t', m t = (Ok a, t').

(** The index maps the key to the path of an archive. *)
Definition archived (index : gmap string string) (key : string) : Prop :=
  exists q, index !! key = Some q /\ is_zip q = true.

(** Every digest of the candidate's files is a key of the index. *)
Definition roms_indexed (index : gmap string string) (roms : list Dat.rom)
  : Prop :=
  forall rom d, rom ∈ roms -> Dat.sha1 rom = Some d ->
    is_Some (index !! Text.lower d).

(** The computation does not end in a [KeyError]. *)
Definition no_KeyError {A : Type} (r : res A) : Prop :=
  forall k, r <> Raise (KeyError k).

(** The files of the candidate are the files of an item of the
    catalogue. *)
Definition from_catalogue (root : list Dat.game) (e : Entry.t) : Prop :=
  exists game, game ∈ root /\ Entry.roms e = Dat.roms game.

(** The property holds of every candidate of every family. *)
Definition all_entries (P : Entry.t -> Prop) (fs : families) : Prop :=
  Forall (fun family => Forall P (snd family)) fs.

(** The property depends on nothing but the files of the candidate. *)
Definition on_roms (P : Entry.t -> Prop) : Prop :=
  forall e e', Entry.roms e = Entry.roms e' -> P e -> P e'.

(** The worker does not end in a [KeyError], whenever it is started. *)
Definition worker_safe {A : Type} (m : Worker A) : Prop :=
  forall t, no_KeyError (fst (m t)).

(** The paths that the workers' results offer for a key, in the order in
    which the merge meets them. *)
Definition offered (key : string) (rs : list dict) : list string :=
  flat_map
    (fun r : list (string * string) =>
       map snd (filter (fun e => fst e = key) r))
    rs.

(** Two loose files with the content of the worked input. *)
Definition two_loose_results : list dict :=
  [[("game", "roms/a/game.bin")]; [("game", "roms/b/game.bin")]].

(** Every path in a worker's result is the path of the worker's file. *)
Definition own_path (p : string) (r : dict) : Prop :=
  forall e, e ∈ r -> snd e = p.

(** What padding, scoring and sorting have no business with: everything
    of a candidate but its six tags and its score. *)
Definition core (g : Entry.t)
  : bool * bool * string * list string * Z * bool * string * list Dat.rom :=
  (Entry.is_bad g, Entry.is_prerelease g, Entry.region g, Entry.languages g,
   Entry.input_index g, Entry.is_parent g, Entry.name g, Entry.roms g).

(** The candidate is wanted by the options: all regions are, or its region
    is selected, or regions with a selected language are wanted and it has
    one. *)
Definition wanted (s : Settings) (regions langs : list string)
  (x : Entry.t) : bool :=
  all_regions (config s)
  || bool_decide (Entry.region x ∈ regions)
  || (all_regions_with_lang (config s)
      && existsb (fun l => bool_decide (l ∈ langs)) (Entry.languages x)).

(** What is written to the primary output or as a diagnostic, as against
    what is done to the file system. *)
Definition is_written (ev : event) : bool :=
  match ev with
  | Stdout _ | Warn _ => true
  | _ => false
  end.

(** A family as [parse_games] files it under [key]: it is not empty, and
    each of its candidates comes from an item of the catalogue that passed
    the filters and whose parent name is [key]. *)
Definition well_filed (root : list Dat.game) (f : Filters)
  (exclude : list Re.regex) (family : string * list Entry.t) : Prop :=
  family.2 <> []
  /\ Forall (fun e =>
               exists game,
                 game ∈ root
                 /\ filtered_out f exclude (Dat.name game) = false
                 /\ parent_name_of game = family.1
                 /\ Entry.name e = Dat.name game
                 /\ Entry.roms e = Dat.roms game)
       family.2.

(** What a configuration that passed the option loop keeps: a positive
    language weight, and a catalogue and an input directory that were
    there when the option naming them was read. *)
Definition checked `{Env} (c : Config) : Prop :=
  0 < language_weight c
  /\ (Text.truthy (dat_file c) = true -> isfile (dat_file c) = true)
  /\ (Text.truthy (input_dir c) = true -> isdir (input_dir c) = true).

(** The text as a pattern without [--regex] sees it: as it is, or in lower
    case under [re.IGNORECASE]. *)
Definition folded (ignore_case : bool) (s : string) : string :=
  if ignore_case then Text.lower s else s.

(** The characters and the pattern of a text taken literally. *)
Definition fold_char (ignore_case : bool) (c : ascii) : ascii :=
  if ignore_case then Text.lower_char c else c.

Definition literal (ignore_case : bool) (l : list ascii) : Re.regex :=
  fold_right (fun c r => Re.Seq (Re.chr ignore_case c) r) Re.Eps l.

(** The content of an open file: its chunks, one after the other. *)
Definition content (f : stream) : bytes := concat f.

(** One of the options [names] is among those given on the command
    line. *)
Definition given (names : list string) (opts : list (string * string))
  : bool :=
  existsb (fun o => is_opt (fst o) names) opts.

(** A line feed as text, which [$] allows after the end of a match. *)
Definition line_feed : string := String Re.newline "".

(** [zipfile] raises nothing but [BadZipFile] for the file: it is not
    taken for an archive, or the archive and each of its members open, or
    fail with [BadZipFile]. *)
Definition handled `{Repository} (p : string) : Prop :=
  is_zip p = true ->
  match zip_members p with
  | Opened members => Forall (fun m => forall f, snd m <> Unhandled f) members
  | BadZipFile => True
  | Unhandled _ => False
  end.

(** The region USA, with names in [Japan] excluded after the selection. *)
Definition japan_excluded : Settings :=
  settings_or_defaults
    (@configure example_env
       [("-d", "x.dat"); ("-r", "USA"); ("--exclude-after", "Japan")]).

(** A family of a Japanese release and a beta for the USA, its clone. *)
Definition japan_first : list Dat.game :=
  [ {| Dat.name := "Game (Japan)"; Dat.cloneof := None;
       Dat.releases := []; Dat.roms := [] |};
    {| Dat.name := "Game (USA) (Beta)"; Dat.cloneof := Some "Game (Japan)";
       Dat.releases := []; Dat.roms := [] |} ].

(** The names of the candidates a run selects, family by family. *)
Definition selections (r : res (list Walk)) : option (list (option string)) :=
  match r with
  | Ok ws => Some (map (fun w => Entry.name <$> selected w) ws)
  | Raise _ => None
  end.

(** The region table as the source writes it: the code, the names its
    pattern spells out, the languages. *)
Definition region_table : list (string * list string * list string) :=
  [ ("ASI", ["Asia"], ["zh"]);
    ("ARG", ["Argentina"], ["es"]);
    ("AUS", ["Australia"], ["en"]);
    ("BRA", ["Brazil"], ["pt"]);
    ("CAN", ["Canada"], ["en"; "fr"]);
    ("CHN", ["China"; "Hong Kong"], ["zh"]);
    ("DAN", ["Denmark"], ["da"]);
    ("EUR", ["Europe"; "World"], ["en"]);
    ("FRA", ["France"], ["fr"]);
    ("FYN", ["Finland"], ["fi"]);
    ("GER", ["Germany"], ["de"]);
    ("GRE", ["Greece"], ["el"]);
    ("ITA", ["Italy"], ["it"]);
    ("JPN", ["Japan"; "World"], ["ja"]);
    ("HOL", ["Netherlands"], ["nl"]);
    ("KOR", ["Korea"], ["ko"]);
    ("MEX", ["Mexico"], ["es"]);
    ("NOR", ["Norway"], ["no"]);
    ("RUS", ["Russia"], ["ru"]);
    ("SPA", ["Spain"], ["es"]);
    ("SWE", ["Sweden"], ["sv"]);
    ("USA", ["USA"; "World"], ["en"]);
    ("TAI", ["Taiwan"], ["zh"]) ].

(** The token is one of the names, whatever the case of the letters. *)
Definition names_token (names : list string) (token : string) : bool :=
  existsb (fun n => String.eqb (Text.lower token) (Text.lower n)) names.

(** The codes of the table whose names the token is one of, in the order
    of the table. *)
Definition matching_codes (token : string) : list string :=
  flat_map
    (fun entry : string * list string * list string =>
       if names_token (snd (fst entry)) token then [fst (fst entry)] else [])
    region_table.

(** The tokens of a name: the pieces, between commas and stripped, of its
    parenthesised sections, in order. *)
Definition tokens (name : string) : list string :=
  flat_map
    (fun section =>
       map Text.strip (Text.split "," (default "" (Re.group1 section))))
    (Re.finditer sections_regex name).

(** The codes that the releases of an item add to the codes [seen] so
    far: the code of a release, in upper case, when the code as it is
    written is not among them. *)
Fixpoint release_codes (seen : list string) (rels : list Dat.release)
  : list string :=
  match rels with
  | [] => []
  | rel :: rest =>
      match Dat.region rel with
      | Some c =>
          if Text.truthy c && negb (bool_decide (c ∈ seen))
          then Text.upper c :: release_codes (seen ++ [Text.upper c]) rest
          else release_codes seen rest
      | None => release_codes seen rest
      end
  end.

(** The table of the program, with the codes the catalogue added to it:
    these have no pattern. *)
Definition grown (registry : list RegionData) : Prop :=
  exists extra,
    registry = COUNTRY_REGION_CORRELATION ++ extra
    /\ Forall (fun rd => pattern rd = None) extra.

(** An item with two releases for the USA, the code written in lower
    case. *)
Definition released_twice : Dat.game :=
  {| Dat.name := "Game (USA)"; Dat.cloneof := None;
     Dat.releases := [ {| Dat.region := Some "usa" |};
                       {| Dat.region := Some "usa" |} ];
     Dat.roms := [] |}.

(** The number of stages of the key that stand before the six vectors. *)
Definition leading_stages (kg : KeyGenerator) : nat :=
  (2 + (if non_empty (avoid kg) then 1 else 0) + 2
   + (if prefer_parents kg then 1 else 0)
   + (if input_order kg then 1 else 0)
   + (if non_empty (prefer kg) then 1 else 0))%nat.

(** The place of a tag among the six vectors. *)
Definition position (k : tag_field) : nat :=
  match k with
  | Revision => 0
  | Version => 1
  | Sample => 2
  | Demo => 3
  | Beta => 4
  | Proto => 5
  end.

(** The stages of the key of a candidate that stand before the vector of
    the tag. *)
Definition stages_before (k : tag_field) (kg : KeyGenerator) (g : Entry.t)
  : list key_part :=
  take (leading_stages kg + position k) (generate kg g).

(** One candidate does not rank after the other. *)
Definition key_le (kg : KeyGenerator) (x y : Entry.t) : Prop :=
  compare_key (generate kg x) (generate kg y) <> Gt.

(** A family of two revisions of one game, the later one a beta. *)
Definition beta_of_later_revision : list Dat.game :=
  [ {| Dat.name := "Game (USA) (Rev 2)"; Dat.cloneof := None;
       Dat.releases := []; Dat.roms := [] |};
    {| Dat.name := "Game (USA) (Rev 10) (Beta)";
       Dat.cloneof := Some "Game (USA) (Rev 2)";
       Dat.releases := []; Dat.roms := [] |} ].

(** * Properties *)

(** ** The scorer: region rank *)

Lemma index_of_Some (ls : list string) (item : string) (i : nat) :
  index_of ls item = Some i -> (i < length ls)%nat /\ ls !! i = Some item.
Proof.
  unfold index_of. destruct (list_find _ ls) as [[j x]|] eqn:E; [|done].
  intros [= <-]. apply list_find_Some in E as (Hl & -> & _).
  split; [by eapply lookup_lt_Some | done].
Qed.

Lemma index_of_None (ls : list string) (item : string) :
  index_of ls item = None <-> item ∉ ls.
Proof.
  unfold index_of. destruct (list_find _ ls) as [[j x]|] eqn:E.
  - apply list_find_Some in E as (Hl & -> & _). split; [done|].
    intros Hn. exfalso. apply Hn. by eapply list_elem_of_lookup_2.
  - split; [|done]. intros _. apply list_find_None in E.
    rewrite Forall_forall in E. intros Hin. by apply (E _ Hin).
Qed.

Lemma get_index_absent (ls : list string) (item : string) (d : Z) :
  item ∉ ls -> get_index ls item d = d.
Proof.
  intros Hn. unfold get_index. by apply index_of_None in Hn as ->.
Qed.

Lemma get_index_present (ls : list string) (item : string) (d : Z) :
  item ∈ ls -> 0 <= get_index ls item d < Z.of_nat (length ls).
Proof.
  intros Hin. unfold get_index.
  destruct (index_of ls item) as [i|] eqn:E.
  - apply index_of_Some in E as [Hlt _]. lia.
  - apply index_of_None in E. done.
Qed.

(** C4, as the code has it: for a region-preference list of at most 10000
    entries, a candidate whose region is not in the list gets region rank
    10000 (UNSELECTED), and that rank is strictly greater than the rank of
    any candidate whose region is in the list. *)
Theorem unselected_rank_is_worst
  (selected_regions selected_languages : list string) (weight : Z)
  (revision_asc version_asc : bool) (absent present : Entry.t) :
  Z.of_nat (length selected_regions) <= 10000 ->
  Entry.region absent ∉ selected_regions ->
  Entry.region present ∈ selected_regions ->
  let rank g :=
    Score.region (score_of selected_regions selected_languages weight
                    revision_asc version_asc g) in
  rank absent = 10000 /\ rank present < rank absent.
Proof.
  intros Hlen Ha Hp. simpl.
  rewrite (get_index_absent _ _ _ Ha).
  pose proof (get_index_present _ _ UNSELECTED Hp) as Hb.
  unfold UNSELECTED in *. split; [done | lia].
Qed.

Lemma unselected_rank_is_worst_witness :
  let rank g :=
    Score.region (score_of ["EUR"; "USA"] ["en"] 3 false false g) in
  rank (plain_entry "Game (Japan)" "JPN" ["ja"] []) = 10000
  /\ rank (plain_entry "Game (USA)" "USA" ["en"] [])
     < rank (plain_entry "Game (Japan)" "JPN" ["ja"] []).
Proof.
  apply (unselected_rank_is_worst ["EUR"; "USA"] ["en"] 3 false false
           (plain_entry "Game (Japan)" "JPN" ["ja"] [])
           (plain_entry "Game (USA)" "USA" ["en"] [])).
  - simpl. lia.
  - simpl. intros Hin. repeat (apply elem_of_cons in Hin as [Hin|Hin]; [done|]).
    by apply elem_of_nil in Hin.
  - simpl. apply elem_of_cons. right. apply elem_of_cons. by left.
Defined.

(** C4, as the claim states it, fails: with 10000 entries before it, a
    region of the list gets rank 10000 as well, so a candidate of an
    unlisted region is not ranked strictly after it. *)
Lemma unselected_rank_not_always_worst :
  let rank g :=
    Score.region (score_of long_region_list ["en"] 3 false false g) in
  ("B" ∈ long_region_list) /\ ("C" ∉ long_region_list)
  /\ rank (plain_entry "Game" "C" [] []) = 10000
  /\ ~ (rank (plain_entry "Game" "B" [] [])
        < rank (plain_entry "Game" "C" [] [])).
Proof.
  assert (Hc : "C" ∉ long_region_list).
  { unfold long_region_list. intros Hin. apply elem_of_app in Hin as [Hin|Hin].
    - apply elem_of_replicate in Hin as [? _]. done.
    - apply elem_of_cons in Hin as [?|Hin]; [done|]. by apply elem_of_nil in Hin. }
  assert (Hb : "B" ∈ long_region_list).
  { unfold long_region_list. apply elem_of_app. right. by apply elem_of_cons; left. }
  split; [done|]. split; [done|].
  assert (E1 : get_index long_region_list "C" UNSELECTED = 10000).
  { by rewrite get_index_absent. }
  assert (E2 : get_index long_region_list "B" UNSELECTED = 10000).
  { vm_compute. reflexivity. }
  simpl. rewrite E1, E2. split; [done | lia].
Qed.

(** ** The scorer: language rank *)

Lemma sum_from (l : list Z) (a : Z) : fold_left Z.add l a = a + sum l.
Proof.
  unfold sum. revert a. induction l as [|x l IH]; intros a; simpl; [lia|].
  rewrite (IH (a + x)), (IH (0 + x)). lia.
Qed.

Lemma sum_cons (x : Z) (l : list Z) : sum (x :: l) = x + sum l.
Proof. unfold sum at 1. simpl. rewrite sum_from. lia. Qed.

(** The two places of the source that compute the language score agree
    with each other and with the sum of the specification. *)
Lemma language_value_rank (languages : list string) (weight : Z)
  (selected : list string) :
  language_value languages weight selected
  = language_rank languages weight selected.
Proof.
  unfold language_value. induction languages as [|l ls IH]; [done|].
  simpl map. rewrite sum_cons, IH. reflexivity.
Qed.

Lemma score_languages_rank (regions selected : list string) (weight : Z)
  (ra va : bool) (g : Entry.t) :
  Score.languages (score_of regions selected weight ra va g)
  = language_rank (Entry.languages g) weight selected.
Proof.
  simpl. induction (Entry.languages g) as [|l ls IH]; [done|].
  simpl map. rewrite sum_cons, IH. simpl. unfold contribution. ring.
Qed.

Lemma languages_of_reversed `{Env} (arg : string) :
  languages_of arg = reverse (user_languages arg).
Proof.
  unfold languages_of, user_languages.
  rewrite filter_reverse.
  exact (fmap_reverse _ _).
Qed.

(** The index of a language in the reversed list, from its last position
    in the user's list. *)
Lemma index_of_reverse_last (u : list string) (a : string) (i : nat) :
  u !! i = Some a ->
  (forall k, (i < k)%nat -> u !! k <> Some a) ->
  index_of (reverse u) a = Some (length u - S i)%nat.
Proof.
  intros Hi Hlast.
  pose proof (lookup_lt_Some _ _ _ Hi) as Hlt.
  unfold index_of.
  destruct (list_find (fun x => x = a) (reverse u)) as [[j x]|] eqn:E.
  - apply list_find_Some in E as (Hj & -> & Hmin). simpl. f_equal.
    pose proof (lookup_lt_Some _ _ _ Hj) as Hjl. rewrite length_reverse in Hjl.
    rewrite reverse_lookup in Hj by done.
    destruct (decide (j = length u - S i)%nat) as [|Hne]; [done|exfalso].
    destruct (decide (j < length u - S i)%nat) as [Hlo|Hhi].
    + apply (Hlast (length u - S j)%nat); [lia | done].
    + apply (Hmin (length u - S i)%nat a); [|lia|done].
      rewrite reverse_lookup by lia.
      replace (length u - S (length u - S i))%nat with i by lia. done.
  - exfalso. apply list_find_None in E. rewrite Forall_forall in E.
    apply (E a); [|done]. apply elem_of_reverse.
    by eapply list_elem_of_lookup_2.
Qed.

(** C9, as the code has it: for every preference list and every
    candidate, the language score is the sum over the candidate's languages
    of (index in the preference list, or -1, plus one) times the weight
    times -1; a language that is not in the list adds zero; and, for a
    positive weight, of two languages of the user's list the one whose
    last occurrence comes earlier adds the strictly more negative value
    (in a list without repetitions: the one listed earlier). *)
Theorem language_score_by_preference `{Env} (arg : string)
  (regions : list string) (weight : Z) (ra va : bool) (g : Entry.t) :
  0 < weight ->
  Score.languages (score_of regions (languages_of arg) weight ra va g)
  = language_rank (Entry.languages g) weight (languages_of arg)
  /\ (forall lang, lang ∉ user_languages arg ->
        contribution (languages_of arg) weight lang = 0)
  /\ (forall (a b : string) (i j : nat),
        user_languages arg !! i = Some a ->
        user_languages arg !! j = Some b ->
        (forall k, (i < k)%nat -> user_languages arg !! k <> Some a) ->
        (forall k, (j < k)%nat -> user_languages arg !! k <> Some b) ->
        (i < j)%nat ->
        contribution (languages_of arg) weight a
        < contribution (languages_of arg) weight b).
Proof.
  intros Hw.
  split; [apply score_languages_rank|]. split.
  - intros lang Hn. unfold contribution. rewrite get_index_absent; [lia|].
    rewrite languages_of_reversed. by rewrite elem_of_reverse.
  - intros a b i j Hi Hj Hla Hlb Hij.
    unfold contribution, get_index. rewrite languages_of_reversed.
    rewrite (index_of_reverse_last _ _ _ Hi Hla).
    rewrite (index_of_reverse_last _ _ _ Hj Hlb).
    pose proof (lookup_lt_Some _ _ _ Hi). pose proof (lookup_lt_Some _ _ _ Hj).
    nia.
Qed.

Lemma language_score_by_preference_witness :
  let sel := @languages_of example_env "en,fr" in
  Score.languages
    (score_of ["USA"] sel 3 false false
       (plain_entry "Game (USA) (En,Fr)" "USA" ["en"; "fr"] []))
  = language_rank ["en"; "fr"] 3 sel
  /\ (forall lang, lang ∉ @user_languages example_env "en,fr" ->
        contribution sel 3 lang = 0)
  /\ (forall (a b : string) (i j : nat),
        @user_languages example_env "en,fr" !! i = Some a ->
        @user_languages example_env "en,fr" !! j = Some b ->
        (forall k, (i < k)%nat ->
                   @user_languages example_env "en,fr" !! k <> Some a) ->
        (forall k, (j < k)%nat ->
                   @user_languages example_env "en,fr" !! k <> Some b) ->
        (i < j)%nat ->
        contribution sel 3 a < contribution sel 3 b).
Proof.
  apply (@language_score_by_preference example_env "en,fr" ["USA"] 3
           false false
           (plain_entry "Game (USA) (En,Fr)" "USA" ["en"; "fr"] [])).
  lia.
Defined.

(** The sum and the zero of an absent language for a list of one language
    and for no list at all; and the two languages of the list [en,fr]. *)
Example language_scores :
  Score.languages
    (score_of ["USA"] (@languages_of example_env "en") 3 false false
       (plain_entry "Game (USA) (En,Fr)" "USA" ["en"; "fr"] [])) = -3
  /\ Score.languages
       (score_of ["USA"] [] 3 false false
          (plain_entry "Game (USA) (En,Fr)" "USA" ["en"; "fr"] [])) = 0
  /\ contribution (@languages_of example_env "en,fr") 3 "en" = -6
  /\ contribution (@languages_of example_env "en,fr") 3 "fr" = -3.
Proof. repeat split; vm_compute; reflexivity. Qed.

(** C9, as the claim states it, fails for a list that repeats a language:
    in [en,fr,en] the language [en] comes first, before [fr], and adds -3
    where [fr] adds -6. *)
Lemma earlier_language_not_always_better :
  let sel := @languages_of example_env "en,fr,en" in
  @user_languages example_env "en,fr,en" !! 0%nat = Some "en"
  /\ @user_languages example_env "en,fr,en" !! 1%nat = Some "fr"
  /\ contribution sel 3 "en" = -3
  /\ contribution sel 3 "fr" = -6
  /\ ~ (contribution sel 3 "en" < contribution sel 3 "fr").
Proof.
  repeat split; try reflexivity. vm_compute. discriminate.
Qed.

(** ** The hash indexer: cancellation *)

Lemma total_ret {A : Type} (a : A) : total (ret a).
Proof. intros t. by exists a, t. Qed.

Lemma total_bind {A B : Type} (m : Worker A) (f : A -> Worker B) :
  total m -> (forall a, total (f a)) -> total (bind m f).
Proof.
  intros Hm Hf t. destruct (Hm t) as (a & t' & E).
  destruct (Hf a t') as (b & t'' & E'). exists b, t''.
  unfold bind. by rewrite E.
Qed.

Lemma bind_Ok {A B : Type} (m : Worker A) (f : A -> Worker B) (t t' : nat)
  (b : B) :
  bind m f t = (Ok b, t') ->
  exists a t1, m t = (Ok a, t1) /\ f a t1 = (Ok b, t').
Proof.
  unfold bind. destruct (m t) as [[a|e] t1]; [|done]. intros E.
  by exists a, t1.
Qed.

Lemma never_cleared_later (QUIT : nat -> bool) (t t' : nat) :
  never_cleared QUIT -> QUIT t = true -> (t <= t')%nat -> QUIT t' = true.
Proof.
  intros Hm Ht Hle. induction Hle as [|t' _ IH]; [done|]. by apply Hm.
Qed.

Section Cancellation.

Context `{Hashlib} `{Repository}.
Variable QUIT : nat -> bool.
Hypothesis QUIT_never_cleared : never_cleared QUIT.

(** Once the flag is seen set, the loop returns at its next test. *)
Lemma compute_hash_loop_set (fuel : nat) (f : stream) (h : hasher) (t : nat) :
  QUIT t = true ->
  compute_hash_loop QUIT (S fuel) f h t = (Ok h, S t).
Proof.
  intros Ht. simpl. unfold bind, read_QUIT. by rewrite Ht.
Qed.

(** With one unit of fuel per chunk and two to spare the loop returns. *)
Lemma compute_hash_loop_returns (f : stream) :
  forall (fuel : nat) (h : hasher) (t : nat),
    (length f + 2 <= fuel)%nat ->
    exists h' t', compute_hash_loop QUIT fuel f h t = (Ok h', t').
Proof.
  induction f as [|chunk f IH]; intros fuel h t Hfuel.
  - destruct fuel as [|fuel]; [simpl in Hfuel; lia|].
    cbn [compute_hash_loop read]. unfold bind at 1, read_QUIT at 1.
    destruct (QUIT t) eqn:Et; [by eexists _, _|].
    unfold bind at 1, read_QUIT at 1.
    destruct (QUIT (S t)) eqn:Et'; [|by eexists _, _].
    cbn [negb]. destruct fuel as [|fuel]; [simpl in Hfuel; lia|].
    rewrite compute_hash_loop_set by by apply QUIT_never_cleared.
    by eexists _, _.
  - destruct fuel as [|fuel]; [simpl in Hfuel; lia|].
    cbn [compute_hash_loop read]. unfold bind at 1, read_QUIT at 1.
    destruct (QUIT t) eqn:Et; [by eexists _, _|].
    destruct chunk as [|x chunk].
    + unfold bind at 1, read_QUIT at 1.
      destruct (QUIT (S t)) eqn:Et'; [|by eexists _, _].
      cbn [negb]. apply IH. simpl in Hfuel. lia.
    + apply IH. simpl in Hfuel. lia.
Qed.

Lemma compute_hash_total (f : stream) : total (compute_hash QUIT f).
Proof.
  intros t. unfold compute_hash.
  destruct (compute_hash_loop_returns f (S (S (length f))) sha1 t)
    as (h' & t' & E); [lia|].
  unfold bind. rewrite E. by eexists _, _.
Qed.

Lemma read_QUIT_total : total (read_QUIT QUIT).
Proof. intros t. by eexists _, _. Qed.

(** The loop over the members ends: with what was entered, or with an
    exception of the archive, raised right after a look at the flag that
    found it unset. *)
Lemma hash_members_ends (full_path : string)
  (members : list (string * attempt stream)) :
  forall (result : dict) (t : nat),
    exists out t',
      hash_members QUIT full_path members result t = (out, t')
      /\ forall e, out = Raise e ->
           e <> OutOfFuel /\ (1 <= t')%nat /\ QUIT (t' - 1) = false.
Proof.
  induction members as [|[name member] rest IH]; intros result t.
  - by exists (Ok result), t.
  - cbn [hash_members]. unfold bind at 1, read_QUIT at 1.
    destruct (QUIT t) eqn:Et; cbn [negb]; [apply IH|].
    destruct member as [f| |fl].
    + destruct (compute_hash_total f (S t)) as (d & t2 & E).
      unfold bind at 1. rewrite E. apply IH.
    + by exists (Ok result), (S t).
    + exists (Raise (exception_of fl)), (S t). split; [done|].
      intros e [= <-]. split; [by destruct fl|]. split; [lia|].
      by replace (S t - 1)%nat with t by lia.
Qed.

Lemma process_file_ends (fd : FileData) (t : nat) :
  (1 <= t)%nat -> QUIT (t - 1) = false ->
  exists out t',
    process_file QUIT fd t = (out, t')
    /\ forall e, out = Raise e ->
         e <> OutOfFuel /\ (1 <= t')%nat /\ QUIT (t' - 1) = false.
Proof.
  intros Ht Hq. unfold process_file.
  assert (exists out t1,
             (if is_zip (path fd) then
                match zip_members (path fd) with
                | Opened members => hash_members QUIT (path fd) members []
                | BadZipFile => ret []
                | Unhandled f => raise (exception_of f)
                end
              else ret []) t = (out, t1)
             /\ forall e, out = Raise e ->
                  e <> OutOfFuel /\ (1 <= t1)%nat /\ QUIT (t1 - 1) = false)
    as (out & t1 & E1 & H1).
  { destruct (is_zip (path fd)); [|by exists (Ok []), t].
    destruct (zip_members (path fd)) as [members| |fl].
    - apply hash_members_ends.
    - by exists (Ok []), t.
    - exists (Raise (exception_of fl)), t. split; [done|].
      intros e [= <-]. split; [by destruct fl | done]. }
  unfold bind at 1. rewrite E1. destruct out as [result|e].
  - destruct (open_rb (path fd)) as [f|]; [|by exists (Ok result), t1].
    destruct (compute_hash_total f t1) as (d & t2 & E2).
    unfold bind. rewrite E2.
    destruct (dict_get result d) as [p|]; [destruct (is_zip p)|];
      by eexists (Ok _), t2.
  - exists (Raise e), t1. split; [done|]. intros e' [= <-]. by apply H1.
Qed.


End Cancellation.


(** The interrupted worker of the witness had entered the digest of the
    archive member before it saw the flag; what it returns is empty. *)
Example interrupted_worker :
  @process_file example_hashlib example_repository at_third
    {| size := 4; path := "roms/game.zip" |} 1%nat
  = (Ok [("game", "roms/game.zip"); ("", "roms/game.zip")], 5%nat)
  /\ @process_with_progress example_hashlib example_repository at_third
       {| size := 4; path := "roms/game.zip" |} 0%nat
     = (Ok [], 6%nat).
Proof. split; reflexivity. Qed.

(** An archive whose second member is encrypted: the worker that is not
    interrupted ends with [RuntimeError], and so does the scan; the worker
    that finds the flag set before it reaches that member opens nothing
    more and returns the empty mapping. *)
Example worker_of_locked_archive :
  @process_with_progress example_hashlib locked_repository never
    {| size := 4; path := "roms/locked.zip" |} 0%nat
  = (Raise RuntimeError, 6%nat)
  /\ @index_files example_hashlib locked_repository never None
       [("roms/locked.zip", Some 4)] example_catalogue 0%nat
     = Raise RuntimeError
  /\ @process_with_progress example_hashlib locked_repository at_third
       {| size := 4; path := "roms/locked.zip" |} 0%nat
     = (Ok [], 7%nat).
Proof. repeat split; reflexivity. Qed.

(** ** The hash indexer: the merge *)

Lemma dict_get_set_eq (d : dict) (k v : string) :
  dict_get (dict_set d k v) k = Some v.
Proof.
  induction d as [|[k' v'] d IH]; simpl.
  - unfold dict_get. simpl. by rewrite String.eqb_refl.
  - destruct (String.eqb k' k) eqn:E; unfold dict_get in *; simpl; rewrite E;
      [done | apply IH].
Qed.

Lemma dict_get_set_ne (d : dict) (k k' v : string) :
  k <> k' -> dict_get (dict_set d k v) k' = dict_get d k'.
Proof.
  intros Hne. induction d as [|[k0 v0] d IH]; simpl.
  - unfold dict_get. simpl.
    destruct (String.eqb k k') eqn:E; [|done].
    apply String.eqb_eq in E. done.
  - destruct (String.eqb k0 k) eqn:E; unfold dict_get in *; simpl.
    + apply String.eqb_eq in E as ->.
      destruct (String.eqb k k') eqn:E'; [|done].
      apply String.eqb_eq in E'. done.
    + destruct (String.eqb k0 k'); [done | apply IH].
Qed.

Lemma dict_get_elem_of (d : dict) (k v : string) :
  dict_get d k = Some v -> (k, v) ∈ d.
Proof.
  unfold dict_get. induction d as [|[k0 v0] d IH]; simpl; [done|].
  destruct (String.eqb k0 k) eqn:E; simpl.
  - intros [= <-]. apply String.eqb_eq in E as ->. apply elem_of_cons. by left.
  - intros Hd. apply elem_of_cons. right. by apply IH.
Qed.

Lemma merge_item_is_Some (index : gmap string string) (item : string * string)
  (k : string) :
  is_Some (merge_item index item !! k) <-> is_Some (index !! k).
Proof.
  destruct item as [key value]. unfold merge_item.
  destruct (index !! key) as [cur|] eqn:E; [|done].
  destruct (is_zip cur); [done|].
  destruct (decide (key = k)) as [->|Hne].
  - rewrite lookup_insert_eq, E. split; intros _; by eexists.
  - by rewrite lookup_insert_ne.
Qed.

Lemma merge_item_archived (index : gmap string string)
  (item : string * string) (k : string) :
  archived index k -> archived (merge_item index item) k.
Proof.
  intros (q & Hq & Hz). destruct item as [key value]. unfold merge_item.
  destruct (index !! key) as [cur|] eqn:E; [|by exists q].
  destruct (is_zip cur) eqn:Ez; [by exists q|].
  destruct (decide (key = k)) as [->|Hne].
  - rewrite Hq in E. injection E as ->. congruence.
  - exists q. by rewrite lookup_insert_ne.
Qed.

Lemma merge_item_archive_path (index : gmap string string) (k p : string) :
  is_Some (index !! k) -> is_zip p = true ->
  archived (merge_item index (k, p)) k.
Proof.
  intros [cur E] Hp. unfold merge_item. rewrite E.
  destruct (is_zip cur) eqn:Ez; [by exists cur|].
  exists p. by rewrite lookup_insert_eq.
Qed.

Lemma merge_dict_is_Some (r : dict) (index : gmap string string) (k : string) :
  is_Some (fold_left merge_item r index !! k) <-> is_Some (index !! k).
Proof.
  revert index. induction r as [|item r IH]; intros index; [done|].
  simpl. rewrite IH. apply merge_item_is_Some.
Qed.

Lemma merge_dict_archived (r : dict) (index : gmap string string)
  (k : string) :
  archived index k -> archived (fold_left merge_item r index) k.
Proof.
  revert index. induction r as [|item r IH]; intros index Ha; [done|].
  simpl. apply IH. by apply merge_item_archived.
Qed.

Lemma merge_dict_archive_path (r : dict) (index : gmap string string)
  (k p : string) :
  (k, p) ∈ r -> is_Some (index !! k) -> is_zip p = true ->
  archived (fold_left merge_item r index) k.
Proof.
  revert index. induction r as [|item r IH]; intros index Hin Hk Hp.
  - by apply elem_of_nil in Hin.
  - simpl. apply elem_of_cons in Hin as [<-|Hin].
    + apply merge_dict_archived. by apply merge_item_archive_path.
    + apply IH; [done| |done]. by apply merge_item_is_Some.
Qed.

Lemma merge_results_is_Some (rs : list dict) (index : gmap string string)
  (k : string) :
  is_Some (merge_results index rs !! k) <-> is_Some (index !! k).
Proof.
  unfold merge_results. revert index.
  induction rs as [|r rs IH]; intros index; [done|].
  simpl. rewrite IH. apply merge_dict_is_Some.
Qed.

Lemma merge_results_archived (rs : list dict) (index : gmap string string)
  (k : string) :
  archived index k -> archived (merge_results index rs) k.
Proof.
  unfold merge_results. revert index.
  induction rs as [|r rs IH]; intros index Ha; [done|].
  simpl. apply IH. by apply merge_dict_archived.
Qed.

(** Whatever the order of the results: once one of them offers the path of
    an archive for a key of the index, the index ends with the path of an
    archive for that key. *)
Lemma merge_results_archive_path (rs : list dict)
  (index : gmap string string) (r : dict) (k p : string) :
  r ∈ rs -> (k, p) ∈ r -> is_Some (index !! k) -> is_zip p = true ->
  archived (merge_results index rs) k.
Proof.
  revert index. induction rs as [|r' rs IH]; intros index Hr Hin Hk Hp.
  - by apply elem_of_nil in Hr.
  - apply elem_of_cons in Hr as [<-|Hr].
    + change (merge_results index (r :: rs))
        with (merge_results (fold_left merge_item r index) rs).
      apply merge_results_archived. by eapply merge_dict_archive_path.
    + change (merge_results index (r' :: rs))
        with (merge_results (fold_left merge_item r' index) rs).
      apply IH; [done..| |done]. by apply merge_dict_is_Some.
Qed.

(** ** The hash indexer: uninterrupted workers *)

Section Uninterrupted.

Context `{Hashlib} `{Repository}.

Lemma compute_hash_loop_never (f : stream) :
  forall (fuel : nat) (h : hasher) (t : nat),
    (length f + 2 <= fuel)%nat ->
    exists t', compute_hash_loop never fuel f h t = (Ok (hash_chunks f h), t').
Proof.
  induction f as [|chunk f IH]; intros fuel h t Hfuel;
    (destruct fuel as [|fuel]; [simpl in Hfuel; lia|]).
  - by eexists.
  - destruct chunk as [|x chunk]; [by eexists|].
    cbn [compute_hash_loop read hash_chunks]. unfold bind, read_QUIT, never.
    apply IH. simpl in Hfuel. lia.
Qed.

Lemma compute_hash_never (f : stream) (t : nat) :
  exists t', compute_hash never f t = (Ok (digest_of f), t').
Proof.
  unfold compute_hash, digest_of.
  destruct (compute_hash_loop_never f (S (S (length f))) sha1 t) as [t' E];
    [lia|].
  unfold bind. rewrite E. by eexists.
Qed.

Lemma hash_members_never (full_path : string)
  (members : list (string * attempt stream)) :
  forall (result : dict) (t : nat) (r : dict) (t' : nat),
    hash_members never full_path members result t = (Ok r, t') ->
    r = entered full_path members result.
Proof.
  induction members as [|[name member] rest IH]; intros result t r t' E.
  - by injection E as <- <-.
  - cbn [hash_members] in E. unfold bind at 1, read_QUIT at 1 in E.
    change (never t) with false in E. cbn [negb] in E.
    destruct member as [f| |fl]; cbn [entered].
    + destruct (compute_hash_never f (S t)) as [t1 E1].
      unfold bind at 1 in E. rewrite E1 in E. by apply IH in E.
    + by injection E as <- <-.
    + done.
Qed.

Lemma process_file_never (fd : FileData) (t : nat) (r : dict) (t' : nat) :
  process_file never fd t = (Ok r, t') -> r = result_of fd.
Proof.
  unfold process_file, result_of. intros E.
  apply bind_Ok in E as (members_result & t1 & E1 & E).
  assert (members_result
          = if is_zip (path fd) then
              match zip_members (path fd) with
              | Opened members => entered (path fd) members []
              | _ => []
              end
            else []) as <-.
  { destruct (is_zip (path fd)); [|by injection E1 as <- <-].
    destruct (zip_members (path fd)) as [members| |fl].
    - by apply hash_members_never in E1.
    - by injection E1 as <- <-.
    - done. }
  destruct (open_rb (path fd)) as [f|]; [|by injection E as <- <-].
  destruct (compute_hash_never f t1) as [t2 E2].
  unfold bind in E. rewrite E2 in E.
  destruct (dict_get members_result (digest_of f)) as [p|];
    [destruct (is_zip p)|]; by injection E as <- <-.
Qed.

Lemma pool_map_never (files_data : list FileData) :
  forall (t : nat) (rs : list dict) (t' : nat),
    pool_map never files_data t = (Ok rs, t') ->
    rs = map result_of files_data.
Proof.
  induction files_data as [|fd rest IH]; intros t rs t' E.
  - by injection E as <- <-.
  - cbn [pool_map map] in E.
    apply bind_Ok in E as (r & t1 & E1 & E).
    apply bind_Ok in E as (rs' & t2 & E2 & E). injection E as <- <-.
    apply IH in E2 as ->. f_equal.
    unfold process_with_progress, bind at 1, read_QUIT at 1 in E1.
    change (never t) with false in E1.
    apply bind_Ok in E1 as (r' & t3 & E3 & E1).
    apply process_file_never in E3 as ->.
    unfold bind, read_QUIT in E1. change (never t3) with false in E1.
    by injection E1 as <- <-.
Qed.

(** An uninterrupted scan that returns gives the merge of what the workers
    return for the files, largest first, into the digests of the
    catalogue. *)
Lemma index_files_never (threads : option Z) (walked : listing)
  (root : list Dat.game) (t : nat) (index : gmap string string) (t' : nat) :
  index_files never threads walked root t = Ok (index, t') ->
  exists result,
    declare_games ∅ root = Ok result
    /\ index = merge_results result
                 (map result_of (sort_by_size (files_data_of walked))).
Proof.
  unfold index_files. destruct (declare_games ∅ root) as [result|e]; [|done].
  destruct (sort_by_size (files_data_of walked)) as [|fd rest] eqn:Es.
  - intros [= <- <-]. by exists result.
  - destruct (no_threads threads); [done|].
    destruct (pool_map never (fd :: rest) t) as [[rs|e] t1] eqn:E1; [|done].
    intros [= <- <-]. apply pool_map_never in E1 as ->. by exists result.
Qed.

(** What the worker enters for an archive member stays in its result. *)
Lemma entered_keeps (full_path : string)
  (members : list (string * attempt stream)) :
  forall (result : dict) (k : string),
    dict_get result k = Some full_path ->
    dict_get (entered full_path members result) k = Some full_path.
Proof.
  induction members as [|[name [f| |fl]] rest IH]; intros result k Hk;
    [done| |done|done].
  cbn [entered]. apply IH.
  destruct (decide (digest_of f = k)) as [->|Hne].
  - apply dict_get_set_eq.
  - by rewrite dict_get_set_ne.
Qed.

Lemma entered_member (full_path : string)
  (pre post : list (string * attempt stream)) (name : string) (f : stream) :
  Forall (fun m => exists g, snd m = Opened g) pre ->
  forall result,
    dict_get (entered full_path (pre ++ (name, Opened f) :: post) result)
      (digest_of f) = Some full_path.
Proof.
  induction pre as [|[n m] pre IH]; intros Hpre result.
  - cbn [app entered]. apply entered_keeps, dict_get_set_eq.
  - apply Forall_cons in Hpre as [[g Hg] Hpre]. simpl in Hg. subst m.
    cbn [app entered]. by apply IH.
Qed.

Lemma result_of_member (fd : FileData)
  (pre post : list (string * attempt stream)) (name : string) (f : stream) :
  is_zip (path fd) = true ->
  zip_members (path fd) = Opened (pre ++ (name, Opened f) :: post) ->
  Forall (fun m => exists g, snd m = Opened g) pre ->
  (digest_of f, path fd) ∈ result_of fd.
Proof.
  intros Hz Hm Hpre. apply dict_get_elem_of.
  unfold result_of. rewrite Hz, Hm.
  pose proof (entered_member (path fd) pre post name f Hpre []) as E.
  destruct (open_rb (path fd)) as [g|]; [|done].
  destruct (decide (digest_of g = digest_of f)) as [Eg|Hne].
  - rewrite Eg, E, Hz. apply dict_get_set_eq.
  - destruct (dict_get _ (digest_of g)) as [p|];
      [destruct (is_zip p)|]; by rewrite ?dict_get_set_ne.
Qed.

End Uninterrupted.

(** ** The hash indexer: the digests of the catalogue *)

Lemma insert_by_size_elem_of (fd x : FileData) (sorted : list FileData) :
  x ∈ insert_by_size fd sorted <-> x = fd \/ x ∈ sorted.
Proof.
  induction sorted as [|h t IH]; simpl.
  - rewrite elem_of_cons. done.
  - destruct (size h <? size fd).
    + by rewrite elem_of_cons.
    + rewrite !elem_of_cons, IH. tauto.
Qed.

Lemma sort_by_size_elem_of (x : FileData) (files_data : list FileData) :
  x ∈ sort_by_size files_data <-> x ∈ files_data.
Proof.
  unfold sort_by_size.
  enough (forall acc, x ∈ fold_left (fun sorted fd => insert_by_size fd sorted)
                        files_data acc <-> x ∈ acc \/ x ∈ files_data) as E.
  { rewrite E. split; [intros [Hn|]; [by apply elem_of_nil in Hn|done] | tauto]. }
  induction files_data as [|fd rest IH]; intros acc; simpl.
  - split; [tauto | intros [|Hn]; [done | by apply elem_of_nil in Hn]].
  - rewrite IH, insert_by_size_elem_of, elem_of_cons. tauto.
Qed.

Lemma files_data_of_elem_of (walked : listing) (p : string) (n : Z) :
  (p, Some n) ∈ walked -> {| size := n; path := p |} ∈ files_data_of walked.
Proof.
  intros Hin. unfold files_data_of. apply list_elem_of_omap.
  by exists (p, Some n).
Qed.

Lemma declare_roms_spec (roms : list Dat.rom) :
  forall (result result' : gmap string string),
    declare_roms result roms = Ok result' ->
    (forall k, is_Some (result !! k) -> is_Some (result' !! k))
    /\ (forall rom d, rom ∈ roms -> Dat.sha1 rom = Some d ->
          is_Some (result' !! Text.lower d))
    /\ (forall k v, result' !! k = Some v -> v = "" \/ result !! k = Some v).
Proof.
  induction roms as [|rom rest IH]; intros result result' E.
  - injection E as <-. split; [done|]. split; [|by right].
    intros rom d Hin. by apply elem_of_nil in Hin.
  - cbn [declare_roms] in E. destruct (Dat.sha1 rom) as [d0|] eqn:Ed; [|done].
    apply IH in E as (Hkeep & Hnew & Hval). split; [|split].
    + intros k Hk. apply Hkeep.
      destruct (decide (Text.lower d0 = k)) as [->|Hne].
      * rewrite lookup_insert_eq. by eexists.
      * by rewrite lookup_insert_ne.
    + intros rom' d Hin Hd. apply elem_of_cons in Hin as [->|Hin].
      * rewrite Ed in Hd. injection Hd as <-. apply Hkeep.
        rewrite lookup_insert_eq. by eexists.
      * by eapply Hnew.
    + intros k v Hv. apply Hval in Hv as [->|Hv]; [by left|].
      destruct (decide (Text.lower d0 = k)) as [Ek|Hne].
      * subst k. rewrite lookup_insert_eq in Hv. left. congruence.
      * rewrite lookup_insert_ne in Hv by done. by right.
Qed.

Lemma declare_games_spec (root : list Dat.game) :
  forall (result result' : gmap string string),
    declare_games result root = Ok result' ->
    (forall k, is_Some (result !! k) -> is_Some (result' !! k))
    /\ (forall game rom d, game ∈ root -> rom ∈ Dat.roms game ->
          Dat.sha1 rom = Some d -> is_Some (result' !! Text.lower d))
    /\ (forall k v, result' !! k = Some v -> v = "" \/ result !! k = Some v).
Proof.
  induction root as [|game rest IH]; intros result result' E.
  - injection E as <-. split; [done|]. split; [|by right].
    intros game rom d Hin. by apply elem_of_nil in Hin.
  - cbn [declare_games] in E.
    destruct (declare_roms result (Dat.roms game)) as [r1|] eqn:E1; [|done].
    cbn [res_bind] in E.
    apply declare_roms_spec in E1 as (Hk1 & Hn1 & Hv1).
    apply IH in E as (Hk2 & Hn2 & Hv2). split; [|split].
    + intros k Hk. by apply Hk2, Hk1.
    + intros game' rom d Hin Hrom Hd. apply elem_of_cons in Hin as [->|Hin].
      * apply Hk2. by eapply Hn1.
      * by eapply Hn2.
    + intros k v Hv. apply Hv2 in Hv as [->|Hv]; [by left|]. by apply Hv1.
Qed.

Lemma declared_is_Some (root : list Dat.game) (result : gmap string string)
  (digest : string) :
  declare_games ∅ root = Ok result -> declared root digest ->
  is_Some (result !! digest).
Proof.
  intros E (game & rom & d & Hg & Hr & Hd & <-).
  apply declare_games_spec in E as (_ & Hn & _). by eapply Hn.
Qed.

(** C1, as the code has it: when a digest of the catalogue is found in an
    archive of the repository, the index ends with the path of an archive
    for it, whatever loose files have the same digest and in whatever
    order the files were listed. *)
Theorem archive_path_wins `{Hashlib} `{Repository} (threads : option Z)
  (walked : listing) (root : list Dat.game) (digest : string) (t : nat)
  (index : gmap string string) (t' : nat) :
  index_files never threads walked root t = Ok (index, t') ->
  declared root digest ->
  in_archive walked digest ->
  exists q, index !! digest = Some q /\ is_zip q = true.
Proof.
  intros E Hd (p & n & pre & post & name & f & Hw & Hz & Hm & Hpre & <-).
  apply index_files_never in E as (result & Er & ->).
  apply (merge_results_archive_path _ _
           (result_of {| size := n; path := p |}) _ p).
  - apply (list_elem_of_fmap_2 result_of). rewrite sort_by_size_elem_of.
    by apply files_data_of_elem_of.
  - by apply (result_of_member {| size := n; path := p |} pre post name f).
  - by eapply declared_is_Some.
  - done.
Qed.

Lemma archive_path_wins_witness :
  exists q,
    (<["game" := "roms/game.zip"]> (∅ : gmap string string)) !! "game" = Some q
    /\ is_zip q = true.
Proof.
  apply (@archive_path_wins example_hashlib example_repository None
           loose_first example_catalogue "game" 0%nat _ 14%nat).
  - vm_compute. reflexivity.
  - exists {| Dat.name := "Game (USA)"; Dat.cloneof := None;
              Dat.releases := []; Dat.roms := [example_rom] |},
      example_rom, "GAME".
    repeat split; try reflexivity; apply elem_of_cons; by left.
  - exists "roms/game.zip", 4, [], [], "game.bin", [rom_content].
    repeat split; try reflexivity.
    + apply elem_of_cons. right. apply elem_of_cons. by left.
    + apply Forall_nil_2.
Defined.

(** The repository of the worked input holds the content loose and in an
    archive.  Whichever of the two files is listed first, the index gives
    the archive for the digest, not the loose file. *)
Example loose_file_loses :
  @index_files example_hashlib example_repository never None loose_first
    example_catalogue 0%nat
  = Ok (<["game" := "roms/game.zip"]> ∅, 14%nat)
  /\ @index_files example_hashlib example_repository never None archive_first
       example_catalogue 0%nat
     = Ok (<["game" := "roms/game.zip"]> ∅, 14%nat)
  /\ is_zip "roms/game.bin" = false.
Proof. repeat split; vm_compute; reflexivity. Qed.

Lemma index_files_merge `{Hashlib} `{Repository} (QUIT : nat -> bool)
  (threads : option Z) (walked : listing) (root : list Dat.game) (t : nat)
  (index : gmap string string) (t' : nat) :
  index_files QUIT threads walked root t = Ok (index, t') ->
  exists result rs,
    declare_games ∅ root = Ok result
    /\ index = merge_results result rs
    /\ (rs = []
        \/ pool_map QUIT (sort_by_size (files_data_of walked)) t
           = (Ok rs, t')).
Proof.
  unfold index_files. destruct (declare_games ∅ root) as [result|e]; [|done].
  destruct (sort_by_size (files_data_of walked)) as [|fd rest] eqn:Es.
  - intros [= <- <-]. exists result, []. by auto.
  - destruct (no_threads threads); [done|].
    destruct (pool_map QUIT (fd :: rest) t) as [[rs|e] t1] eqn:E; [|done].
    intros [= <- <-]. exists result, rs. by auto.
Qed.

Lemma merge_item_other (index : gmap string string) (key value k : string) :
  key <> k -> merge_item index (key, value) !! k = index !! k.
Proof.
  intros Hne. unfold merge_item. destruct (index !! key) as [cur|]; [|done].
  destruct (is_zip cur); [done|]. by rewrite lookup_insert_ne.
Qed.

Lemma merge_dict_other (r : dict) (index : gmap string string) (k : string) :
  (forall p, (k, p) ∉ r) -> fold_left merge_item r index !! k = index !! k.
Proof.
  revert index. induction r as [|[key value] r IH]; intros index Hn; [done|].
  simpl. rewrite IH.
  - apply merge_item_other. intros ->. apply (Hn value).
    apply elem_of_cons. by left.
  - intros p Hin. apply (Hn p). apply elem_of_cons. by right.
Qed.

Lemma merge_results_other (rs : list dict) (index : gmap string string)
  (k : string) :
  (forall r p, r ∈ rs -> (k, p) ∉ r) ->
  merge_results index rs !! k = index !! k.
Proof.
  unfold merge_results. revert index.
  induction rs as [|r rs IH]; intros index Hn; [done|].
  simpl. rewrite IH.
  - apply merge_dict_other. intros p. apply Hn. apply elem_of_cons. by left.
  - intros r' p Hin. apply Hn. apply elem_of_cons. by right.
Qed.

(** The index has a key for every digest of the catalogue; the path is
    empty when no worker came back with that digest. *)
Lemma declared_digests_indexed `{Hashlib} `{Repository} (QUIT : nat -> bool)
  (threads : option Z) (walked : listing) (root : list Dat.game) (t : nat)
  (index : gmap string string) (t' : nat) (digest : string) :
  index_files QUIT threads walked root t = Ok (index, t') ->
  declared root digest ->
  is_Some (index !! digest)
  /\ forall rs,
       pool_map QUIT (sort_by_size (files_data_of walked)) t = (Ok rs, t') ->
       (forall r p, r ∈ rs -> (digest, p) ∉ r) ->
       index !! digest = Some "".
Proof.
  intros E Hd. destruct (index_files_merge _ _ _ _ _ _ _ E)
    as (result & rs & Er & -> & Hrs).
  pose proof (declared_is_Some _ _ _ Er Hd) as Hs.
  split; [by apply merge_results_is_Some|].
  intros rs' E' Hn.
  assert (merge_results result rs !! digest = result !! digest) as ->.
  { destruct Hrs as [->|E'']; [done|]. rewrite E'' in E'.
    injection E' as ->. by apply merge_results_other. }
  destruct Hs as [v Hv]. rewrite Hv. f_equal.
  apply declare_games_spec in Er as (_ & _ & Hval).
  destruct (Hval _ _ Hv) as [->|Hv']; [done|].
  by rewrite lookup_empty in Hv'.
Qed.

(** ** The selector: the lookup of a digest *)

Lemma no_KeyError_bind {A B : Type} (x : res A) (f : A -> res B) :
  no_KeyError x -> (forall a, x = Ok a -> no_KeyError (f a)) ->
  no_KeyError (res_bind x f).
Proof.
  intros Hx Hf. destruct x as [a|e]; simpl; [by apply Hf|].
  intros k [= ->]. by apply (Hx k).
Qed.

Lemma resolve_roms_no_KeyError (s : Settings) (index : gmap string string)
  (game : string) (entry : Entry.t) (roms : list Dat.rom) :
  roms_indexed index roms ->
  forall copied_files out,
    no_KeyError (resolve_roms s index game entry roms copied_files out).
Proof.
  induction roms as [|rom rest IH]; intros Hroms copied_files out; [done|].
  assert (roms_indexed index rest) as Hrest.
  { intros r d Hin. apply Hroms. apply elem_of_cons. by right. }
  cbn [resolve_roms]. destruct (Dat.sha1 rom) as [d|] eqn:Ed; [|done].
  destruct (Hroms rom d) as [p Ep]; [apply elem_of_cons; by left | done |].
  rewrite Ep. repeat case_match; by apply IH.
Qed.

Lemma try_candidate_no_KeyError `{Env} (s : Settings)
  (index : gmap string string) (game : string) (entry : Entry.t)
  (last : bool) :
  (use_hashes (config s) = true -> roms_indexed index (Entry.roms entry)) ->
  no_KeyError (try_candidate s index game entry last).
Proof.
  intros Hroms. unfold try_candidate.
  destruct (check_in_pattern_list _ _); [done|].
  destruct (use_hashes (config s)) eqn:Eh.
  - pose proof (resolve_roms_no_KeyError s index game entry (Entry.roms entry)
                  (Hroms eq_refl) ∅ []) as Hr.
    destruct (resolve_roms _ _ _ _ _ _ _) as [[c o]|e];
      [|intros k [= ->]; by apply (Hr k)].
    repeat case_match; done.
  - repeat case_match; done.
Qed.

Lemma walk_no_KeyError `{Env} (s : Settings) (index : gmap string string)
  (game : string) (entries : list Entry.t) :
  (use_hashes (config s) = true ->
   Forall (fun e => roms_indexed index (Entry.roms e)) entries) ->
  no_KeyError (walk s index game entries).
Proof.
  induction entries as [|entry rest IH]; intros Hroms; [done|].
  cbn [walk].
  pose proof (try_candidate_no_KeyError s index game entry
                (bool_decide (rest = []))) as Ht.
  destruct (try_candidate _ _ _ _ _) as [[o r|o]|e].
  - done.
  - assert (no_KeyError (walk s index game rest)) as Hw.
    { apply IH. intros Hh. by eapply Forall_cons_1, Hroms. }
    destruct (walk s index game rest); [done|].
    intros k [= ->]. by apply (Hw k).
  - intros k [= ->]. apply (Ht (fun Hh => Forall_inv (Hroms Hh)) k). done.
Qed.

Lemma candidates_spec (s : Settings) (entries : list Entry.t) :
  no_KeyError (candidates s entries)
  /\ forall es, candidates s entries = Ok es ->
       forall P : Entry.t -> Prop, Forall P entries -> Forall P es.
Proof.
  induction entries as [|x rest [IHn IHs]].
  - split.
    + intros k. cbn. by destruct (all_regions (config s)).
    + intros es E P _. cbn in E. destruct (all_regions (config s));
        injection E as <-; done.
  - cbn [candidates]. destruct (all_regions (config s)) eqn:Ea.
    + split; [done|]. by intros es [= <-] P.
    + split.
      * unfold region_selected. destruct (Entry.score x); [|done]. simpl.
        destruct (candidates s rest); [|done]. done.
      * intros es E P HP. apply Forall_cons in HP as [Hx Hrest].
        unfold region_selected in E. destruct (Entry.score x); [|done].
        simpl in E. destruct (candidates s rest) as [rest'|] eqn:Ec; [|done].
        simpl in E. injection E as <-.
        pose proof (IHs _ eq_refl P Hrest).
        case_match; [by apply Forall_cons|done].
Qed.

Lemma select_all_no_KeyError `{Env} (s : Settings)
  (index : gmap string string) (parsed_games : families) :
  (use_hashes (config s) = true ->
   Forall (fun family =>
             Forall (fun e => roms_indexed index (Entry.roms e)) (snd family))
     parsed_games) ->
  no_KeyError (select_all s index parsed_games).
Proof.
  induction parsed_games as [|[game entries] rest IH]; intros Hroms; [done|].
  cbn [select_all]. apply no_KeyError_bind.
  - unfold select. destruct (candidates_spec s entries) as [Hn Hs].
    apply no_KeyError_bind; [done|]. intros es Ees.
    apply walk_no_KeyError. intros Hh. apply (Hs _ Ees).
    exact (Forall_inv (Hroms Hh)).
  - intros w _. apply no_KeyError_bind; [|done].
    apply IH. intros Hh. exact (Forall_inv_tail (Hroms Hh)).
Qed.

Lemma extend_family_all (P : Entry.t -> Prop) (fs : families)
  (key : string) (entries : list Entry.t) :
  all_entries P fs -> Forall P entries ->
  all_entries P (extend_family fs key entries).
Proof.
  intros Hfs He. induction Hfs as [|[k es] rest Hes Hrest IH]; simpl.
  - apply Forall_cons. split; [done | apply Forall_nil_2].
  - destruct (String.eqb k key); apply Forall_cons; split; try done.
    simpl in *. by apply Forall_app.
Qed.

Lemma parse_game_from_catalogue (root : list Dat.game) (no_warning : bool)
  (f : Filters) (exclude : list Re.regex) (st : ParseState) (i : nat)
  (game : Dat.game) :
  game ∈ root ->
  all_entries (from_catalogue root) (games st) ->
  all_entries (from_catalogue root)
    (games (parse_game no_warning f exclude st i game)).
Proof.
  intros Hg Hst. unfold parse_game.
  destruct (filtered_out f exclude (Dat.name game)); [done|].
  destruct (game_regions no_warning (registry st) game)
    as [[region_data registry'] w].
  set (langs := match parse_languages (Dat.name game) with
                | [] => get_languages region_data
                | _ :: _ => parse_languages (Dat.name game)
                end).
  cbn [games].
  assert (Forall (from_catalogue root)
            (map (entry_for game i langs) (map code region_data))) as He.
  { apply Forall_forall. intros e He.
    apply (list_elem_of_fmap_1 (entry_for game i langs)) in He
      as (c & -> & _).
    by exists game. }
  destruct (map (entry_for game i langs) (map code region_data)) eqn:Em;
    [done|].
  by apply extend_family_all.
Qed.

Lemma parse_games_from_catalogue (root : list Dat.game) (no_warning : bool)
  (f : Filters) (exclude : list Re.regex) (gs : list Dat.game) :
  forall (st : ParseState) (i : nat),
    (forall g, g ∈ gs -> g ∈ root) ->
    all_entries (from_catalogue root) (games st) ->
    all_entries (from_catalogue root)
      (games (parse_games_from no_warning f exclude st i gs)).
Proof.
  induction gs as [|g rest IH]; intros st i Hgs Hst; [done|].
  cbn [parse_games_from]. apply IH.
  - intros g' Hin. apply Hgs. apply elem_of_cons. by right.
  - apply parse_game_from_catalogue; [|done].
    apply Hgs. apply elem_of_cons. by left.
Qed.

Lemma write_back_Forall (P : Entry.t -> Prop)
  (set_function : Entry.t -> string -> Entry.t) (gs : list Entry.t) :
  on_roms P ->
  (forall g v, Entry.roms g = Entry.roms (set_function g v)) ->
  Forall P gs ->
  forall padded, Forall P (write_back set_function gs padded).
Proof.
  intros HP Hset Hgs. induction Hgs as [|g gs Hg Hgs IH]; intros padded.
  - by destruct padded.
  - destruct padded as [|p ps]; cbn [write_back].
    + by apply Forall_cons.
    + apply Forall_cons. split; [|apply IH].
      apply (HP g); [apply Hset | done].
Qed.

Lemma insert_by_Forall (P : Entry.t -> Prop) (kg : KeyGenerator)
  (g : Entry.t) (sorted : list Entry.t) :
  P g -> Forall P sorted -> Forall P (insert_by kg g sorted).
Proof.
  intros Hg Hs. induction Hs as [|h t Hh Ht IH]; cbn [insert_by].
  - apply Forall_cons. split; [done | apply Forall_nil_2].
  - destruct (compare_key _ _); repeat (apply Forall_cons; split); done.
Qed.

Lemma sort_games_Forall (P : Entry.t -> Prop) (kg : KeyGenerator)
  (gs : list Entry.t) :
  Forall P gs -> Forall P (sort_games kg gs).
Proof.
  unfold sort_games.
  enough (forall acc, Forall P acc -> Forall P gs ->
            Forall P (fold_left (fun sorted g => insert_by kg g sorted)
                        gs acc)) as E.
  { apply E, Forall_nil_2. }
  induction gs as [|g rest IH]; intros acc Hacc Hgs; [done|].
  apply Forall_cons in Hgs as [Hg Hrest].
  simpl. apply IH; [|done]. by apply insert_by_Forall.
Qed.

Lemma rank_family_Forall (P : Entry.t -> Prop) (kg : KeyGenerator)
  (regions langs : list string) (w : Z) (ra va : bool)
  (gs : list Entry.t) :
  on_roms P -> Forall P gs ->
  Forall P (rank_family kg regions langs w ra va gs).
Proof.
  intros HP Hgs. unfold rank_family, pad_all, pad_values.
  apply sort_games_Forall. unfold set_scores.
  apply Forall_forall. intros e He.
  apply (list_elem_of_fmap_1 (fun game => Entry.set_score game _)) in He
    as (g & -> & Hin).
  eapply (HP g); [done|]. revert g Hin. apply Forall_forall.
  repeat (apply write_back_Forall; [done | done |]). done.
Qed.

Lemma rank_all_entries (P : Entry.t -> Prop) (s : Settings) (fs : families) :
  on_roms P -> all_entries P fs -> all_entries P (rank_all s fs).
Proof.
  intros HP Hfs. unfold rank_all, all_entries.
  induction Hfs as [|[k es] rest Hes Hrest IH]; [apply Forall_nil_2|].
  cbn [map]. apply Forall_cons. split; [|done].
  by apply rank_family_Forall.
Qed.

(** ** Options: what a configuration that passed the tests satisfies *)

Lemma check_config_Ok (c c' : Config) :
  check_config c = Ok c' ->
  c' = c
  /\ (use_hashes c = true -> Text.truthy (input_dir c) = true)
  /\ (all_regions c && all_regions_with_lang c = false).
Proof.
  unfold check_config. intros E.
  repeat match type of E with
         | (if ?b then _ else _) = _ => destruct b eqn:?; [discriminate|]
         end.
  injection E as <-. split; [done|]. split; [|done].
  intros Hh. rewrite Hh, andb_true_r in *.
  by destruct (Text.truthy (input_dir c)).
Qed.

Lemma configure_Ok `{Env} (opts : list (string * string)) (s : Settings) :
  configure opts = Ok s ->
  exists c, read_opts defaults opts = Ok c /\ check_config c = Ok (config s).
Proof.
  unfold configure. intros E.
  destruct (read_opts defaults opts) as [c|]; [|done]. simpl in E.
  destruct (check_config c) as [c'|] eqn:Ec; [|done]. simpl in E.
  repeat match type of E with
         | res_bind ?x _ = _ => destruct x; [simpl in E | done]
         end.
  injection E as <-. by exists c.
Qed.

Lemma check_opt_no_KeyError `{Env} (opt arg : string) :
  no_KeyError (check_opt opt arg).
Proof.
  intros k. unfold check_opt, exit_unless. repeat case_match; done.
Qed.

Lemma read_opts_no_KeyError `{Env} (opts : list (string * string)) :
  forall c, no_KeyError (read_opts c opts).
Proof.
  induction opts as [|[opt arg] rest IH]; intros c; [done|].
  cbn [read_opts]. apply no_KeyError_bind; [apply check_opt_no_KeyError|].
  intros _ _. apply IH.
Qed.

Lemma configure_no_KeyError `{Env} (opts : list (string * string)) :
  no_KeyError (configure opts).
Proof.
  unfold configure.
  apply no_KeyError_bind; [apply read_opts_no_KeyError|]. intros c _.
  apply no_KeyError_bind.
  { intros k. unfold check_config. repeat case_match; done. }
  intros c' _.
  assert (forall str, no_KeyError (parsed_list c' str)) as Hl.
  { intros str k. unfold parsed_list. repeat case_match; done. }
  repeat (apply no_KeyError_bind; [apply Hl|]; intros ? _). done.
Qed.

Lemma worker_safe_bind {A B : Type} (m : Worker A) (f : A -> Worker B) :
  worker_safe m -> (forall a, worker_safe (f a)) -> worker_safe (bind m f).
Proof.
  intros Hm Hf t k. unfold bind.
  destruct (m t) as [[a|e] t'] eqn:E; [apply Hf|].
  intros [= ->]. apply (Hm t k). by rewrite E.
Qed.

Lemma worker_safe_ret {A : Type} (a : A) : worker_safe (ret a).
Proof. done. Qed.

Section Safe.

Context `{Hashlib} `{Repository}.
Variable QUIT : nat -> bool.

Lemma compute_hash_safe (f : stream) : worker_safe (compute_hash QUIT f).
Proof.
  unfold compute_hash. apply worker_safe_bind; [|intros; apply worker_safe_ret].
  generalize (S (S (length f))) as fuel, sha1 as h. intros fuel. revert f.
  induction fuel as [|fuel IH]; intros f h; [done|].
  cbn [compute_hash_loop]. apply worker_safe_bind; [done|].
  intros [|]; [apply worker_safe_ret|].
  destruct (read f) as [[|x chunk] f'].
  - apply worker_safe_bind; [done|].
    intros [|]; cbn [negb]; [apply IH | apply worker_safe_ret].
  - apply IH.
Qed.

Lemma process_with_progress_safe (fd : FileData) :
  worker_safe (process_with_progress QUIT fd).
Proof.
  assert (forall p ms r, worker_safe (hash_members QUIT p ms r)) as Hm.
  { intros p ms. induction ms as [|[n m] rest IH]; intros r;
      [apply worker_safe_ret|].
    cbn [hash_members]. apply worker_safe_bind; [done|].
    intros [|]; cbn [negb]; [apply IH|].
    destruct m as [f| |fl]; [|apply worker_safe_ret|by destruct fl].
    apply worker_safe_bind; [apply compute_hash_safe|]. intros; apply IH. }
  unfold process_with_progress. apply worker_safe_bind; [done|].
  intros [|]; [apply worker_safe_ret|].
  apply worker_safe_bind.
  - unfold process_file. apply worker_safe_bind.
    + destruct (is_zip (path fd)); [|apply worker_safe_ret].
      destruct (zip_members (path fd)) as [ms| |fl];
        [apply Hm | apply worker_safe_ret | by destruct fl].
    + intros r. destruct (open_rb (path fd)); [|apply worker_safe_ret].
      apply worker_safe_bind; [apply compute_hash_safe|]. intros d.
      repeat case_match; apply worker_safe_ret.
  - intros r. apply worker_safe_bind; [done|].
    intros [|]; apply worker_safe_ret.
Qed.

Lemma pool_map_safe (files_data : list FileData) :
  worker_safe (pool_map QUIT files_data).
Proof.
  induction files_data as [|fd rest IH]; [apply worker_safe_ret|].
  cbn [pool_map]. apply worker_safe_bind; [apply process_with_progress_safe|].
  intros r. apply worker_safe_bind; [apply IH|]. intros; apply worker_safe_ret.
Qed.

Lemma declare_games_no_KeyError (root : list Dat.game) :
  forall result, no_KeyError (declare_games result root).
Proof.
  assert (forall roms result, no_KeyError (declare_roms result roms)) as Hr.
  { induction roms as [|rom rest IH]; intros result; [done|].
    cbn [declare_roms]. destruct (Dat.sha1 rom); [apply IH | done]. }
  induction root as [|game rest IH]; intros result; [done|].
  cbn [declare_games]. apply no_KeyError_bind; [apply Hr|]. intros; apply IH.
Qed.

Lemma index_files_no_KeyError (threads : option Z) (walked : listing)
  (root : list Dat.game) (t : nat) :
  no_KeyError (index_files QUIT threads walked root t).
Proof.
  intros k. unfold index_files.
  pose proof (declare_games_no_KeyError root ∅ k) as Hd.
  destruct (declare_games ∅ root) as [result|e]; [|congruence].
  destruct (sort_by_size (files_data_of walked)) as [|fd rest]; [done|].
  destruct (no_threads threads); [done|].
  pose proof (pool_map_safe (fd :: rest) t k) as Hp.
  destruct (pool_map QUIT (fd :: rest) t) as [[rs|e] t']; [done|].
  cbn [fst] in Hp. congruence.
Qed.

End Safe.

Lemma all_entries_impl (P Q : Entry.t -> Prop) (fs : families) :
  (forall e, P e -> Q e) -> all_entries P fs -> all_entries Q fs.
Proof.
  intros HPQ Hfs. unfold all_entries in *.
  eapply Forall_impl; [exact Hfs|]. intros family Hf. simpl in *.
  eapply Forall_impl; [exact Hf | exact HPQ].
Qed.

Lemma from_catalogue_on_roms (root : list Dat.game) :
  on_roms (from_catalogue root).
Proof. intros e e' Er (game & Hg & Hr). exists game. by rewrite <- Er. Qed.

(** C10: the index returned by [index_files] has a key for the lower-case
    SHA1 digest of every ROM of the catalogue, with the empty path when no
    worker came back with the digest; and the program never ends in the
    [KeyError] of the lookup in the selection loop. *)
Theorem digest_lookup_never_fails `{Env} `{Hashlib} `{Repository}
  (QUIT : nat -> bool) (walked : listing) (root : list Dat.game) :
  (forall threads t index t' game rom d,
      index_files QUIT threads walked root t = Ok (index, t') ->
      game ∈ root -> rom ∈ Dat.roms game -> Dat.sha1 rom = Some d ->
      is_Some (index !! Text.lower d)
      /\ forall rs,
           pool_map QUIT (sort_by_size (files_data_of walked)) t
           = (Ok rs, t') ->
           (forall r p, r ∈ rs -> (Text.lower d, p) ∉ r) ->
           index !! Text.lower d = Some "")
  /\ forall opts answer k,
       main QUIT opts root walked answer <> Raise (KeyError k).
Proof.
  split.
  - intros threads t index t' game rom d E Hg Hr Hd.
    apply (declared_digests_indexed QUIT threads walked root t index t');
      [done|].
    by exists game, rom, d.
  - intros opts answer. change (no_KeyError (main QUIT opts root walked answer)).
    unfold main. apply no_KeyError_bind; [apply configure_no_KeyError|].
    intros s Es. unfold process. apply no_KeyError_bind.
    { intros k. unfold validate_dat. repeat case_match; done. }
    intros _ _.
    apply configure_Ok in Es as (c & _ & Ec).
    apply check_config_Ok in Ec as (Ec & Hdir & _). rewrite <- Ec in Hdir.
    pose proof (parse_games_from_catalogue root (NO_WARNING (config s))
                  (filters (config s)) (exclude_list s) root
                  {| games := []; registry := COUNTRY_REGION_CORRELATION;
                     stderr := [] |} 0%nat (fun g Hin => Hin)
                  (Forall_nil_2 _)) as Hparsed.
    apply (rank_all_entries _ s _ (from_catalogue_on_roms root)) in Hparsed.
    apply no_KeyError_bind.
    { intros k. unfold hash_index_of. case_match; [|done].
      pose proof (index_files_no_KeyError QUIT (THREADS (config s)) walked
                    root 0%nat k) as Hi.
      destruct (index_files QUIT (THREADS (config s)) walked root 0);
        [by case_match | congruence]. }
    intros index Ei. apply select_all_no_KeyError. intros Hh.
    unfold hash_index_of in Ei. rewrite Hh, (Hdir Hh) in Ei. cbn [andb] in Ei.
    destruct (index_files QUIT (THREADS (config s)) walked root 0)
      as [[index' t']|e] eqn:E; [|done].
    injection Ei as ->.
    eapply all_entries_impl; [|exact Hparsed].
    intros e (game & Hg & Hr) rom d Hin Hd. rewrite Hr in Hin.
    apply (declared_digests_indexed QUIT (THREADS (config s)) walked root
             0%nat index t'); [done|].
    by exists game, rom, d.
Qed.

(** ** The selector: exclusion after the selection *)

Lemma walk_passed_over `{Env} (s : Settings) (index : gmap string string)
  (game : string) (x : Entry.t) (rest : list Entry.t) (out : list event) :
  rest <> [] ->
  try_candidate s index game x false = Ok (Next out) ->
  walk s index game (x :: rest)
  = match walk s index game rest with
    | Raise e => Raise e
    | Ok w => Ok {| events := out ++ events w; selected := selected w |}
    end.
Proof.
  intros Hne Ht. cbn [walk]. rewrite bool_decide_eq_false_2 by done.
  by rewrite Ht.
Qed.




(** With [--all-regions] the filter removes nothing: the walk of the same
    family reaches [Game (Japan)] first and nothing is selected. *)
Example top_ranked_excluded_with_all_regions :
  selections
    (@main example_env example_hashlib example_repository never
       [("-d", "x.dat"); ("-r", "USA"); ("--exclude-after", "Japan");
        ("--all-regions", "")]
       japan_first [] "")
  = Some [None].
Proof. vm_compute. reflexivity. Qed.

(** ** The selector: hash-based resolution *)

Lemma warnings_app (a b : list event) :
  warnings (a ++ b) = warnings a ++ warnings b.
Proof. unfold warnings. apply omap_app. Qed.

Lemma missing_roms_nil (s : Settings) (index : gmap string string)
  (game : string) (entry : Entry.t) :
  missing_roms s index game entry [] = [].
Proof.
  unfold missing_roms, missing_warnings. by destruct (NO_WARNING (config s)).
Qed.

Lemma missing_roms_cons (s : Settings) (index : gmap string string)
  (game : string) (entry : Entry.t) (rom : Dat.rom) (rest : list Dat.rom) :
  missing_roms s index game entry (rom :: rest)
  = (if rom_resolves index rom then []
     else rom_not_found s game (Dat.rom_name rom) (Entry.name entry))
    ++ missing_roms s index game entry rest.
Proof.
  unfold missing_roms, missing_warnings, rom_not_found.
  destruct (NO_WARNING (config s)); [by destruct (rom_resolves index rom)|].
  rewrite filter_cons.
  destruct (rom_resolves index rom);
    [by rewrite decide_False | by rewrite decide_True].
Qed.

Lemma warnings_missing_roms (s : Settings) (index : gmap string string)
  (game : string) (entry : Entry.t) (roms : list Dat.rom) :
  warnings (missing_roms s index game entry roms)
  = missing_warnings s index game entry roms.
Proof.
  unfold missing_roms. induction (missing_warnings _ _ _ _ _) as [|w ws IH];
    [done|]. cbn. by f_equal.
Qed.

Lemma resolve_roms_spec (s : Settings) (index : gmap string string)
  (game : string) (entry : Entry.t) (roms : list Dat.rom) :
  Forall (fun rom => is_Some (rom_path index rom)) roms ->
  forall copied out,
  exists copied' out',
    resolve_roms s index game entry roms copied out = Ok (copied', out')
    /\ warnings out'
       = warnings out ++ warnings (missing_roms s index game entry roms)
    /\ (copied' = ∅ <-> copied = ∅ /\ existsb (rom_resolves index) roms = false)
    /\ (existsb (rom_resolves index) roms = false ->
        out' = out ++ missing_roms s index game entry roms).
Proof.
  induction 1 as [|rom rest [p Hp] Hrest IH]; intros copied out.
  - exists copied, out. split; [done|].
    rewrite missing_roms_nil, !app_nil_r.
    split; [done|]. split; [tauto|done].
  - assert (rom_resolves index rom = Text.truthy p) as Er.
    { unfold rom_resolves. by rewrite Hp. }
    cbn [resolve_roms existsb]. rewrite missing_roms_cons, Er.
    unfold rom_path in Hp.
    destruct (Dat.sha1 rom) as [d|]; [|done]. rewrite Hp.
    destruct (Text.truthy p) eqn:Etr; cbn [orb app].
    + destruct (bool_decide (p ∈ copied)) eqn:Ein.
      { apply bool_decide_eq_true in Ein.
        destruct (IH copied out) as (c' & o' & E & Hw & Hc & _).
        exists c', o'. split; [done|]. split; [done|].
        split; [|done]. split; [|intros [_ [=]]].
        intros Hc'. apply Hc in Hc' as [-> _]. set_solver. }
      destruct (Text.truthy (output_dir (config s))); cbn [negb].
      * match goal with
        | |- context [resolve_roms _ _ _ _ _ ?c ?o] =>
            destruct (IH c o) as (c' & o' & E & Hw & Hc & _)
        end.
        exists c', o'. split; [done|]. split.
        { rewrite Hw, !warnings_app. f_equal.
          destruct (negb (is_zip p) && _); cbn; by rewrite app_nil_r. }
        split; [|done]. split; [|intros [_ [=]]].
        intros Hc'. destruct (proj1 Hc Hc') as [Hcc _]. clear -Hcc.
        set_solver.
      * destruct (IH ({[p]} ∪ copied) (out ++ [Stdout
                   (file_relative_to_input p (input_dir (config s)))]))
          as (c' & o' & E & Hw & Hc & _).
        exists c', o'. split; [done|]. split.
        { rewrite Hw, warnings_app. cbn. by rewrite app_nil_r. }
        split; [|done]. split; [|intros [_ [=]]].
        intros Hc'. destruct (proj1 Hc Hc') as [Hcc _]. clear -Hcc.
        set_solver.
    + destruct (IH copied (out ++ rom_not_found s game (Dat.rom_name rom)
                                   (Entry.name entry)))
        as (c' & o' & E & Hw & Hc & Ho).
      exists c', o'. split; [done|]. split.
      { rewrite Hw, !warnings_app. by rewrite app_assoc. }
      split; [done|]. intros Hn. rewrite (Ho Hn). by rewrite app_assoc.
Qed.

Lemma try_candidate_hashes `{Env} (s : Settings)
  (index : gmap string string) (game : string) (entry : Entry.t)
  (last : bool) :
  use_hashes (config s) = true ->
  check_in_pattern_list (Entry.name entry) (exclude_after s) = false ->
  Forall (fun rom => is_Some (rom_path index rom)) (Entry.roms entry) ->
  (resolves index entry = true ->
   exists out,
     try_candidate s index game entry last = Ok (Break out true)
     /\ warnings out
        = warnings (missing_roms s index game entry (Entry.roms entry)))
  /\ (resolves index entry = false ->
      try_candidate s index game entry last
      = Ok (Next (missing_roms s index game entry (Entry.roms entry)
                  ++ (if negb (NO_WARNING (config s)) && last
                      then [Warn (NoEligible game)] else [])))).
Proof.
  intros Hh Hx Hroms. unfold try_candidate, resolves. rewrite Hx, Hh.
  destruct (resolve_roms_spec s index game entry _ Hroms ∅ [])
    as (c & o & -> & Hw & Hc & Ho).
  split; intros Hr.
  - exists o. split; [|done].
    rewrite bool_decide_eq_true_2; [done|].
    intros Hc'. apply Hc in Hc' as [_ Hc']. congruence.
  - rewrite bool_decide_eq_false_2.
    + rewrite (Ho Hr). cbn [app].
      destruct (negb (NO_WARNING (config s)) && last); [done|].
      by rewrite app_nil_r.
    + intros Hc'. apply Hc'. by apply Hc.
Qed.

Lemma walk_unresolved `{Env} (s : Settings) (index : gmap string string)
  (game : string) (entries : list Entry.t) :
  use_hashes (config s) = true ->
  Forall (unresolved s index) entries ->
  entries <> [] ->
  walk s index game entries
  = Ok {| events :=
            flat_map (fun e => missing_roms s index game e (Entry.roms e))
              entries
            ++ (if NO_WARNING (config s) then []
                else [Warn (NoEligible game)]);
          selected := None |}.
Proof.
  intros Hh Hall. induction Hall as [|e rest (Hx & Hroms & Hr) Hrest IH];
    intros Hne; [done|].
  cbn [walk flat_map].
  destruct (try_candidate_hashes s index game e (bool_decide (rest = []))
              Hh Hx Hroms) as [_ Ht].
  rewrite (Ht Hr). destruct rest as [|e' rest'].
  - rewrite bool_decide_eq_true_2 by done. rewrite andb_true_r. cbn [walk].
    cbn [flat_map events selected]. rewrite !app_nil_r.
    by destruct (NO_WARNING (config s)).
  - rewrite bool_decide_eq_false_2 by done. rewrite andb_false_r.
    rewrite IH by done. cbn [events selected]. by rewrite app_nil_r, app_assoc.
Qed.



(** With warnings on, the family of the worked input, whose one file has
    no path, gets the diagnostic for the file and the final one. *)
Example unresolved_family_warned :
  @walk example_env with_hashes nothing_found "Game"
    [plain_entry "Game (USA)" "USA" ["en"] [example_rom]]
  = Ok {| events := [Warn (RomNotFound None "game.bin" "Game (USA)");
                     Warn (NoEligible "Game")];
          selected := None |}.
Proof. vm_compute. reflexivity. Qed.


(** ** Options: mutually exclusive options *)

(** The tests for options that exclude each other and for the required
    arguments leave with status 1 -- the test itself or one before it. *)
Lemma exclusive_options_exit_one (c : Config) :
  (revision_asc c || version_asc c) && opt_input_order c = true
  \/ (revision_asc c || version_asc c) && opt_prefer_parents c = true
  \/ opt_prefer_parents c && opt_input_order c = true
  \/ Text.truthy (dat_file c) = false
  \/ selected_regions c = [] ->
  check_config c = Raise (SystemExit 1).
Proof.
  unfold check_config. intros Hc.
  destruct (_ && use_hashes c); [done|].
  destruct (_ && use_hashes c); [done|].
  destruct (negb (Text.truthy (dat_file c))) eqn:Ed; [done|].
  destruct (negb (non_empty (selected_regions c))) eqn:Er; [done|].
  destruct ((revision_asc c || version_asc c) && opt_input_order c);
    [done|].
  destruct ((revision_asc c || version_asc c) && opt_prefer_parents c);
    [done|].
  destruct (opt_prefer_parents c && opt_input_order c); [done|].
  exfalso. destruct Hc as [Hc|[Hc|[Hc|[Hc|Hc]]]]; try discriminate.
  - by rewrite Hc in Ed.
  - by rewrite Hc in Er.
Qed.

(** The test for [--all-regions] with [--all-regions-with-lang], when it
    is reached, leaves with status 0. *)
Lemma all_regions_exit (c : Config) :
  all_regions c && all_regions_with_lang c = true ->
  check_config c = Raise (SystemExit 1)
  \/ check_config c = Raise (SystemExit 0).
Proof.
  unfold check_config. intros Hc.
  repeat match goal with
         | |- (if ?b then _ else _) = _ \/ _ =>
             destruct b eqn:?; [by left|]
         end.
  rewrite Hc. by right.
Qed.

(** C7, at the failing input: with a catalogue, a region, [--all-regions]
    and [--all-regions-with-lang] the program ends before the catalogue is
    read, as the claim says, but with exit status 0. *)
Theorem all_regions_conflict_exits_with_zero :
  @configure example_env both_all_regions = Raise (SystemExit 0)
  /\ forall (Hh : Hashlib) (Hr : Repository) QUIT root walked answer,
       @main example_env Hh Hr QUIT both_all_regions root walked answer
       = Raise (SystemExit 0).
Proof.
  assert (@configure example_env both_all_regions = Raise (SystemExit 0)) as E.
  { vm_compute. reflexivity. }
  split; [done|]. intros. unfold main. by rewrite E.
Qed.

(** The sibling tests leave with status 1 at inputs of the same kind. *)
Example other_conflicts_exit_with_one :
  @configure example_env
    [("-d", "x.dat"); ("-r", "USA"); ("--early-revisions", "");
     ("--input-order", "")] = Raise (SystemExit 1)
  /\ @configure example_env
       [("-d", "x.dat"); ("-r", "USA"); ("--early-versions", "");
        ("--prefer-parents", "")] = Raise (SystemExit 1)
  /\ @configure example_env
       [("-d", "x.dat"); ("-r", "USA"); ("--prefer-parents", "");
        ("--input-order", "")] = Raise (SystemExit 1)
  /\ @configure example_env [("-r", "USA")] = Raise (SystemExit 1)
  /\ @configure example_env [("-d", "x.dat")] = Raise (SystemExit 1).
Proof. repeat split; vm_compute; reflexivity. Qed.

(** ** Text taken literally as a pattern *)

Lemma chars_str (l : list ascii) : Text.chars (Text.str l) = l.
Proof. apply list_ascii_of_string_of_list_ascii. Qed.

Lemma chars_folded (ic : bool) (s : string) :
  Text.chars (folded ic s) = map (fold_char ic) (Text.chars s).
Proof.
  unfold folded, fold_char. destruct ic.
  - unfold Text.lower. by rewrite chars_str.
  - by rewrite map_id.
Qed.

Lemma run_literal (ic : bool) (l : list ascii) :
  forall (s : list ascii) (c : Re.caps) (k : Re.cont),
    Re.run (literal ic l) s c k
    = if Text.starts_with_chars (map (fold_char ic) l) (map (fold_char ic) s)
      then k (drop (length l) s) c else None.
Proof.
  induction l as [|a l IH]; intros s c k; [done|].
  cbn [literal fold_right Re.run Re.chr]. fold (literal ic l).
  destruct s as [|x s]; [done|].
  cbn [map Text.starts_with_chars length drop].
  unfold Text.char_eqb, fold_char.
  rewrite (Ascii.eqb_sym (if ic then Text.lower_char a else a)).
  destruct ic.
  - destruct (Ascii.eqb _ _); [apply IH | done].
  - destruct (Ascii.eqb _ _); [apply IH | done].
Qed.

Lemma search_literal (ic : bool) (l s : list ascii) :
  is_Some (Re.search_chars (literal ic l) s)
  <-> Text.contains_chars (map (fold_char ic) l) (map (fold_char ic) s)
      = true.
Proof.
  induction s as [|x s IH];
    cbn [Re.search_chars Text.contains_chars map]; unfold Re.match_at;
    rewrite run_literal; cbn [map];
    destruct (Text.starts_with_chars _ _); cbn [fmap option_fmap option_map
                                                  orb].
  - split; [done | by eexists].
  - split; [by intros [? ?] | done].
  - split; [done | by eexists].
  - exact IH.
Qed.

Lemma search_escape (ic : bool) (x name : string) :
  is_Some (Re.search (Re.escape ic x) name)
  <-> Text.contains (folded ic x) (folded ic name) = true.
Proof.
  unfold Re.search, Re.escape, Text.contains. rewrite !chars_folded.
  apply search_literal.
Qed.

Lemma starts_with_chars_prefix (p l : list ascii) :
  Text.starts_with_chars p l = true <-> exists r, l = p ++ r.
Proof.
  revert l. induction p as [|a p IH]; intros l; cbn [Text.starts_with_chars].
  - split; [by exists l | done].
  - destruct l as [|b l].
    + split; [done | by intros [r ?]].
    + unfold Text.char_eqb. rewrite andb_true_iff, Ascii.eqb_eq, IH.
      split.
      * intros [-> [r ->]]. by exists r.
      * intros [r [= -> ->]]. split; [done | by exists r].
Qed.

(** ** The classifier: regions and candidates *)

Lemma family_of_extend (fs : families) (key : string)
  (entries : list Entry.t) :
  family_of (extend_family fs key entries) key = family_of fs key ++ entries.
Proof.
  unfold family_of. induction fs as [|[k es] rest IH]; simpl.
  - by rewrite String.eqb_refl.
  - destruct (String.eqb k key) eqn:E; simpl; rewrite E; [done | apply IH].
Qed.

Lemma str_inj (a b : list ascii) : Text.str a = Text.str b -> a = b.
Proof.
  intros E. apply (f_equal Text.chars) in E. by rewrite !chars_str in E.
Qed.

Lemma lower_eqb (token n : string) :
  String.eqb (Text.lower token) (Text.lower n)
  = bool_decide (map Text.lower_char (Text.chars token)
                 = map Text.lower_char (Text.chars n)).
Proof.
  unfold Text.lower. destruct (String.eqb _ _) eqn:E; symmetry.
  - apply bool_decide_eq_true_2. apply String.eqb_eq in E. by apply str_inj.
  - apply bool_decide_eq_false_2. intros Hm. rewrite Hm in E.
    by rewrite String.eqb_refl in E.
Qed.

(** A whole text matches a literal pattern exactly when it is the literal,
    whatever the case of the letters. *)
Lemma run_literal_whole (l s : list ascii) (c : Re.caps) (k : Re.cont) :
  (forall c0, is_Some (k [] c0)) ->
  (forall x r c0, k (x :: r) c0 = None) ->
  is_Some (Re.run (literal true l) s c k)
  <-> map Text.lower_char s = map Text.lower_char l.
Proof.
  intros Hnil Hcons.
  rewrite run_literal. change (fold_char true) with Text.lower_char.
  destruct (Text.starts_with_chars _ _) eqn:Es.
  - apply starts_with_chars_prefix in Es as [r Er].
    assert (r = map Text.lower_char (drop (length l) s)) as Hr.
    { rewrite <- skipn_map, Er.
      rewrite <- (length_map Text.lower_char l). by rewrite drop_app_length. }
    rewrite Er. destruct (drop (length l) s) as [|x rest]; cbn [map] in Hr;
      subst r.
    + rewrite app_nil_r. split; [done | intros _; apply Hnil].
    + rewrite Hcons. split; [by intros [? ?]|]. intros E.
      rewrite <- (app_nil_r (map Text.lower_char l)) in E at 2.
      by apply app_inv_head in E.
  - split; [by intros [? ?]|]. intros E.
    assert (Text.starts_with_chars (map Text.lower_char l)
              (map Text.lower_char s) = true) as Es'; [|congruence].
    apply starts_with_chars_prefix. exists []. by rewrite app_nil_r.
Qed.

Lemma fullmatch_one (a token : string) :
  bool_decide (is_Some (Re.fullmatch (region_pattern [a]) token))
  = String.eqb (Text.lower token) (Text.lower a).
Proof.
  rewrite lower_eqb. apply bool_decide_ext.
  unfold Re.fullmatch, Re.fullmatch_chars, region_pattern.
  rewrite fmap_is_Some. cbn [Re.run].
  change (Re.escape true a) with (literal true (Text.chars a)).
  apply run_literal_whole; [intros; by eexists | done].
Qed.

Lemma fullmatch_two (a b : string) (more : list string) (token : string) :
  bool_decide (is_Some (Re.fullmatch (region_pattern (a :: b :: more)) token))
  = String.eqb (Text.lower token) (Text.lower a)
    || String.eqb (Text.lower token) (Text.lower b).
Proof.
  rewrite !lower_eqb. apply eq_true_iff_eq.
  rewrite orb_true_iff, !bool_decide_eq_true.
  unfold Re.fullmatch, Re.fullmatch_chars, region_pattern.
  rewrite fmap_is_Some. cbn [Re.run].
  change (Re.escape true a) with (literal true (Text.chars a)).
  change (Re.escape true b) with (literal true (Text.chars b)).
  match goal with
  | |- is_Some (match ?A with Some x => Some x | None => ?B end) <-> _ =>
      assert (is_Some A
              <-> map Text.lower_char (Text.chars token)
                  = map Text.lower_char (Text.chars a)) as Wa
        by (apply run_literal_whole; [intros; by eexists | done]);
      assert (is_Some B
              <-> map Text.lower_char (Text.chars token)
                  = map Text.lower_char (Text.chars b)) as Wb
        by (apply run_literal_whole; [intros; by eexists | done]);
      destruct A as [x|]
  end.
  - split; [intros _; left; apply Wa; by eexists | by eexists].
  - rewrite Wb. split; [by right|]. intros [E|E]; [|done].
    apply Wa in E. by destruct E.
Qed.

Lemma pattern_fullmatch_names (c : string) (names langs : list string)
  (token : string) :
  (length names = 1 \/ length names = 2)%nat ->
  pattern_fullmatch (region_data c names langs) token
  = names_token names token.
Proof.
  unfold pattern_fullmatch, region_data, names_token. cbn [pattern].
  destruct names as [|a [|b [|d more]]]; intros [Hl|Hl]; try done;
    cbn [existsb].
  - by rewrite fullmatch_one, orb_false_r.
  - by rewrite fullmatch_two, orb_false_r.
Qed.

Lemma table_codes (token : string) :
  map code
    (filter (fun rd => pattern_fullmatch rd token = true)
       COUNTRY_REGION_CORRELATION)
  = matching_codes token.
Proof.
  change COUNTRY_REGION_CORRELATION
    with (map (fun e : string * list string * list string =>
                 region_data (fst (fst e)) (snd (fst e)) (snd e))
            region_table).
  unfold matching_codes.
  assert (Forall (fun e : string * list string * list string =>
                    (length (snd (fst e)) = 1 \/ length (snd (fst e)) = 2)%nat)
            region_table) as Hlen.
  { unfold region_table. repeat (apply Forall_cons; split; [by auto|]).
    apply Forall_nil_2. }
  induction Hlen as [|[[c names] langs] rest Hl Hrest IH]; [done|].
  cbn [map flat_map fst snd] in *. rewrite filter_cons.
  rewrite (pattern_fullmatch_names c names langs token Hl).
  destruct (names_token names token).
  - rewrite decide_True by done. cbn [map app code region_data]. by f_equal.
  - by rewrite decide_False.
Qed.

Lemma filter_no_pattern (extra : list RegionData) (token : string) :
  Forall (fun rd => pattern rd = None) extra ->
  filter (fun rd => pattern_fullmatch rd token = true) extra = [].
Proof.
  induction 1 as [|rd rest Hrd Hrest IH]; [done|].
  rewrite filter_cons, decide_False; [done|].
  unfold pattern_fullmatch. by rewrite Hrd.
Qed.

Lemma parse_region_data_codes (registry : list RegionData) (name : string) :
  grown registry ->
  map code (parse_region_data registry name)
  = flat_map matching_codes (tokens name).
Proof.
  intros (extra & -> & Hextra). unfold parse_region_data, tokens.
  induction (Re.finditer sections_regex name) as [|m ms IH]; [done|].
  cbn [flat_map]. rewrite map_app, flat_map_app, IH. f_equal.
  induction (map Text.strip _) as [|token ts IHt]; [done|].
  cbn [flat_map]. rewrite map_app, IHt. f_equal.
  by rewrite filter_app, (filter_no_pattern extra), app_nil_r, table_codes.
Qed.

Lemma is_present_codes (c : string) (rds : list RegionData) :
  is_present c rds = bool_decide (c ∈ map code rds).
Proof.
  unfold is_present. induction rds as [|r rest IH]; [done|].
  cbn [existsb map]. rewrite IH.
  destruct (String.eqb (code r) c) eqn:E.
  - apply String.eqb_eq in E. symmetry. apply bool_decide_eq_true_2.
    apply elem_of_cons. by left.
  - apply String.eqb_neq in E. cbn [orb]. apply bool_decide_ext.
    rewrite elem_of_cons. split; [by right | by intros [->|]].
Qed.

Lemma get_region_data_grows (no_warning : bool) (registry : list RegionData)
  (c : string) :
  let '(r, registry', _) := get_region_data no_warning registry c in
  code r = (if Text.truthy c then Text.upper c else c)
  /\ (grown registry -> grown registry').
Proof.
  unfold get_region_data, find_region.
  destruct (find _ registry) as [r|] eqn:E.
  - apply find_some in E as [_ E]. apply String.eqb_eq in E. by split.
  - split; [done|]. intros (extra & -> & Hextra).
    eexists (extra ++ [_]). rewrite app_assoc. split; [done|].
    apply Forall_app. split; [done|]. by apply Forall_singleton.
Qed.

Lemma add_release_regions_codes (no_warning : bool)
  (rels : list Dat.release) :
  forall region_data registry out,
    let '(region_data', registry', _) :=
      add_release_regions no_warning rels region_data registry out in
    map code region_data'
    = map code region_data ++ release_codes (map code region_data) rels
    /\ (grown registry -> grown registry').
Proof.
  induction rels as [|rel rest IH]; intros region_data registry out.
  - cbn [add_release_regions release_codes]. by rewrite app_nil_r.
  - cbn [add_release_regions release_codes].
    destruct (Dat.region rel) as [c|]; [|apply IH].
    rewrite is_present_codes.
    destruct (Text.truthy c) eqn:Et; cbn [andb]; [|apply IH].
    destruct (bool_decide (c ∈ map code region_data)); cbn [negb]; [apply IH|].
    pose proof (get_region_data_grows no_warning registry c) as G.
    destruct (get_region_data no_warning registry c) as [[r registry'] w].
    rewrite Et in G. destruct G as [Hc Hg].
    specialize (IH (region_data ++ [r]) registry' (out ++ w)).
    destruct (add_release_regions _ _ _ _ _) as [[rd' reg'] o'].
    destruct IH as [IH Hg']. split; [|by auto].
    rewrite IH, map_app. cbn [map]. rewrite Hc, <- app_assoc. done.
Qed.


Lemma grown_fresh : grown (registry fresh).
Proof. exists []. split; [by rewrite app_nil_r | apply Forall_nil_2]. Qed.

(** Reading a catalogue from the table of the program keeps the table in
    this shape, item after item. *)
Lemma parse_games_grown (no_warning : bool) (table : list RegionData)
  (root : list Dat.game) (f : Filters) (exclude : list Re.regex) :
  grown table ->
  grown (registry (parse_games no_warning table root f exclude)).
Proof.
  unfold parse_games.
  enough (forall st i, grown (registry st) ->
            grown (registry
                     (parse_games_from no_warning f exclude st i root))) as E.
  { intros Ht. by apply E. }
  induction root as [|g rest IH]; intros st i Hst; [done|].
  cbn [parse_games_from]. apply IH. unfold parse_game.
  destruct (filtered_out f exclude (Dat.name g)); [done|].
  unfold game_regions.
  pose proof (add_release_regions_codes no_warning (Dat.releases g)
                (parse_region_data (registry st) (Dat.name g))
                (registry st) []) as Hr.
  destruct (add_release_regions _ _ _ _ _) as [[region_data registry'] w].
  destruct Hr as [_ Hg]. by apply Hg.
Qed.


(** A token may match several region entries; the match is on the whole
    token and ignores case. *)
Example world_matches_three_regions :
  map code (parse_region_data COUNTRY_REGION_CORRELATION "Game (World)")
  = ["EUR"; "JPN"; "USA"]
  /\ map code (parse_region_data COUNTRY_REGION_CORRELATION "Game (world)")
     = ["EUR"; "JPN"; "USA"]
  /\ map code (parse_region_data COUNTRY_REGION_CORRELATION "Game (Worlds)")
     = []
  /\ map code
       (parse_region_data COUNTRY_REGION_CORRELATION "Game (USA, Europe)")
     = ["USA"; "EUR"]
  /\ map Entry.region
       (family_of
          (games (parse_game false no_filters [] fresh 0%nat
                    (named "Game (World)")))
          "Game (World)")
     = ["EUR"; "JPN"; "USA"].
Proof. repeat split; vm_compute; reflexivity. Qed.

(** A release adds its region when the code, as it is written, is not
    among the codes collected so far: the code [usa] of two releases is
    compared with [USA] and added both times, in upper case; written
    [USA], it adds nothing. *)
Example lower_case_release_code_is_added :
  map Entry.region
    (family_of (games (parse_game false no_filters [] fresh 0%nat
                         released_twice)) "Game (USA)")
  = ["USA"; "USA"; "USA"]
  /\ tokens "Game (USA)" = ["USA"]
  /\ matching_codes "USA" = ["USA"]
  /\ matching_codes "world" = ["EUR"; "JPN"; "USA"]
  /\ matching_codes "Worlds" = []
  /\ release_codes ["USA"] (Dat.releases released_twice) = ["USA"; "USA"]
  /\ release_codes ["USA"] [ {| Dat.region := Some "USA" |} ] = [].
Proof. repeat split; vm_compute; reflexivity. Qed.


(** ** The scorer: padding and numeric order *)

Lemma digit_code (c : ascii) :
  Text.is_digit c = true -> 0 <= Text.code c - 48 <= 9.
Proof.
  unfold Text.is_digit. intros Hc. apply andb_true_iff in Hc as [H1 H2].
  apply Z.leb_le in H1, H2. lia.
Qed.

Lemma value_bounds (d : list ascii) :
  digits d -> 0 <= value d < 10 ^ Z.of_nat (length d).
Proof.
  induction 1 as [|c r Hc Hr IH]; [simpl; lia|].
  cbn [value length]. apply digit_code in Hc.
  rewrite Nat2Z.inj_succ, Z.pow_succ_r by lia. nia.
Qed.

Lemma compare_vec_refl (u : list Z) : compare_vec u u = Eq.
Proof. induction u as [|x u IH]; [done|]. simpl. by rewrite Z.compare_refl. Qed.

(** Two runs of digits of one length compare as the numbers they denote,
    whatever follows them. *)
Lemma compare_block (x : list ascii) :
  forall (y : list ascii) (r1 r2 : list Z),
    digits x -> digits y -> length x = length y ->
    compare_vec (map Text.code x ++ r1) (map Text.code y ++ r2)
    = match value x ?= value y with
      | Eq => compare_vec r1 r2
      | c => c
      end.
Proof.
  induction x as [|c x IH]; intros [|d y] r1 r2 Hx Hy Hl; try done.
  apply Forall_cons in Hx as [Hc Hx]. apply Forall_cons in Hy as [Hd Hy].
  injection Hl as Hl.
  pose proof (value_bounds x Hx) as Bx. pose proof (value_bounds y Hy) as By.
  apply digit_code in Hc, Hd.
  cbn [map app compare_vec value]. rewrite Hl in *.
  set (p := 10 ^ Z.of_nat (length y)) in *.
  destruct (Z.compare_spec (Text.code c) (Text.code d)) as [E|E|E].
  - rewrite IH by done. rewrite E.
    by rewrite Z.add_compare_mono_l.
  - assert ((Text.code c - 48) * p + value x < (Text.code d - 48) * p + value y)
      as Hlt by nia.
    apply Z.compare_lt_iff in Hlt. by rewrite Hlt.
  - assert ((Text.code d - 48) * p + value y < (Text.code c - 48) * p + value x)
      as Hgt by nia.
    apply Z.compare_gt_iff in Hgt. by rewrite Hgt.
Qed.

Lemma digits_zeros (w : nat) : digits (replicate w zero).
Proof. apply Forall_replicate. reflexivity. Qed.

Lemma value_zeros (w : nat) (d : list ascii) :
  value (replicate w zero ++ d) = value d.
Proof. induction w as [|w IH]; [done|]. cbn [replicate app value]. by rewrite IH. Qed.

Lemma digits_zfill (w : nat) (d : list ascii) : digits d -> digits (zfill w d).
Proof. intros Hd. apply Forall_app. split; [apply digits_zeros | done]. Qed.

Lemma value_zfill (w : nat) (d : list ascii) : value (zfill w d) = value d.
Proof. apply value_zeros. Qed.

Lemma length_zfill (w : nat) (d : list ascii) :
  (length d <= w)%nat -> length (zfill w d) = w.
Proof.
  intros Hl. unfold zfill. rewrite length_app, length_replicate. lia.
Qed.

(** The tokens of a dotted tag. *)
Lemma tokenize_field (f : list ascii) :
  digits f -> f <> [] ->
  forall rest,
    match rest with
    | [] => True
    | c :: _ => Text.is_digit c = false
    end ->
    tokenize (f ++ rest) = Num f :: tokenize rest.
Proof.
  induction 1 as [|c f Hc Hf IH]; intros Hne rest Hrest; [done|].
  cbn [app tokenize]. rewrite Hc. destruct f as [|c' f'].
  - cbn [app]. destruct rest as [|r rest']; [done|].
    cbn [tokenize]. by rewrite Hrest.
  - by rewrite IH.
Qed.

Lemma tokenize_dotted (f : list ascii) (fs : list (list ascii)) :
  numeric (f :: fs) ->
  tokenize (dotted (f :: fs)) = Num f :: tokens_after fs.
Proof.
  revert f. induction fs as [|g fs IH]; intros f [_ Hn];
    apply Forall_cons in Hn as [[Hne Hd] Hn].
  - cbn [dotted tokens_after]. rewrite <- (app_nil_r f) at 1.
    by rewrite tokenize_field.
  - change (dotted (f :: g :: fs)) with (f ++ "."%char :: dotted (g :: fs)).
    rewrite tokenize_field by done.
    cbn [tokenize tokens_after]. change (Text.is_digit ".") with false.
    cbn match. by rewrite IH.
Qed.

Lemma field_widths_after (fs : list (list ascii)) :
  field_widths (tokens_after fs) = map length fs.
Proof. induction fs as [|f fs IH]; [done|]. cbn. by rewrite IH. Qed.

Lemma render_after (fs : list (list ascii)) :
  forall ws, render ws (tokens_after fs) = tail_blocks ws fs.
Proof.
  induction fs as [|f fs IH]; intros ws; [done|].
  cbn [tokens_after render tail_blocks]. destruct ws; by rewrite IH.
Qed.

(** The widths of the family are enough for each of its tags. *)
Lemma covers_refl (l : list nat) : covers l l.
Proof. induction l; simpl; auto. Qed.

Lemma covers_max_l (ws ws' l : list nat) :
  covers ws l -> covers (max_widths ws ws') l.
Proof.
  revert ws ws'. induction l as [|n l IH]; intros ws ws' Hc; [exact I|].
  destruct ws as [|w ws]; [done|]. destruct Hc as [Hn Hc].
  destruct ws' as [|w' ws']; cbn; [done|]. split; [lia | by apply IH].
Qed.

Lemma covers_max_r (ws ws' l : list nat) :
  covers ws' l -> covers (max_widths ws ws') l.
Proof.
  revert ws ws'. induction l as [|n l IH]; intros ws ws' Hc; [exact I|].
  destruct ws' as [|w' ws']; [done|]. destruct Hc as [Hn Hc].
  destruct ws as [|w ws]; cbn; [done|]. split; [lia | by apply IH].
Qed.

Lemma family_widths_covers (strings : list string) (s : string) :
  s ∈ strings ->
  covers (family_widths strings) (field_widths (tokenize (Text.chars s))).
Proof.
  unfold family_widths. induction strings as [|s' rest IH]; intros Hin.
  - by apply elem_of_nil in Hin.
  - cbn [map fold_right]. apply elem_of_cons in Hin as [->|Hin].
    + apply covers_max_l, covers_refl.
    + by apply covers_max_r, IH.
Qed.

Lemma length_tail_blocks (ws : list nat) :
  forall fs,
    covers ws (map length fs) ->
    length (tail_blocks ws fs) = length (tail_blocks ws []).
Proof.
  induction ws as [|w ws IH]; intros [|f fs] Hc; try done.
  destruct Hc as [Hw Hc].
  change (tail_blocks (w :: ws) (f :: fs))
    with ("."%char :: zfill w f ++ tail_blocks ws fs).
  change (tail_blocks (w :: ws) [])
    with ("."%char :: replicate w zero ++ tail_blocks ws []).
  cbn [length]. rewrite !length_app, length_zfill, length_replicate by done.
  by rewrite (IH fs Hc).
Qed.

(** Written out under the same widths, two numeric tags compare, character
    by character, as their fields compare as numbers. *)
Lemma compare_tail_blocks (ws : list nat) :
  forall fa fb,
    Forall digits fa -> Forall digits fb ->
    covers ws (map length fa) -> covers ws (map length fb) ->
    compare_vec (map Text.code (tail_blocks ws fa))
      (map Text.code (tail_blocks ws fb))
    = compare_numeric (map value fa) (map value fb).
Proof.
  induction ws as [|w ws IH]; intros fa fb Ha Hb Ca Cb.
  - destruct fa; [|done]. destruct fb; [|done]. done.
  - destruct fa as [|f fa], fb as [|g fb].
    + apply compare_vec_refl.
    + apply Forall_cons in Hb as [Hg Hb]. destruct Cb as [Wg Cb].
      cbn [tail_blocks flat_map map app compare_vec].
      rewrite Z.compare_refl, !map_app.
      rewrite compare_block;
        [|apply digits_zeros | by apply digits_zfill
         |by rewrite length_zfill, length_replicate].
      rewrite value_zfill, <- (app_nil_r (replicate w zero)), value_zeros.
      change (value []) with 0. cbn [compare_numeric zero_against].
      destruct (0 ?= value g); [|done..].
      apply (IH [] fb); done.
    + apply Forall_cons in Ha as [Hf Ha]. destruct Ca as [Wf Ca].
      cbn [tail_blocks flat_map map app compare_vec].
      rewrite Z.compare_refl, !map_app.
      rewrite compare_block;
        [|by apply digits_zfill | apply digits_zeros
         |by rewrite length_zfill, length_replicate].
      rewrite value_zfill, <- (app_nil_r (replicate w zero)), value_zeros.
      change (value []) with 0. cbn [compare_numeric].
      destruct (value f ?= 0); [|done..].
      apply (IH fa []); done.
    + apply Forall_cons in Ha as [Hf Ha]. destruct Ca as [Wf Ca].
      apply Forall_cons in Hb as [Hg Hb]. destruct Cb as [Wg Cb].
      cbn [tail_blocks map app compare_vec].
      rewrite Z.compare_refl, !map_app.
      rewrite compare_block;
        [|by apply digits_zfill..|by rewrite !length_zfill].
      rewrite !value_zfill. cbn [compare_numeric].
      destruct (value f ?= value g); [|done..].
      by apply IH.
Qed.

Lemma compare_vec_opposite (u : list Z) :
  forall v, length u = length v ->
    compare_vec (map (Z.mul (-1)) u) (map (Z.mul (-1)) v)
    = CompOpp (compare_vec u v).
Proof.
  induction u as [|x u IH]; intros [|y v] Hl; try done.
  injection Hl as Hl. cbn [map compare_vec].
  destruct (Z.compare_spec x y) as [E|E|E].
  - subst. rewrite Z.compare_refl. by apply IH.
  - assert (-1 * y < -1 * x) as Hgt by lia.
    apply Z.compare_gt_iff in Hgt. by rewrite Hgt.
  - assert (-1 * x < -1 * y) as Hlt by lia.
    apply Z.compare_lt_iff in Hlt. by rewrite Hlt.
Qed.

(** A numeric tag of the family, written out under the widths of the
    family. *)
Lemma render_numeric (ws : list nat) (f : list ascii)
  (fs : list (list ascii)) (w : nat) (ws' : list nat) :
  numeric (f :: fs) -> ws = w :: ws' ->
  render ws (tokenize (dotted (f :: fs))) = zfill w f ++ tail_blocks ws' fs.
Proof.
  intros Hn ->. rewrite tokenize_dotted by done.
  cbn [render]. by rewrite render_after.
Qed.

Lemma compare_rendered (ws : list nat) (fa fb : list (list ascii)) (m : Z) :
  numeric fa -> numeric fb ->
  covers ws (field_widths (tokenize (dotted fa))) ->
  covers ws (field_widths (tokenize (dotted fb))) ->
  m = 1 \/ m = -1 ->
  compare_vec
    (map (fun c => m * Text.code c) (render ws (tokenize (dotted fa))))
    (map (fun c => m * Text.code c) (render ws (tokenize (dotted fb))))
  = if m =? 1 then compare_numeric (map value fa) (map value fb)
    else CompOpp (compare_numeric (map value fa) (map value fb)).
Proof.
  intros Ha Hb Ca Cb Hm.
  destruct fa as [|f fa]; [by destruct Ha|].
  destruct fb as [|g fb]; [by destruct Hb|].
  rewrite tokenize_dotted in Ca, Cb by done.
  cbn [field_widths] in Ca, Cb. rewrite field_widths_after in Ca, Cb.
  destruct ws as [|w ws]; [done|].
  destruct Ca as [Wf Ca], Cb as [Wg Cb].
  rewrite (render_numeric _ f fa w ws), (render_numeric _ g fb w ws) by done.
  pose proof Ha as [_ Ha']. pose proof Hb as [_ Hb'].
  apply Forall_cons in Ha' as [[_ Hf] Ha'].
  apply Forall_cons in Hb' as [[_ Hg] Hb'].
  assert (Forall digits fa) as Da.
  { eapply Forall_impl; [exact Ha'|]. by intros ? [_ ?]. }
  assert (Forall digits fb) as Db.
  { eapply Forall_impl; [exact Hb'|]. by intros ? [_ ?]. }
  assert (compare_vec (map Text.code (zfill w f ++ tail_blocks ws fa))
            (map Text.code (zfill w g ++ tail_blocks ws fb))
          = compare_numeric (map value (f :: fa)) (map value (g :: fb))) as E.
  { rewrite !map_app.
    rewrite compare_block;
      [|by apply digits_zfill..|by rewrite !length_zfill].
    rewrite !value_zfill. cbn [map compare_numeric].
    destruct (value f ?= value g); [|done..].
    by apply compare_tail_blocks. }
  destruct Hm as [-> | ->]; cbn [Z.eqb Pos.eqb].
  - rewrite <- E. f_equal; apply map_ext; intros c; lia.
  - rewrite <- E.
    rewrite <- compare_vec_opposite, !map_map by
      (rewrite !length_map, !length_app, !length_zfill,
         (length_tail_blocks ws fa), (length_tail_blocks ws fb) by done; done).
    done.
Qed.

Lemma write_back_map (set_function : Entry.t -> string -> Entry.t)
  (get_function : Entry.t -> string) (F : string -> string)
  (gs : list Entry.t) :
  write_back set_function gs (map F (map get_function gs))
  = map (fun g => set_function g (F (get_function g))) gs.
Proof. induction gs as [|g gs IH]; [done|]. cbn. by rewrite IH. Qed.

Lemma pad_values_own (gs : list Entry.t) (get_function : Entry.t -> string)
  (set_function : Entry.t -> string -> Entry.t) :
  (forall g v, get_function (set_function g v) = v) ->
  map get_function (pad_values gs get_function set_function)
  = add_padding (map get_function gs).
Proof.
  intros Hgs. unfold pad_values, add_padding.
  rewrite write_back_map, !map_map. apply map_ext. intros g. apply Hgs.
Qed.

Lemma pad_values_other (gs : list Entry.t) (get_function : Entry.t -> string)
  (set_function : Entry.t -> string -> Entry.t)
  (other : Entry.t -> string) :
  (forall g v, other (set_function g v) = other g) ->
  map other (pad_values gs get_function set_function) = map other gs.
Proof.
  intros Ho. unfold pad_values, add_padding.
  rewrite write_back_map, !map_map. apply map_ext. intros g. apply Ho.
Qed.

(** After the six passes each tag is the tag padded with the tags of its
    kind in the family. *)
Lemma tag_of_pad_all (k : tag_field) (gs : list Entry.t) :
  map (tag_of k) (pad_all gs) = add_padding (map (tag_of k) gs).
Proof.
  unfold pad_all.
  destruct k;
    repeat (rewrite pad_values_other by done);
    rewrite pad_values_own by done;
    repeat (rewrite pad_values_other by done);
    done.
Qed.

Lemma vector_of_score (k : tag_field) (regions langs : list string) (w : Z)
  (ra va : bool) (g : Entry.t) :
  vector_of k (score_of regions langs w ra va g)
  = to_int_list (tag_of k g) (if ascending ra va k then 1 else -1).
Proof. by destruct k. Qed.

(** ** The ranking comparator: the order of a ranked family *)

Lemma insert_by_Permutation (kg : KeyGenerator) (g : Entry.t)
  (sorted : list Entry.t) :
  insert_by kg g sorted ≡ₚ g :: sorted.
Proof.
  induction sorted as [|h t IH]; [done|]. cbn [insert_by].
  destruct (compare_key _ _); try done; rewrite IH; apply Permutation_swap.
Qed.

Lemma sort_games_Permutation (kg : KeyGenerator) (gs : list Entry.t) :
  sort_games kg gs ≡ₚ gs.
Proof.
  unfold sort_games.
  enough (forall acc,
             fold_left (fun sorted g => insert_by kg g sorted) gs acc
             ≡ₚ acc ++ gs) as E by apply (E []).
  induction gs as [|g rest IH]; intros acc; [by rewrite app_nil_r|].
  cbn [fold_left]. rewrite IH, insert_by_Permutation.
  by rewrite (Permutation_middle acc rest g).
Qed.

Lemma compare_vec_eq (u : list Z) :
  forall v, compare_vec u v = Eq -> u = v.
Proof.
  induction u as [|x u IH]; intros [|y v] E; try done.
  cbn [compare_vec] in E. destruct (Z.compare_spec x y); try done.
  subst. f_equal. by apply IH.
Qed.

Lemma compare_vec_lt_trans (u : list Z) :
  forall v w, compare_vec u v = Lt -> compare_vec v w = Lt ->
              compare_vec u w = Lt.
Proof.
  induction u as [|x u IH]; intros [|y v] [|z w] E1 E2; try done.
  cbn [compare_vec] in *.
  destruct (Z.compare_spec x y) as [->|Hxy|Hxy]; [|clear E1|done].
  - destruct (Z.compare_spec y z); try done. by eapply IH.
  - destruct (Z.compare_spec y z) as [->|Hyz|Hyz]; [|clear E2|done].
    + by apply Z.compare_lt_iff in Hxy as ->.
    + assert (x < z) as Hxz by lia. by apply Z.compare_lt_iff in Hxz as ->.
Qed.

Lemma compare_vec_antisym (u : list Z) :
  forall v, compare_vec v u = CompOpp (compare_vec u v).
Proof.
  induction u as [|x u IH]; intros [|y v]; try done.
  cbn [compare_vec]. rewrite (Z.compare_antisym x y).
  destruct (x ?= y); cbn [CompOpp]; [apply IH | done | done].
Qed.

Lemma compare_part_refl (p : key_part) : compare_part p p = Eq.
Proof. destruct p; [apply Z.compare_refl | apply compare_vec_refl]. Qed.

Lemma compare_part_eq (p q : key_part) : compare_part p q = Eq -> p = q.
Proof.
  destruct p, q; cbn [compare_part]; intros E; try done.
  - apply Z.compare_eq in E. by subst.
  - apply compare_vec_eq in E. by subst.
Qed.

Lemma compare_part_lt_trans (p q r : key_part) :
  compare_part p q = Lt -> compare_part q r = Lt -> compare_part p r = Lt.
Proof.
  destruct p, q, r; cbn [compare_part]; intros E1 E2; try done.
  - rewrite Z.compare_lt_iff in *. lia.
  - by eapply compare_vec_lt_trans.
Qed.

Lemma compare_part_antisym (p q : key_part) :
  compare_part q p = CompOpp (compare_part p q).
Proof.
  destruct p, q; cbn [compare_part CompOpp]; try done.
  - apply Z.compare_antisym.
  - apply compare_vec_antisym.
Qed.

Lemma compare_key_refl (k : list key_part) : compare_key k k = Eq.
Proof.
  induction k as [|p k IH]; [done|]. cbn [compare_key].
  by rewrite compare_part_refl.
Qed.

Lemma compare_key_eq (k1 : list key_part) :
  forall k2, compare_key k1 k2 = Eq -> k1 = k2.
Proof.
  induction k1 as [|p k1 IH]; intros [|q k2] E; try done.
  cbn [compare_key] in E. destruct (compare_part p q) eqn:Ep; try done.
  apply compare_part_eq in Ep. subst. f_equal. by apply IH.
Qed.

Lemma compare_key_lt_trans (k1 : list key_part) :
  forall k2 k3, compare_key k1 k2 = Lt -> compare_key k2 k3 = Lt ->
                compare_key k1 k3 = Lt.
Proof.
  induction k1 as [|p k1 IH]; intros [|q k2] [|r k3] E1 E2; try done.
  cbn [compare_key] in *.
  destruct (compare_part p q) eqn:Epq; [| |done].
  - apply compare_part_eq in Epq. subst q.
    destruct (compare_part p r); [by eapply IH | done | done].
  - destruct (compare_part q r) eqn:Eqr; [| |done].
    + apply compare_part_eq in Eqr. subst r. by rewrite Epq.
    + by rewrite (compare_part_lt_trans p q r).
Qed.

Lemma compare_key_antisym (k1 : list key_part) :
  forall k2, compare_key k2 k1 = CompOpp (compare_key k1 k2).
Proof.
  induction k1 as [|p k1 IH]; intros [|q k2]; try done.
  cbn [compare_key]. rewrite (compare_part_antisym p q).
  destruct (compare_part p q); cbn [CompOpp]; [apply IH | done | done].
Qed.

Lemma compare_key_app (p k1 k2 : list key_part) :
  compare_key (p ++ k1) (p ++ k2) = compare_key k1 k2.
Proof.
  induction p as [|x p IH]; [done|]. cbn [app compare_key].
  by rewrite compare_part_refl.
Qed.

Lemma key_le_trans (kg : KeyGenerator) (x y z : Entry.t) :
  key_le kg x y -> key_le kg y z -> key_le kg x z.
Proof.
  unfold key_le. intros Hxy Hyz.
  destruct (compare_key (generate kg x) (generate kg y)) eqn:E1; [| |done].
  - apply compare_key_eq in E1. by rewrite E1.
  - destruct (compare_key (generate kg y) (generate kg z)) eqn:E2; [| |done].
    + apply compare_key_eq in E2. rewrite <- E2, E1. done.
    + by rewrite (compare_key_lt_trans _ _ _ E1 E2).
Qed.

Lemma insert_by_sorted (kg : KeyGenerator) (g : Entry.t)
  (sorted : list Entry.t) :
  StronglySorted (key_le kg) sorted ->
  StronglySorted (key_le kg) (insert_by kg g sorted).
Proof.
  induction 1 as [|h t Ht IH Hh]; cbn [insert_by].
  - apply SSorted_cons; [apply SSorted_nil | apply Forall_nil_2].
  - destruct (compare_key (generate kg h) (generate kg g)) eqn:E.
    + apply SSorted_cons; [done|]. apply insert_by_Forall; [|done].
      unfold key_le. by rewrite E.
    + apply SSorted_cons; [done|]. apply insert_by_Forall; [|done].
      unfold key_le. by rewrite E.
    + assert (key_le kg g h) as Hgh.
      { unfold key_le. by rewrite compare_key_antisym, E. }
      apply SSorted_cons; [by apply SSorted_cons|].
      apply Forall_cons. split; [done|].
      eapply Forall_impl; [exact Hh|]. intros x Hx.
      by apply (key_le_trans kg g h x).
Qed.

Lemma sort_games_sorted (kg : KeyGenerator) (games : list Entry.t) :
  StronglySorted (key_le kg) (sort_games kg games).
Proof.
  unfold sort_games.
  enough (forall acc, StronglySorted (key_le kg) acc ->
            StronglySorted (key_le kg)
              (fold_left (fun sorted g => insert_by kg g sorted) games acc))
    as E by apply E, SSorted_nil.
  induction games as [|g rest IH]; intros acc Hacc; [done|].
  cbn [fold_left]. by apply IH, insert_by_sorted.
Qed.

Lemma sorted_lookup {A : Type} (R : A -> A -> Prop) (l : list A) :
  StronglySorted R l ->
  forall i j x y,
    l !! i = Some x -> l !! j = Some y -> (i < j)%nat -> R x y.
Proof.
  induction 1 as [|h t Ht IH Hh]; intros i j x y Hi Hj Hij; [done|].
  destruct j as [|j]; [lia|]. cbn in Hj.
  destruct i as [|i].
  - injection Hi as <-. rewrite Forall_forall in Hh. apply Hh.
    by eapply list_elem_of_lookup_2.
  - cbn in Hi. apply (IH i j); [done..|lia].
Qed.

(** In a ranked family, a candidate with the smaller key stands before
    one with the greater key, wherever they stand. *)
Lemma smaller_key_first (kg : KeyGenerator) (games : list Entry.t)
  (x y : Entry.t) (i j : nat) :
  compare_key (generate kg x) (generate kg y) = Lt ->
  sort_games kg games !! i = Some x ->
  sort_games kg games !! j = Some y ->
  (i < j)%nat.
Proof.
  intros Hlt Hi Hj.
  destruct (decide (i < j)%nat) as [|Hge]; [done|exfalso].
  destruct (decide (i = j)) as [->|Hne].
  - rewrite Hi in Hj. injection Hj as ->.
    by rewrite compare_key_refl in Hlt.
  - pose proof (sorted_lookup _ _ (sort_games_sorted kg games) j i y x
                  Hj Hi ltac:(lia)) as Hle.
    unfold key_le in Hle. by rewrite compare_key_antisym, Hlt in Hle.
Qed.

Lemma generate_at (k : tag_field) (kg : KeyGenerator) (g : Entry.t) :
  exists rest,
    generate kg g
    = stages_before k kg g ++ KVec (vector_of k (score_or_zero g)) :: rest.
Proof.
  unfold stages_before, leading_stages, generate, stage.
  destruct (non_empty (avoid kg)), (prioritize_languages kg),
    (prefer_parents kg), (input_order kg), (non_empty (prefer kg)), k;
    by eexists.
Qed.

(** Two candidates whose keys agree before the vector of a tag are
    ranked by that vector when it differs. *)
Lemma ranked_by_vector (k : tag_field) (kg : KeyGenerator) (x y : Entry.t) :
  stages_before k kg x = stages_before k kg y ->
  compare_vec (vector_of k (score_or_zero x)) (vector_of k (score_or_zero y))
  = Lt ->
  compare_key (generate kg x) (generate kg y) = Lt.
Proof.
  intros Hs Hv.
  destruct (generate_at k kg x) as [rx ->].
  destruct (generate_at k kg y) as [ry ->].
  rewrite Hs, compare_key_app. cbn [compare_key compare_part].
  by rewrite Hv.
Qed.



(** The two revisions of the worked input: padded to [02] and [10]; the
    keys of the two candidates agree before the vector of the revision, so
    that the later revision, whose vector is the smaller, stands first;
    unpadded, the texts [2] and [10] compare the other way round. *)
Example revisions_padded_and_ranked :
  let kg := key_generator plain_settings in
  let scored :=
    set_scores (pad_all revision_candidates) ["USA"] [] 3 false false in
  map Entry.revision (pad_all revision_candidates) = ["02"; "10"]
  /\ map (stages_before Revision kg) scored
     = [[KInt 0; KInt 0; KInt 0; KInt 0]; [KInt 0; KInt 0; KInt 0; KInt 0]]
  /\ map Entry.name
       (rank_family kg ["USA"] [] 3 false false revision_candidates)
     = ["Game (USA) (Rev 10)"; "Game (USA) (Rev 2)"]
  /\ compare_vec (to_int_list "10" (-1)) (to_int_list "02" (-1)) = Lt
  /\ compare_vec (to_int_list "10" (-1)) (to_int_list "2" (-1)) = Gt
  /\ compare_numeric [value ["2"%char]] [value ["1"%char; "0"%char]] = Lt.
Proof. repeat split; vm_compute; reflexivity. Qed.


(** * Further properties of the code *)

(** ** The classifier: languages and the region table *)

Lemma add_language_spec (acc : list string) (language x : string) :
  x ∈ add_language acc language <-> x ∈ acc \/ x = language.
Proof.
  unfold add_language. case_bool_decide as Hin.
  - split; [by left|]. intros [ | -> ]; done.
  - rewrite elem_of_app, elem_of_cons, elem_of_nil. tauto.
Qed.

Lemma add_language_NoDup (acc : list string) (language : string) :
  NoDup acc -> NoDup (add_language acc language).
Proof.
  intros Hn. unfold add_language. case_bool_decide as Hin; [done|].
  apply NoDup_app. split; [done|]. split.
  - intros x Hx Hx'. apply elem_of_cons in Hx' as [->|Hx']; [done|].
    by apply elem_of_nil in Hx'.
  - apply NoDup_singleton.
Qed.

Lemma add_languages_spec (langs : list string) :
  forall acc,
    (NoDup acc -> NoDup (fold_left add_language langs acc))
    /\ forall x, x ∈ fold_left add_language langs acc <-> x ∈ acc \/ x ∈ langs.
Proof.
  induction langs as [|l langs IH]; intros acc.
  - split; [done|]. intros x. rewrite elem_of_nil. tauto.
  - destruct (IH (add_language acc l)) as [IHn IHe]. split.
    + intros Hn. by apply IHn, add_language_NoDup.
    + intros x. cbn [fold_left]. rewrite IHe, add_language_spec, elem_of_cons.
      tauto.
Qed.

(** The default languages of an item are those of its regions, each
    once. *)
Theorem get_languages_distinct_union (region_data_list : list RegionData) :
  NoDup (get_languages region_data_list)
  /\ forall language,
       language ∈ get_languages region_data_list
       <-> exists rd, rd ∈ region_data_list /\ language ∈ languages rd.
Proof.
  unfold get_languages.
  enough (forall acc,
             (NoDup acc ->
              NoDup (fold_left
                       (fun acc rd => fold_left add_language (languages rd) acc)
                       region_data_list acc))
             /\ forall x,
                  x ∈ fold_left
                        (fun acc rd =>
                           fold_left add_language (languages rd) acc)
                        region_data_list acc
                  <-> x ∈ acc
                      \/ exists rd, rd ∈ region_data_list /\ x ∈ languages rd)
    as E.
  { destruct (E []) as [En Ee]. split; [apply En, NoDup_nil_2|].
    intros x. rewrite Ee, elem_of_nil. tauto. }
  induction region_data_list as [|rd rest IH]; intros acc.
  - split; [done|]. intros x. split; [by left|].
    intros [|(rd & Hrd & _)]; [done|]. by apply elem_of_nil in Hrd.
  - destruct (IH (fold_left add_language (languages rd) acc)) as [IHn IHe].
    destruct (add_languages_spec (languages rd) acc) as [An Ae].
    split; [intros Hn; by apply IHn, An|].
    intros x. cbn [fold_left]. rewrite IHe, Ae. split.
    + intros [[Hx|Hx]|(rd' & Hrd & Hx)].
      * by left.
      * right. exists rd. split; [apply elem_of_cons; by left | done].
      * right. exists rd'. split; [apply elem_of_cons; by right | done].
    + intros [Hx|(rd' & Hrd & Hx)]; [by left; left|].
      apply elem_of_cons in Hrd as [->|Hrd]; [by left; right|].
      right. by exists rd'.
Qed.

Lemma find_region_app (registry : list RegionData) (r : RegionData)
  (c : string) :
  find_region registry c = None -> code r = c ->
  find_region (registry ++ [r]) c = Some r.
Proof.
  unfold find_region. intros Hn Hc.
  induction registry as [|r' rest IH]; simpl in *.
  - by rewrite Hc, String.eqb_refl.
  - destruct (String.eqb (code r') c); [done | by apply IH].
Qed.

(** [get_region_data] looks the code up or enters it: the table keeps what
    it had, the entry returned is in it afterwards, and asking again for
    the same code returns the same entry, with the table as it is and no
    second warning. *)
Theorem get_region_data_lookup_or_insert (no_warning : bool)
  (registry : list RegionData) (c : string) :
  let '(r, registry', out) := get_region_data no_warning registry c in
  (registry' = registry \/ registry' = registry ++ [r])
  /\ r ∈ registry'
  /\ code r = (if Text.truthy c then Text.upper c else c)
  /\ (registry' = registry -> out = [])
  /\ get_region_data no_warning registry' c = (r, registry', []).
Proof.
  unfold get_region_data.
  set (c' := if Text.truthy c then Text.upper c else c).
  destruct (find_region registry c') as [r|] eqn:E.
  - apply find_some in E as Hr. destruct Hr as [Hin Hc].
    apply String.eqb_eq in Hc.
    split; [by left|]. split; [by apply list_elem_of_In|].
    split; [done|]. split; [done|]. by rewrite E.
  - set (r := {| code := c'; pattern := None; languages := [] |}).
    split; [by right|].
    split; [apply elem_of_app; right; apply elem_of_cons; by left|].
    split; [done|]. split.
    + intros Happ. exfalso. apply (f_equal length) in Happ.
      rewrite length_app in Happ. simpl in Happ. lia.
    + by rewrite (find_region_app registry r c' E eq_refl).
Qed.

(** ** The scorer: the two computations of the language score *)

(** [language_value] and the sum written out in [set_scores] give the same
    score. *)
Theorem language_value_is_score (regions selected : list string) (weight : Z)
  (ra va : bool) (g : Entry.t) :
  language_value (Entry.languages g) weight selected
  = Score.languages (score_of regions selected weight ra va g).
Proof. by rewrite language_value_rank, score_languages_rank. Qed.

(** ** The hash indexer: what the index holds *)

Lemma declare_roms_Ok (roms : list Dat.rom) :
  forallb (fun rom => opt_truthy (Dat.sha1 rom)) roms = true ->
  forall result, exists result', declare_roms result roms = Ok result'.
Proof.
  induction roms as [|rom rest IH]; intros Hs result; [by eexists|].
  cbn [forallb] in Hs. apply andb_true_iff in Hs as [Hrom Hrest].
  cbn [declare_roms]. destruct (Dat.sha1 rom); [by apply IH | done].
Qed.

Lemma declare_games_Ok (root : list Dat.game) :
  lacks_sha1 root = false ->
  forall result, exists result', declare_games result root = Ok result'.
Proof.
  unfold lacks_sha1.
  induction root as [|game rest IH]; intros Hs result; [by eexists|].
  cbn [existsb] in Hs. apply orb_false_iff in Hs as [Hgame Hrest].
  cbn [declare_games].
  destruct (declare_roms_Ok (Dat.roms game)) with (result := result)
    as [r1 E1].
  { apply forallb_forall. intros rom Hin.
    destruct (opt_truthy (Dat.sha1 rom)) eqn:En; [done|].
    exfalso.
    assert (existsb (fun game_rom => negb (opt_truthy (Dat.sha1 game_rom)))
              (Dat.roms game) = true) as Hex.
    { apply existsb_exists. exists rom. by rewrite En. }
    congruence. }
  rewrite E1. cbn [res_bind]. by apply IH.
Qed.

Section Returning.

Context `{Hashlib} `{Repository}.
Variable QUIT : nat -> bool.
Hypothesis QUIT_never_cleared : never_cleared QUIT.

Lemma hash_members_total (full_path : string)
  (members : list (string * attempt stream)) :
  Forall (fun m => forall f, snd m <> Unhandled f) members ->
  forall result, total (hash_members QUIT full_path members result).
Proof.
  intros Hm. induction Hm as [|[name member] rest Hmember Hrest IH];
    intros result.
  - apply total_ret.
  - cbn [hash_members]. apply total_bind; [apply read_QUIT_total|].
    intros [|]; cbn [negb]; [apply IH|].
    destruct member as [internal_file| |f];
      [|apply total_ret|by destruct (Hmember f)].
    apply total_bind; [by apply compute_hash_total|]. intros d. apply IH.
Qed.

Lemma process_file_total (fd : FileData) :
  handled (path fd) -> total (process_file QUIT fd).
Proof.
  intros Hh. unfold process_file. apply total_bind.
  - unfold handled in Hh.
    destruct (is_zip (path fd)); [|apply total_ret].
    specialize (Hh eq_refl).
    destruct (zip_members (path fd)) as [members| |f];
      [by apply hash_members_total | apply total_ret | destruct Hh].
  - intros result. destruct (open_rb (path fd)); [|apply total_ret].
    apply total_bind; [by apply compute_hash_total|]. intros d.
    destruct (dict_get result d) as [p|]; [|apply total_ret].
    destruct (is_zip p); apply total_ret.
Qed.

Lemma pool_map_total (files_data : list FileData) :
  Forall (fun fd => handled (path fd)) files_data ->
  total (pool_map QUIT files_data).
Proof.
  intros Hh. induction Hh as [|fd rest Hfd Hrest IH]; [apply total_ret|].
  cbn [pool_map]. apply total_bind.
  - unfold process_with_progress. apply total_bind; [apply read_QUIT_total|].
    intros [|]; [apply total_ret|].
    apply total_bind; [by apply process_file_total|]. intros r.
    apply total_bind; [apply read_QUIT_total|]. intros [|]; apply total_ret.
  - intros r. apply total_bind; [apply IH|]. intros rs. apply total_ret.
Qed.

End Returning.

Lemma files_data_of_path (walked : listing) (fd : FileData) :
  fd ∈ files_data_of walked -> (path fd, Some (size fd)) ∈ walked.
Proof.
  unfold files_data_of. intros Hin.
  apply list_elem_of_omap in Hin as ([p [n|]] & Hw & E); [|done].
  by injection E as <-.
Qed.



(** Without these provisions the scan ends with an exception and no index:
    [ValueError] for [--threads 0], and what [zipfile] raised for an
    archive with an encrypted member. *)
Example scan_that_does_not_return :
  @index_files example_hashlib example_repository never (Some 0) loose_first
    example_catalogue 0%nat = Raise ValueError
  /\ @index_files example_hashlib locked_repository never None
       [("roms/locked.zip", Some 4)] example_catalogue 0%nat
     = Raise RuntimeError.
Proof. split; reflexivity. Qed.

Lemma dict_set_elem_of (d : dict) (k v : string) (e : string * string) :
  e ∈ dict_set d k v -> e ∈ d \/ e = (k, v).
Proof.
  induction d as [|[k' v'] d IH]; simpl.
  - intros He. apply elem_of_cons in He as [->|He]; [by right|].
    by apply elem_of_nil in He.
  - destruct (String.eqb k' k) eqn:E.
    + apply String.eqb_eq in E as ->.
      intros He. apply elem_of_cons in He as [->|He]; [by right|].
      left. apply elem_of_cons. by right.
    + intros He. apply elem_of_cons in He as [->|He].
      * left. apply elem_of_cons. by left.
      * destruct (IH He) as [Hd|Hd]; [|by right].
        left. apply elem_of_cons. by right.
Qed.

Lemma own_path_set (p : string) (r : dict) (k : string) :
  own_path p r -> own_path p (dict_set r k p).
Proof.
  intros Hr e He. apply dict_set_elem_of in He as [He| ->]; [by apply Hr|done].
Qed.

Section Own.

Context `{Hashlib} `{Repository}.
Variable QUIT : nat -> bool.

Lemma hash_members_own (p : string)
  (members : list (string * attempt stream)) :
  forall result t r t',
    own_path p result ->
    hash_members QUIT p members result t = (Ok r, t') ->
    own_path p r.
Proof.
  induction members as [|[name member] rest IH]; intros result t r t' Hr E.
  - by injection E as <- <-.
  - cbn [hash_members] in E. apply bind_Ok in E as (q & t1 & _ & E).
    destruct q; cbn [negb] in E; [by eapply IH|].
    destruct member as [f| |fl]; [|by injection E as <- <-|done].
    apply bind_Ok in E as (d & t2 & _ & E).
    eapply IH; [|exact E]. by apply own_path_set.
Qed.

Lemma process_file_own (fd : FileData) (t : nat) (r : dict) (t' : nat) :
  process_file QUIT fd t = (Ok r, t') -> own_path (path fd) r.
Proof.
  unfold process_file. intros E. apply bind_Ok in E as (r0 & t1 & E0 & E).
  assert (own_path (path fd) r0) as H0r.
  { destruct (is_zip (path fd));
      [destruct (zip_members (path fd)) as [members| |fl]|].
    - eapply hash_members_own; [|exact E0]. intros e He.
      by apply elem_of_nil in He.
    - injection E0 as <- <-. intros e He. by apply elem_of_nil in He.
    - done.
    - injection E0 as <- <-. intros e He. by apply elem_of_nil in He. }
  destruct (open_rb (path fd)) as [f|]; [|by injection E as <- <-].
  apply bind_Ok in E as (d & t2 & _ & E).
  destruct (dict_get r0 d) as [p|];
    [destruct (is_zip p)|]; injection E as <- <-;
    done || by apply own_path_set.
Qed.

Lemma process_with_progress_own (fd : FileData) (t : nat) (r : dict)
  (t' : nat) :
  process_with_progress QUIT fd t = (Ok r, t') -> own_path (path fd) r.
Proof.
  unfold process_with_progress. intros E.
  apply bind_Ok in E as (q & t1 & _ & E).
  destruct q.
  { injection E as <- <-. intros e He. by apply elem_of_nil in He. }
  apply bind_Ok in E as (r0 & t2 & E0 & E).
  apply bind_Ok in E as (q' & t3 & _ & E).
  destruct q'; injection E as <- <-.
  - intros e He. by apply elem_of_nil in He.
  - by eapply process_file_own.
Qed.

Lemma pool_map_own (files_data : list FileData) :
  forall t rs t',
    pool_map QUIT files_data t = (Ok rs, t') ->
    Forall (fun r => exists fd, fd ∈ files_data /\ own_path (path fd) r) rs.
Proof.
  induction files_data as [|fd rest IH]; intros t rs t' E.
  - injection E as <- <-. apply Forall_nil_2.
  - cbn [pool_map] in E. apply bind_Ok in E as (r & t1 & E1 & E).
    apply bind_Ok in E as (rs' & t2 & E2 & E). injection E as <- <-.
    apply Forall_cons. split.
    + exists fd. split; [apply elem_of_cons; by left|].
      by eapply process_with_progress_own.
    + eapply Forall_impl; [by eapply IH|].
      intros r' (fd' & Hin & Hown). exists fd'.
      split; [apply elem_of_cons; by right | done].
Qed.

End Own.

Lemma merge_item_origin (index : gmap string string)
  (item : string * string) (k p : string) :
  merge_item index item !! k = Some p ->
  index !! k = Some p \/ item = (k, p).
Proof.
  destruct item as [key value]. unfold merge_item.
  destruct (index !! key) as [cur|] eqn:E; [|by left].
  destruct (is_zip cur); [by left|].
  destruct (decide (key = k)) as [->|Hne].
  - rewrite lookup_insert_eq. intros [= ->]. by right.
  - rewrite lookup_insert_ne by done. by left.
Qed.

Lemma merge_dict_origin (r : dict) :
  forall (index : gmap string string) (k p : string),
    fold_left merge_item r index !! k = Some p ->
    index !! k = Some p \/ (k, p) ∈ r.
Proof.
  induction r as [|item r IH]; intros index k p E; [by left|].
  cbn [fold_left] in E. apply IH in E as [E|E].
  - apply merge_item_origin in E as [E| ->]; [by left|].
    right. apply elem_of_cons. by left.
  - right. apply elem_of_cons. by right.
Qed.

Lemma merge_results_origin (rs : list dict) :
  forall (index : gmap string string) (k p : string),
    merge_results index rs !! k = Some p ->
    index !! k = Some p \/ exists r, r ∈ rs /\ (k, p) ∈ r.
Proof.
  unfold merge_results.
  induction rs as [|r rs IH]; intros index k p E; [by left|].
  cbn [fold_left] in E. apply IH in E as [E|(r' & Hr & E)].
  - apply merge_dict_origin in E as [E|E]; [by left|].
    right. exists r. split; [apply elem_of_cons; by left | done].
  - right. exists r'. split; [apply elem_of_cons; by right | done].
Qed.

Lemma declare_roms_origin (roms : list Dat.rom) :
  forall (result result' : gmap string string) (k : string),
    declare_roms result roms = Ok result' ->
    is_Some (result' !! k) ->
    is_Some (result !! k)
    \/ exists rom d, rom ∈ roms /\ Dat.sha1 rom = Some d /\ Text.lower d = k.
Proof.
  induction roms as [|rom rest IH]; intros result result' k E Hk.
  - injection E as <-. by left.
  - cbn [declare_roms] in E. destruct (Dat.sha1 rom) as [d|] eqn:Ed; [|done].
    destruct (IH _ _ k E Hk) as [Hs|(rom' & d' & Hin & Hd & Hl)].
    + destruct (decide (Text.lower d = k)) as [Hdk|Hne].
      * right. exists rom, d. split; [apply elem_of_cons; by left | done].
      * left. by rewrite lookup_insert_ne in Hs.
    + right. exists rom', d'. split; [apply elem_of_cons; by right | done].
Qed.

Lemma declare_games_origin (root : list Dat.game) :
  forall (result result' : gmap string string) (k : string),
    declare_games result root = Ok result' ->
    is_Some (result' !! k) ->
    is_Some (result !! k) \/ declared root k.
Proof.
  induction root as [|game rest IH]; intros result result' k E Hk.
  - injection E as <-. by left.
  - cbn [declare_games] in E.
    destruct (declare_roms result (Dat.roms game)) as [r1|] eqn:E1; [|done].
    cbn [res_bind] in E.
    destruct (IH _ _ k E Hk) as [Hs|(g & rom & d & Hg & Hr & Hd & Hl)].
    + destruct (declare_roms_origin _ _ _ k E1 Hs)
        as [Hs'|(rom & d & Hr & Hd & Hl)]; [by left|].
      right. exists game, rom, d. split; [apply elem_of_cons; by left | done].
    + right. exists g, rom, d. split; [apply elem_of_cons; by right | done].
Qed.

(** The keys of the index are the digests of the catalogue, no more and no
    less: a file whose digest the catalogue does not declare leaves no
    trace.  Every path in the index is empty or the path of a file of the
    listing. *)
Theorem index_holds_declared_digests_and_listed_paths
  `{Hashlib} `{Repository} (QUIT : nat -> bool) (threads : option Z)
  (walked : listing) (root : list Dat.game) (t : nat)
  (index : gmap string string) (t' : nat) :
  index_files QUIT threads walked root t = Ok (index, t') ->
  (forall k, is_Some (index !! k) <-> declared root k)
  /\ forall k p, index !! k = Some p ->
       p = "" \/ exists n, (p, Some n) ∈ walked.
Proof.
  intros E. destruct (index_files_merge _ _ _ _ _ _ _ E)
    as (result & rs & Er & -> & Hrs).
  split.
  - intros k. rewrite merge_results_is_Some. split.
    + intros Hk. destruct (declare_games_origin _ _ _ k Er Hk) as [Hs|Hd];
        [|done]. rewrite lookup_empty in Hs. by destruct Hs.
    + by apply declared_is_Some.
  - intros k p Hp. apply merge_results_origin in Hp as [Hp|(r & Hr & Hp)].
    + left. apply declare_games_spec in Er as (_ & _ & Hval).
      destruct (Hval _ _ Hp) as [->|Hp']; [done|].
      by rewrite lookup_empty in Hp'.
    + right. destruct Hrs as [->|Hrs]; [by apply elem_of_nil in Hr|].
      apply pool_map_own in Hrs. rewrite Forall_forall in Hrs.
      destruct (Hrs r Hr) as (fd & Hfd & Hown).
      rewrite sort_by_size_elem_of in Hfd. unfold files_data_of in Hfd.
      apply list_elem_of_omap in Hfd as ([p' [n|]] & Hin & Hfd); [|done].
      injection Hfd as <-. exists n.
      specialize (Hown _ Hp). simpl in Hown. by subst p'.
Qed.

Lemma index_holds_declared_digests_and_listed_paths_witness :
  (forall k,
      is_Some ((<["game" := "roms/game.zip"]> (∅ : gmap string string)) !! k)
      <-> declared example_catalogue k)
  /\ forall k p,
       (<["game" := "roms/game.zip"]> (∅ : gmap string string)) !! k = Some p ->
       p = "" \/ exists n, (p, Some n) ∈ loose_first.
Proof.
  apply (@index_holds_declared_digests_and_listed_paths example_hashlib
           example_repository never None loose_first example_catalogue
           0%nat _ 14%nat).
  vm_compute. reflexivity.
Defined.

(** ** The hash indexer: the order of the merge *)

Lemma merge_results_concat (rs : list dict) :
  forall index, merge_results index rs = fold_left merge_item (concat rs) index.
Proof.
  unfold merge_results. induction rs as [|r rs IH]; intros index; [done|].
  cbn [fold_left concat]. by rewrite IH, fold_left_app.
Qed.

Lemma offered_concat (key : string) (rs : list dict) :
  offered key rs = map snd (filter (fun e => fst e = key) (concat rs)).
Proof.
  unfold offered. induction rs as [|r rs IH]; [done|].
  cbn [flat_map concat]. by rewrite IH, filter_app, map_app.
Qed.

Lemma merge_items_loose (items : list (string * string)) (key : string) :
  forall (index : gmap string string) (cur : string),
    index !! key = Some cur ->
    is_zip cur = false ->
    Forall (fun p => is_zip p = false)
      (map snd (filter (fun e => fst e = key) items)) ->
    fold_left merge_item items index !! key
    = Some (default cur (last (map snd (filter (fun e => fst e = key) items)))).
Proof.
  induction items as [|[k v] items IH]; intros index cur Hcur Hz Hall; [done|].
  cbn [fold_left]. destruct (decide (k = key)) as [->|Hne].
  - rewrite filter_cons in Hall. rewrite filter_cons.
    rewrite decide_True in Hall by done. rewrite decide_True by done.
    cbn [map] in Hall |- *.
    apply Forall_cons in Hall as [Hv Hall].
    rewrite (IH (merge_item index (key, v)) v); [|
      unfold merge_item; rewrite Hcur, Hz; apply lookup_insert_eq | done..].
    f_equal. by destruct (map snd (filter _ items)) eqn:El using rev_ind;
      [|rewrite last_cons, !last_snoc].
  - rewrite filter_cons in Hall. rewrite filter_cons.
    rewrite decide_False in Hall by done. rewrite decide_False by done.
    apply IH; [|done..]. by rewrite merge_item_other.
Qed.

(** Among loose files the last one wins: when a key of the index has a
    path that is not an archive's, and the workers offer no archive for
    it, the merge leaves the last path offered -- or the path it had when
    none is offered. *)
Theorem last_loose_file_wins (index : gmap string string) (rs : list dict)
  (key cur : string) :
  index !! key = Some cur ->
  is_zip cur = false ->
  Forall (fun p => is_zip p = false) (offered key rs) ->
  merge_results index rs !! key = Some (default cur (last (offered key rs))).
Proof.
  intros Hcur Hz Hall. rewrite merge_results_concat, offered_concat in *.
  by apply merge_items_loose.
Qed.

Lemma last_loose_file_wins_witness :
  merge_results nothing_found two_loose_results !! "game"
  = Some (default "" (last (offered "game" two_loose_results))).
Proof.
  apply (last_loose_file_wins nothing_found two_loose_results "game" "").
  - reflexivity.
  - reflexivity.
  - repeat (apply Forall_cons; split; [reflexivity|]). apply Forall_nil_2.
Defined.

(** ** The hash indexer: the order of the files *)

Lemma insert_by_size_Permutation (fd : FileData) (sorted : list FileData) :
  insert_by_size fd sorted ≡ₚ fd :: sorted.
Proof.
  induction sorted as [|h t IH]; [done|]. simpl.
  destruct (size h <? size fd); [done|]. rewrite IH. apply Permutation_swap.
Qed.

Lemma insert_by_size_Sorted (fd : FileData) (sorted : list FileData) :
  StronglySorted (fun a b => size b <= size a) sorted ->
  StronglySorted (fun a b => size b <= size a) (insert_by_size fd sorted).
Proof.
  induction 1 as [|h t Ht IH Hh]; simpl.
  - apply SSorted_cons; [apply SSorted_nil | apply Forall_nil_2].
  - destruct (size h <? size fd) eqn:E.
    + apply Z.ltb_lt in E. apply SSorted_cons.
      * by apply SSorted_cons.
      * apply Forall_cons. split; [lia|].
        eapply Forall_impl; [exact Hh|]. simpl. intros. lia.
    + apply Z.ltb_ge in E. apply SSorted_cons; [done|].
      rewrite insert_by_size_Permutation. by apply Forall_cons.
Qed.

(** The files are hashed largest first, and none is lost or taken
    twice. *)
Theorem sort_by_size_largest_first (files_data : list FileData) :
  sort_by_size files_data ≡ₚ files_data
  /\ StronglySorted (fun a b => size b <= size a) (sort_by_size files_data).
Proof.
  unfold sort_by_size.
  enough (forall acc,
             StronglySorted (fun a b => size b <= size a) acc ->
             fold_left (fun sorted fd => insert_by_size fd sorted)
               files_data acc ≡ₚ acc ++ files_data
             /\ StronglySorted (fun a b => size b <= size a)
                  (fold_left (fun sorted fd => insert_by_size fd sorted)
                     files_data acc)) as E.
  { apply (E []). apply SSorted_nil. }
  induction files_data as [|fd rest IH]; intros acc Hacc.
  - cbn. by rewrite app_nil_r.
  - cbn [fold_left].
    destruct (IH (insert_by_size fd acc) (insert_by_size_Sorted fd acc Hacc))
      as [Hp Hs].
    split; [|done]. rewrite Hp, insert_by_size_Permutation.
    by rewrite (Permutation_middle acc rest fd).
Qed.

(** ** Ranking: what it keeps *)

Lemma pad_values_keeps {B : Type} (f : Entry.t -> B) (gs : list Entry.t)
  (get_function : Entry.t -> string)
  (set_function : Entry.t -> string -> Entry.t) :
  (forall g v, f (set_function g v) = f g) ->
  map f (pad_values gs get_function set_function) = map f gs.
Proof.
  intros Hf. unfold pad_values, add_padding.
  rewrite write_back_map, !map_map. apply map_ext. intros g. apply Hf.
Qed.

(** Ranking a family changes the tags and the score of its candidates and
    their order, nothing else: the candidates that come out are those
    that went in, and each of them has a score. *)
Theorem rank_family_keeps_candidates (kg : KeyGenerator)
  (regions langs : list string) (w : Z) (ra va : bool)
  (games : list Entry.t) :
  map core (rank_family kg regions langs w ra va games) ≡ₚ map core games
  /\ Forall (fun g => is_Some (Entry.score g))
       (rank_family kg regions langs w ra va games).
Proof.
  unfold rank_family. split.
  - rewrite (Permutation_map core (sort_games_Permutation kg _)).
    unfold set_scores. rewrite map_map. cbn [core Entry.set_score].
    change (map (fun x => core x) (pad_all games) ≡ₚ map core games).
    unfold pad_all. by rewrite !pad_values_keeps.
  - apply sort_games_Forall. unfold set_scores. apply Forall_forall.
    intros g Hg.
    apply (list_elem_of_fmap_1 (fun game => Entry.set_score game _)) in Hg
      as (g' & -> & _).
    by eexists.
Qed.

(** ** The selector: the candidates that are walked *)

Lemma language_rank_nonpositive (langs_x : list string) (w : Z)
  (sel : list string) :
  0 < w -> language_rank langs_x w sel <= 0.
Proof.
  intros Hw. induction langs_x as [|l rest IH]; [done|].
  cbn [language_rank]. unfold contribution, get_index.
  destruct (index_of sel l); nia.
Qed.

Lemma language_rank_negative (langs_x : list string) (w : Z)
  (sel : list string) :
  0 < w ->
  (language_rank langs_x w sel <? 0)
  = existsb (fun l => bool_decide (l ∈ sel)) langs_x.
Proof.
  intros Hw. induction langs_x as [|l rest IH]; [done|].
  cbn [language_rank existsb]. rewrite <- IH.
  pose proof (language_rank_nonpositive rest w sel Hw) as Hr.
  case_bool_decide as Hin.
  - pose proof (get_index_present sel l (-1) Hin) as Hi.
    unfold contribution. cbn [orb]. apply Z.ltb_lt. nia.
  - unfold contribution. rewrite (get_index_absent sel l (-1) Hin).
    cbn [orb]. f_equal; lia.
Qed.

Lemma region_rank_selected (regions : list string) (r : string) :
  Z.of_nat (length regions) <= 10000 ->
  negb (get_index regions r UNSELECTED =? UNSELECTED)
  = bool_decide (r ∈ regions).
Proof.
  intros Hl. case_bool_decide as Hin.
  - pose proof (get_index_present regions r UNSELECTED Hin) as Hi.
    apply negb_true_iff, Z.eqb_neq. unfold UNSELECTED in *. lia.
  - rewrite (get_index_absent regions r UNSELECTED Hin). done.
Qed.

Lemma filter_all {A : Type} (P : A -> Prop) `{!forall x, Decision (P x)}
  (l : list A) :
  (forall x, P x) -> filter P l = l.
Proof.
  intros HP. induction l as [|x l IH]; [done|].
  by rewrite filter_cons, decide_True, IH.
Qed.

(** After scoring, with a positive weight and at most 10000 selected
    regions, the region filter ahead of the walk does not fail and keeps
    the candidates the options want, in their order: all of them with
    [--all-regions]; otherwise those of a selected region and, with
    [--all-regions-with-lang], those with a selected language. *)
Theorem walked_candidates_are_wanted (s : Settings)
  (regions langs : list string) (w : Z) (ra va : bool)
  (games : list Entry.t) :
  0 < w ->
  Z.of_nat (length regions) <= 10000 ->
  let scored := set_scores games regions langs w ra va in
  candidates s scored
  = Ok (filter (fun x => wanted s regions langs x = true) scored).
Proof.
  intros Hw Hl scored. subst scored. unfold set_scores.
  destruct (all_regions (config s)) eqn:Ea.
  - rewrite filter_all by (intros x; unfold wanted; by rewrite Ea).
    by destruct (map _ games); cbn [candidates]; rewrite Ea.
  - induction games as [|g rest IH]; cbn [map candidates]; rewrite Ea;
      [done|].
    unfold region_selected at 1. cbn [Entry.set_score Entry.score].
    cbn [res_bind]. rewrite IH. cbn [res_bind]. rewrite filter_cons.
    assert (negb (Score.region (score_of regions langs w ra va g)
                  =? UNSELECTED)
            || all_regions_with_lang (config s)
               && (Score.languages (score_of regions langs w ra va g) <? 0)
            = wanted s regions langs
                (Entry.set_score g (score_of regions langs w ra va g)))
      as Hk.
    { unfold wanted. rewrite Ea.
      cbn [orb Entry.set_score Entry.region Entry.languages].
      rewrite score_languages_rank, language_rank_negative by done.
      cbn [score_of Score.region]. by rewrite region_rank_selected. }
    rewrite Hk.
    by destruct (wanted s regions langs _) eqn:Ew;
      [rewrite decide_True | rewrite decide_False].
Qed.

Lemma walked_candidates_are_wanted_witness :
  let scored :=
    set_scores
      [plain_entry "Game (USA)" "USA" ["en"] [];
       plain_entry "Game (Japan)" "JPN" ["ja"] []]
      ["USA"; "EUR"] [] 3 false false in
  candidates plain_settings scored
  = Ok (filter (fun x => wanted plain_settings ["USA"; "EUR"] [] x = true)
          scored).
Proof.
  apply (walked_candidates_are_wanted plain_settings ["USA"; "EUR"] [] 3
           false false).
  - lia.
  - simpl. lia.
Defined.

(** ** The selector: what a walk selects, writes and does *)

(** A candidate that the walk selects is a candidate of the family walked,
    and neither it nor any candidate before it matches an exclude-after
    pattern. *)
Theorem selected_candidate_is_not_excluded `{Env} (s : Settings)
  (index : gmap string string) (game : string) (entries : list Entry.t)
  (w : Walk) (e : Entry.t) :
  walk s index game entries = Ok w ->
  selected w = Some e ->
  exists pre post,
    entries = pre ++ e :: post
    /\ Forall (fun x => check_in_pattern_list (Entry.name x) (exclude_after s)
                        = false) (pre ++ [e]).
Proof.
  revert w. induction entries as [|x rest IH]; intros w Hw Hs.
  - injection Hw as <-. done.
  - cbn [walk] in Hw.
    destruct (try_candidate s index game x (bool_decide (rest = [])))
      as [[out resolved|out]|err] eqn:Et; [| |done].
    + injection Hw as <-. cbn [selected] in Hs.
      destruct resolved; [|done]. injection Hs as <-.
      exists [], rest. split; [done|].
      apply Forall_cons. split; [|apply Forall_nil_2].
      unfold try_candidate in Et.
      destruct (check_in_pattern_list _ _); [by injection Et|done].
    + destruct (walk s index game rest) as [w'|] eqn:Ew; [|done].
      injection Hw as <-. cbn [selected] in Hs.
      destruct (IH w' eq_refl Hs) as (pre & post & -> & Hall).
      exists (x :: pre), post. split; [done|].
      cbn [app]. apply Forall_cons. split; [|done].
      unfold try_candidate in Et.
      destruct (check_in_pattern_list _ _); [by injection Et|done].
Qed.

Lemma selected_candidate_is_not_excluded_witness :
  exists pre post,
    [plain_entry "Game (USA)" "USA" ["en"] []] = pre
      ++ plain_entry "Game (USA)" "USA" ["en"] [] :: post
    /\ Forall (fun x => check_in_pattern_list (Entry.name x)
                          (exclude_after plain_settings) = false)
         (pre ++ [plain_entry "Game (USA)" "USA" ["en"] []]).
Proof.
  apply (@selected_candidate_is_not_excluded example_env plain_settings ∅
           "Game" [plain_entry "Game (USA)" "USA" ["en"] []]
           {| events := [Stdout "Game (USA)"];
              selected := Some (plain_entry "Game (USA)" "USA" ["en"] []) |}).
  - vm_compute. reflexivity.
  - reflexivity.
Defined.

Lemma rom_not_found_written (s : Settings) (game rom candidate : string) :
  forallb is_written (rom_not_found s game rom candidate) = true
  /\ (NO_WARNING (config s) = true -> rom_not_found s game rom candidate = []).
Proof.
  unfold rom_not_found. by destruct (NO_WARNING (config s)).
Qed.

Lemma forallb_app_true {A : Type} (f : A -> bool) (a b : list A) :
  forallb f a = true -> forallb f b = true -> forallb f (a ++ b) = true.
Proof. intros Ha Hb. rewrite forallb_app, Ha, Hb. done. Qed.

Lemma resolve_roms_written (s : Settings) (index : gmap string string)
  (game : string) (entry : Entry.t) (roms : list Dat.rom) :
  Text.truthy (output_dir (config s)) = false ->
  forall copied out copied' out',
    resolve_roms s index game entry roms copied out = Ok (copied', out') ->
    forallb is_written out = true ->
    forallb is_written out' = true.
Proof.
  intros Ho. induction roms as [|rom rest IH]; intros copied out c' o' E Hout.
  - by injection E as <- <-.
  - cbn [resolve_roms] in E. rewrite Ho in E. cbn [negb] in E.
    destruct (Dat.sha1 rom) as [d|]; [|done].
    destruct (index !! Text.lower d) as [p|]; [|done].
    destruct (Text.truthy p).
    + destruct (bool_decide (p ∈ copied)); [by eapply IH|].
      eapply IH; [exact E|]. by apply forallb_app_true.
    + eapply IH; [exact E|]. apply forallb_app_true; [done|].
      apply rom_not_found_written.
Qed.

(** Without an output directory the selection loop only writes: whatever
    the mode, a walk neither creates a directory nor copies or moves a
    file. *)
Theorem no_transfer_without_output_dir `{Env} (s : Settings)
  (index : gmap string string) (game : string) (entries : list Entry.t)
  (w : Walk) :
  Text.truthy (output_dir (config s)) = false ->
  walk s index game entries = Ok w ->
  forallb is_written (events w) = true.
Proof.
  intros Ho. revert w. induction entries as [|x rest IH]; intros w Hw.
  - by injection Hw as <-.
  - cbn [walk] in Hw.
    destruct (try_candidate s index game x (bool_decide (rest = [])))
      as [t|] eqn:Et; [|done].
    assert (forallb is_written
              match t with Break out _ | Next out => out end = true) as Hout.
    { unfold try_candidate in Et. rewrite Ho in Et.
      destruct (check_in_pattern_list _ _); [by injection Et as <-|].
      destruct (use_hashes (config s)).
      - destruct (resolve_roms _ _ _ _ _ _ _) as [[c o]|] eqn:Er; [|done].
        pose proof (resolve_roms_written s index game x _ Ho _ _ _ _ Er
                      eq_refl) as Hwr.
        destruct (bool_decide (c ≠ ∅)); [by injection Et as <-|].
        destruct (negb (NO_WARNING (config s)) && _); injection Et as <-;
          [by apply forallb_app_true | done].
      - destruct (Text.truthy (input_dir (config s)));
          [|by injection Et as <-].
        destruct (isfile _); [by injection Et as <-|].
        destruct (isdir _).
        + injection Et as <-. unfold directory_roms. rewrite Ho.
          apply forallb_forall. intros ev Hev.
          apply in_flat_map in Hev as (rom & _ & Hev).
          destruct (isfile _).
          * destruct Hev as [<-|[]]. done.
          * destruct (rom_not_found_written s game (Dat.rom_name rom)
                        (add_extension (Entry.name x)
                           (file_extension (config s)))) as [Hw' _].
            rewrite forallb_forall in Hw'. by apply Hw'.
        + destruct (negb (NO_WARNING (config s))); injection Et as <-;
            [|done].
          unfold no_eligible. by destruct (bool_decide (rest = [])). }
    destruct t as [out resolved|out].
    + by injection Hw as <-.
    + destruct (walk s index game rest) as [w'|]; [|done].
      injection Hw as <-. cbn [events].
      apply forallb_app_true; [done | by apply IH].
Qed.

Lemma no_transfer_without_output_dir_witness :
  forallb is_written
    (events {| events := [Warn (RomNotFound None "game.bin" "Game (USA)");
                          Warn (NoEligible "Game")];
               selected := None |}) = true.
Proof.
  apply (@no_transfer_without_output_dir example_env with_hashes nothing_found
           "Game" [plain_entry "Game (USA)" "USA" ["en"] [example_rom]]).
  - reflexivity.
  - vm_compute. reflexivity.
Defined.

(** ** Warnings that [--no-warning] suppresses *)

Lemma warnings_nil_app (a b : list event) :
  warnings a = [] -> warnings b = [] -> warnings (a ++ b) = [].
Proof. intros Ha Hb. by rewrite warnings_app, Ha, Hb. Qed.

Lemma resolve_roms_quiet (s : Settings) (index : gmap string string)
  (game : string) (entry : Entry.t) (roms : list Dat.rom) :
  NO_WARNING (config s) = true ->
  forall copied out copied' out',
    resolve_roms s index game entry roms copied out = Ok (copied', out') ->
    warnings out = [] ->
    warnings out' = [].
Proof.
  intros Hq. induction roms as [|rom rest IH]; intros copied out c' o' E Hout.
  - by injection E as <- <-.
  - cbn [resolve_roms] in E.
    destruct (Dat.sha1 rom) as [d|]; [|done].
    destruct (index !! Text.lower d) as [p|]; [|done].
    destruct (Text.truthy p).
    + destruct (bool_decide (p ∈ copied)); [by eapply IH|].
      destruct (negb (Text.truthy (output_dir (config s)))).
      * eapply IH; [exact E|]. by apply warnings_nil_app.
      * eapply IH; [exact E|]. apply warnings_nil_app; [done|].
        by destruct (_ && _).
    + eapply IH; [exact E|]. apply warnings_nil_app; [done|].
      unfold rom_not_found. by rewrite Hq.
Qed.

(** With [--no-warning] the selection loop writes no diagnostic, whatever
    the mode of resolution and whatever is missing from the input
    directory. *)
Theorem no_warning_silences_selection `{Env} (s : Settings)
  (index : gmap string string) (game : string) (entries : list Entry.t)
  (w : Walk) :
  NO_WARNING (config s) = true ->
  walk s index game entries = Ok w ->
  warnings (events w) = [].
Proof.
  intros Hq. revert w. induction entries as [|x rest IH]; intros w Hw.
  - by injection Hw as <-.
  - cbn [walk] in Hw.
    destruct (try_candidate s index game x (bool_decide (rest = [])))
      as [t|] eqn:Et; [|done].
    assert (warnings match t with Break out _ | Next out => out end = [])
      as Hout.
    { unfold try_candidate in Et. rewrite Hq in Et. cbn [negb andb] in Et.
      destruct (check_in_pattern_list _ _); [by injection Et as <-|].
      destruct (use_hashes (config s)).
      - destruct (resolve_roms _ _ _ _ _ _ _) as [[c o]|] eqn:Er; [|done].
        pose proof (resolve_roms_quiet s index game x _ Hq _ _ _ _ Er
                      eq_refl) as Hwr.
        by destruct (bool_decide (c ≠ ∅)); injection Et as <-.
      - destruct (Text.truthy (input_dir (config s)));
          [|by injection Et as <-].
        destruct (isfile _).
        { by destruct (Text.truthy (output_dir (config s)));
            injection Et as <-. }
        destruct (isdir _); [|by injection Et as <-].
        injection Et as <-. unfold directory_roms.
        induction (Entry.roms x) as [|rom roms IHr]; [done|].
        cbn [flat_map]. apply warnings_nil_app; [|done].
        destruct (isfile _).
        + by destruct (Text.truthy (output_dir (config s))).
        + unfold rom_not_found. by rewrite Hq. }
    destruct t as [out resolved|out].
    + by injection Hw as <-.
    + destruct (walk s index game rest) as [w'|]; [|done].
      injection Hw as <-. cbn [events].
      apply warnings_nil_app; [done | by apply IH].
Qed.

Lemma no_warning_silences_selection_witness :
  warnings (events {| events := []; selected := None |}) = [].
Proof.
  apply (@no_warning_silences_selection example_env with_hashes_quiet
           nothing_found "Game"
           [plain_entry "Game (USA)" "USA" ["en"] [example_rom]]).
  - reflexivity.
  - vm_compute. reflexivity.
Defined.

Lemma add_release_regions_quiet (rels : list Dat.release) :
  forall region_data registry out,
    out = [] ->
    (add_release_regions true rels region_data registry out).2 = [].
Proof.
  induction rels as [|rel rest IH]; intros region_data registry out ->;
    [done|].
  cbn [add_release_regions].
  destruct (Dat.region rel) as [c|]; [|by apply IH].
  destruct (Text.truthy c && negb (is_present c region_data)); [|by apply IH].
  unfold get_region_data.
  destruct (find_region registry _); by apply IH.
Qed.

Lemma parse_game_quiet (f : Filters) (exclude : list Re.regex)
  (st : ParseState) (i : nat) (game : Dat.game) :
  stderr st = [] -> stderr (parse_game true f exclude st i game) = [].
Proof.
  intros Hst. unfold parse_game.
  destruct (filtered_out f exclude (Dat.name game)); [done|].
  unfold game_regions.
  pose proof (add_release_regions_quiet (Dat.releases game)
                (parse_region_data (registry st) (Dat.name game))
                (registry st) [] eq_refl) as Hq.
  destruct (add_release_regions _ _ _ _ _) as [[region_data registry'] w].
  simpl in Hq. subst w. cbn [stderr]. rewrite Hst.
  by destruct (map _ _), (Dat.roms game).
Qed.

(** With [--no-warning] reading the catalogue writes no diagnostic: not
    for a region code that is not in the table, not for an item without a
    region, not for an item without files. *)
Theorem no_warning_silences_parsing (registry : list RegionData)
  (root : list Dat.game) (f : Filters) (exclude : list Re.regex) :
  stderr (parse_games true registry root f exclude) = [].
Proof.
  unfold parse_games.
  enough (forall st i, stderr st = [] ->
            stderr (parse_games_from true f exclude st i root) = []) as E.
  { by apply E. }
  induction root as [|g rest IH]; intros st i Hst; [done|].
  cbn [parse_games_from]. apply IH. by apply parse_game_quiet.
Qed.

(** ** The classifier: the families *)

Lemma extend_family_key (fs : families) (k : string) (es : list Entry.t)
  (x : string) :
  x ∈ map fst (extend_family fs k es) -> x ∈ map fst fs \/ x = k.
Proof.
  induction fs as [|[k0 es0] rest IH]; cbn [extend_family map fst].
  - intros Hx. apply list_elem_of_singleton in Hx. by right.
  - destruct (String.eqb k0 k); cbn [map fst]; intros Hx; [by left|].
    apply elem_of_cons in Hx as [->|Hx].
    + left. apply elem_of_cons. by left.
    + destruct (IH Hx) as [Hr|Hk]; [|by right].
      left. apply elem_of_cons. by right.
Qed.

Lemma extend_family_NoDup (fs : families) (k : string) (es : list Entry.t) :
  NoDup (map fst fs) -> NoDup (map fst (extend_family fs k es)).
Proof.
  induction fs as [|[k0 es0] rest IH]; cbn [extend_family map fst].
  - intros _. apply NoDup_singleton.
  - intros Hnd. apply NoDup_cons in Hnd as [Hk0 Hrest].
    destruct (String.eqb k0 k) eqn:Ek; cbn [map fst].
    + by apply NoDup_cons.
    + apply NoDup_cons. split; [|by apply IH].
      intros Hin. apply extend_family_key in Hin as [Hin|Hin]; [done|].
      subst k0. by rewrite String.eqb_refl in Ek.
Qed.

Lemma extend_family_Forall (P : string * list Entry.t -> Prop)
  (fs : families) (k : string) (es : list Entry.t) :
  Forall P fs ->
  (forall es0, P (k, es0) -> P (k, es0 ++ es)) ->
  P (k, es) ->
  Forall P (extend_family fs k es).
Proof.
  intros Hfs Hext Hnew.
  induction Hfs as [|[k0 es0] rest Hes Hrest IH]; cbn [extend_family].
  - apply Forall_cons. split; [done | apply Forall_nil_2].
  - destruct (String.eqb k0 k) eqn:Ek; apply Forall_cons; split; try done.
    apply String.eqb_eq in Ek. subst k0. by apply Hext.
Qed.

Lemma parse_game_well_filed (root : list Dat.game) (no_warning : bool)
  (f : Filters) (exclude : list Re.regex) (st : ParseState) (i : nat)
  (game : Dat.game) :
  game ∈ root ->
  NoDup (map fst (games st)) /\ Forall (well_filed root f exclude) (games st) ->
  NoDup (map fst (games (parse_game no_warning f exclude st i game)))
  /\ Forall (well_filed root f exclude)
       (games (parse_game no_warning f exclude st i game)).
Proof.
  intros Hg [Hnd Hst]. unfold parse_game.
  destruct (filtered_out f exclude (Dat.name game)) eqn:Ef; [done|].
  destruct (game_regions no_warning (registry st) game)
    as [[region_data registry'] w].
  set (langs := match parse_languages (Dat.name game) with
                | [] => get_languages region_data
                | _ :: _ => parse_languages (Dat.name game)
                end).
  cbn [games].
  fold (parent_name_of game).
  assert (Forall (fun e =>
                    exists game0,
                      game0 ∈ root
                      /\ filtered_out f exclude (Dat.name game0) = false
                      /\ parent_name_of game0 = parent_name_of game
                      /\ Entry.name e = Dat.name game0
                      /\ Entry.roms e = Dat.roms game0)
            (map (entry_for game i langs) (map code region_data))) as He.
  { apply Forall_forall. intros e He.
    apply (list_elem_of_fmap_1 (entry_for game i langs)) in He
      as (c & -> & _).
    by exists game. }
  destruct (map (entry_for game i langs) (map code region_data))
    as [|e es] eqn:Em; [done|].
  split; [by apply extend_family_NoDup|].
  apply extend_family_Forall; [done| |by split].
  intros es0 [Hne Hall]. split.
  - cbn [snd] in *. by destruct es0.
  - cbn [snd fst] in *. by apply Forall_app.
Qed.

(** [parse_games] files every candidate under the parent name of its item:
    the keys of the result are distinct, no family is empty, and every
    candidate of a family carries the name and the files of an item of the
    catalogue that passed the filters and the exclude list and whose parent
    name, [cloneof] when it has one and its own name otherwise, is the
    key. *)
Theorem parsed_families_are_well_filed (no_warning : bool)
  (registry : list RegionData) (root : list Dat.game) (f : Filters)
  (exclude : list Re.regex) :
  let fs := games (parse_games no_warning registry root f exclude) in
  NoDup (map fst fs) /\ Forall (well_filed root f exclude) fs.
Proof.
  unfold parse_games.
  enough (forall gs st i,
            (forall g, g ∈ gs -> g ∈ root) ->
            NoDup (map fst (games st))
            /\ Forall (well_filed root f exclude) (games st) ->
            NoDup (map fst (games (parse_games_from no_warning f exclude
                                     st i gs)))
            /\ Forall (well_filed root f exclude)
                 (games (parse_games_from no_warning f exclude st i gs)))
    as E.
  { apply E; [done|]. split; [apply NoDup_nil_2 | apply Forall_nil_2]. }
  induction gs as [|g rest IH]; intros st i Hgs Hst; [done|].
  cbn [parse_games_from]. apply IH.
  - intros g' Hin. apply Hgs. apply elem_of_cons. by right.
  - apply parse_game_well_filed; [|done].
    apply Hgs. apply elem_of_cons. by left.
Qed.

(** ** Options: what the option loop establishes *)

Lemma is_opt_elem_of (opt : string) (names : list string) :
  is_opt opt names = true -> opt ∈ names.
Proof.
  unfold is_opt. intros E. apply existsb_exists in E as (x & Hin & Ex).
  apply String.eqb_eq in Ex. subst x. by apply list_elem_of_In.
Qed.

Lemma update_opt_checked `{Env} (c : Config) (opt arg : string) :
  check_opt opt arg = Ok tt -> checked c -> checked (update_opt c opt arg).
Proof.
  intros E (Hw & Hd & Hi).
  unfold checked, update_opt, assign.
  cbn [language_weight dat_file input_dir].
  unfold check_opt in E.
  destruct (is_opt opt ["-h"; "--help"]) eqn:Eh; [done|].
  destruct (is_opt opt ["-w"; "--language-weight"]) eqn:Ew.
  { apply is_opt_elem_of in Ew.
    destruct (int_of (Text.strip arg)) as [w|]; [|done].
    destruct (w <=? 0) eqn:Ew0; [done|]. apply Z.leb_gt in Ew0.
    split; [done|].
    assert (is_opt opt ["-d"; "--dat"] = false
            /\ is_opt opt ["-i"; "--input-dir"] = false) as [-> ->]; [|done].
    by repeat (apply elem_of_cons in Ew as [->|Ew]; [done|]);
      apply elem_of_nil in Ew. }
  split; [done|].
  destruct (is_opt opt ["-d"; "--dat"]) eqn:Ed.
  { apply is_opt_elem_of in Ed.
    unfold exit_unless in E.
    destruct (isfile (expanduser (Text.strip arg))) eqn:Ef; [|done].
    split; [done|].
    assert (is_opt opt ["-i"; "--input-dir"] = false) as ->; [|done].
    by repeat (apply elem_of_cons in Ed as [->|Ed]; [done|]);
      apply elem_of_nil in Ed. }
  split; [done|].
  destruct (is_opt opt ["-i"; "--input-dir"]) eqn:Ei; [|done].
  unfold exit_unless in E.
  by destruct (isdir (expanduser (Text.strip arg))).
Qed.

Lemma read_opts_checked `{Env} (opts : list (string * string)) :
  forall c c', read_opts c opts = Ok c' -> checked c -> checked c'.
Proof.
  induction opts as [|[opt arg] rest IH]; intros c c' E Hc.
  - by injection E as <-.
  - cbn [read_opts] in E.
    destruct (check_opt opt arg) as [[]|] eqn:Eo; [|done].
    cbn [res_bind] in E. eapply IH; [exact E|].
    by apply update_opt_checked.
Qed.

(** Options that [main] accepts are consistent: the language weight is
    positive, the catalogue is named and was a file when [--dat] was read,
    a region is selected, hashes come with an input directory and without
    an extension, an output directory comes with an input directory, the
    input directory was a directory when [--input-dir] was read, and
    [--all-regions] and [--all-regions-with-lang] are not both set. *)
Theorem accepted_options_are_consistent `{Env}
  (opts : list (string * string)) (s : Settings) :
  configure opts = Ok s ->
  let c := config s in
  0 < language_weight c
  /\ Text.truthy (dat_file c) = true
  /\ isfile (dat_file c) = true
  /\ selected_regions c <> []
  /\ (use_hashes c = true ->
      Text.truthy (input_dir c) = true /\ file_extension c = "")
  /\ (Text.truthy (output_dir c) = true -> Text.truthy (input_dir c) = true)
  /\ (Text.truthy (input_dir c) = true -> isdir (input_dir c) = true)
  /\ all_regions c && all_regions_with_lang c = false.
Proof.
  intros E. apply configure_Ok in E as (c0 & Er & Ec).
  assert (checked c0) as (Hw & Hd & Hi).
  { eapply read_opts_checked; [exact Er|].
    unfold checked, defaults. cbn. split; [lia|]. by split. }
  cbn zeta. revert Ec. generalize (config s). intros c Ec.
  unfold check_config in Ec.
  repeat match type of Ec with
         | (if ?b then _ else _) = _ => destruct b eqn:?; [discriminate|]
         end.
  injection Ec as <-.
  destruct (Text.truthy (dat_file c0)) eqn:Edat; [|done].
  destruct (selected_regions c0) as [|r rs] eqn:Ereg; [done|].
  split; [done|]. split; [done|]. split; [by apply Hd|]. split; [done|].
  split.
  { intros Hh. rewrite Hh, !andb_true_r in *.
    destruct (Text.truthy (input_dir c0)); [|done]. split; [done|].
    by destruct (file_extension c0). }
  split.
  { intros Ho. rewrite Ho in *. by destruct (Text.truthy (input_dir c0)). }
  split; [done|]. done.
Qed.

Lemma accepted_options_are_consistent_witness :
  let c := config with_hashes in
  0 < language_weight c
  /\ Text.truthy (dat_file c) = true
  /\ @isfile example_env (dat_file c) = true
  /\ selected_regions c <> []
  /\ (use_hashes c = true ->
      Text.truthy (input_dir c) = true /\ file_extension c = "")
  /\ (Text.truthy (output_dir c) = true -> Text.truthy (input_dir c) = true)
  /\ (Text.truthy (input_dir c) = true
      -> @isdir example_env (input_dir c) = true)
  /\ all_regions c && all_regions_with_lang c = false.
Proof.
  apply (@accepted_options_are_consistent example_env
           [("-d", "x.dat"); ("-r", "USA,EUR"); ("-i", "roms");
            ("--use-hashes", "")]).
  vm_compute. reflexivity.
Defined.

(** ** Patterns taken literally *)


Lemma found_escape (x name : string) :
  found (Re.escape true x) name = Text.contains (Text.lower x) (Text.lower name).
Proof.
  unfold found.
  destruct (Text.contains _ _) eqn:Ec.
  - apply bool_decide_eq_true_2. by apply (search_escape true).
  - apply bool_decide_eq_false_2. intros Hs.
    apply (search_escape true) in Hs. unfold folded in Hs. congruence.
Qed.

(** An item whose name carries one of the literal tags [[BIOS]], [(Unl)],
    [(Pirate)] or [(Promo)], in any case of the letters, while the filter
    of that tag is on, leaves no trace when the catalogue is read: no
    candidate, no region added to the table, no diagnostic. *)
Theorem tagged_item_is_dropped (no_warning : bool) (f : Filters)
  (exclude : list Re.regex) (st : ParseState) (i : nat) (game : Dat.game) :
  let name := Text.lower (Dat.name game) in
  filter_bios f && Text.contains "[bios]" name
  || filter_unlicensed f && Text.contains "(unl)" name
  || filter_pirate f && Text.contains "(pirate)" name
  || filter_promo f && Text.contains "(promo)" name = true ->
  parse_game no_warning f exclude st i game = st.
Proof.
  cbn zeta. intros Ht. unfold parse_game.
  assert (filtered_out f exclude (Dat.name game) = true) as ->; [|done].
  unfold filtered_out, bios_regex, unl_regex, pirate_regex, promo_regex.
  rewrite !found_escape.
  change (Text.lower "[BIOS]") with "[bios]".
  change (Text.lower "(Unl)") with "(unl)".
  change (Text.lower "(Pirate)") with "(pirate)".
  change (Text.lower "(Promo)") with "(promo)".
  repeat (apply orb_prop in Ht as [Ht|Ht]); rewrite Ht; cbn;
    rewrite ?orb_true_r; done.
Qed.

Lemma tagged_item_is_dropped_witness :
  parse_game false
    {| filter_bios := true; filter_program := false;
       filter_enhancement_chip := false; filter_pirate := false;
       filter_promo := false; filter_unlicensed := false;
       filter_proto := false; filter_beta := false; filter_demo := false;
       filter_sample := false |} [] fresh 0 (named "[bios] Console (World)")
  = fresh.
Proof.
  apply (tagged_item_is_dropped false _ [] fresh 0
           (named "[bios] Console (World)")).
  vm_compute. reflexivity.
Defined.

(** ** Paths relative to the input directory *)

Lemma chars_append (a b : string) :
  Text.chars (a +:+ b) = Text.chars a ++ Text.chars b.
Proof.
  unfold Text.chars. induction a as [|c a IH]; [done|].
  simpl. f_equal. exact IH.
Qed.

Lemma str_chars (s : string) : Text.str (Text.chars s) = s.
Proof. apply string_of_list_ascii_of_string. Qed.

Lemma starts_with_chars_app (p l : list ascii) :
  Text.starts_with_chars p (p ++ l) = true.
Proof.
  induction p as [|a p IH]; [done|].
  cbn. unfold Text.char_eqb. by rewrite Ascii.eqb_refl.
Qed.

Lemma replace_first_prefix (old l : list ascii) :
  Text.replace_first_chars old [] (old ++ l) = l.
Proof.
  assert (forall l', Text.starts_with_chars old l' = true ->
                     Text.replace_first_chars old [] l'
                     = drop (length old) l') as E.
  { intros l' Hl'. destruct l'; cbn [Text.replace_first_chars];
      by rewrite Hl'. }
  rewrite E by apply starts_with_chars_app. by rewrite drop_app_length.
Qed.

Lemma lstrip_not_started (name : string) :
  Text.startswith name sep = false ->
  Text.lstrip_by (Text.char_eqb "/") (Text.chars name) = Text.chars name.
Proof.
  unfold Text.startswith. change (Text.chars sep) with ["/"%char].
  destruct (Text.chars name) as [|c r]; [done|].
  cbn [Text.starts_with_chars Text.lstrip_by].
  by destruct (Text.char_eqb "/" c); cbn [andb].
Qed.

(** The path of a file of the input directory, taken relative to the
    input directory, is the name it was joined from: the directory is
    removed where it stands in front, with the separator after it. *)
Theorem relative_path_of_joined_name (input_dir name : string) :
  Text.startswith name sep = false ->
  file_relative_to_input (path_join input_dir name) input_dir = name.
Proof.
  intros Hn. unfold file_relative_to_input, path_join. rewrite Hn.
  unfold Text.lstrip_char, Text.replace_first.
  change (Text.chars "") with (@nil ascii).
  destruct (Text.is_empty input_dir || Text.endswith input_dir sep).
  - rewrite chars_append, replace_first_prefix, chars_str.
    by rewrite lstrip_not_started, str_chars.
  - rewrite !chars_append, replace_first_prefix, chars_str.
    change (Text.chars sep) with ["/"%char]. cbn [app Text.lstrip_by].
    change (Text.char_eqb "/" "/") with true. cbn iota.
    by rewrite lstrip_not_started, str_chars.
Qed.

Lemma relative_path_of_joined_name_witness :
  file_relative_to_input (path_join "roms" "game.bin") "roms" = "game.bin".
Proof.
  apply (relative_path_of_joined_name "roms" "game.bin"). reflexivity.
Defined.

(** ** The digest and the size of the chunks *)

Lemma hash_chunks_content `{Hashlib} (f : stream) :
  (forall h a b, update h (a ++ b) = update (update h a) b) ->
  Forall (fun chunk => chunk <> []) f ->
  forall h chunk,
    hash_chunks f (update h chunk) = update h (chunk ++ content f).
Proof.
  intros Hu Hf. induction Hf as [|c f Hc Hf IH]; intros h chunk.
  - unfold content. cbn. by rewrite app_nil_r.
  - destruct c as [|x c]; [done|].
    cbn [hash_chunks]. rewrite IH. unfold content. cbn [concat].
    by rewrite <- !Hu.
Qed.

Lemma hash_chunks_same `{Hashlib} (f1 f2 : stream) :
  (forall h a b, update h (a ++ b) = update (update h a) b) ->
  Forall (fun chunk => chunk <> []) f1 ->
  Forall (fun chunk => chunk <> []) f2 ->
  content f1 = content f2 ->
  hash_chunks f1 sha1 = hash_chunks f2 sha1.
Proof.
  intros Hu H1 H2 Hc.
  destruct H1 as [|c1 f1 Hc1 H1], H2 as [|c2 f2 Hc2 H2].
  - done.
  - unfold content in Hc. cbn in Hc. by destruct c2.
  - unfold content in Hc. cbn in Hc. by destruct c1.
  - destruct c1 as [|x1 c1]; [done|]. destruct c2 as [|x2 c2]; [done|].
    cbn [hash_chunks]. rewrite !hash_chunks_content by done.
    unfold content in *. cbn [concat] in Hc. by rewrite Hc.
Qed.

(** The digest of a file does not depend on the size of the chunks it is
    read in: when the hasher is incremental, two sequences of non-empty
    chunks with the same content give the same digest, and an
    uninterrupted [compute_hash] returns it for both. *)
Theorem digest_independent_of_chunking `{Hashlib} (f1 f2 : stream)
  (t : nat) :
  (forall h a b, update h (a ++ b) = update (update h a) b) ->
  Forall (fun chunk => chunk <> []) f1 ->
  Forall (fun chunk => chunk <> []) f2 ->
  content f1 = content f2 ->
  exists digest t1 t2,
    compute_hash never f1 t = (Ok digest, t1)
    /\ compute_hash never f2 t = (Ok digest, t2).
Proof.
  intros Hu H1 H2 Hc.
  destruct (compute_hash_never f1 t) as [t1 E1].
  destruct (compute_hash_never f2 t) as [t2 E2].
  exists (digest_of f1), t1, t2. split; [done|].
  rewrite E2. unfold digest_of. by rewrite (hash_chunks_same f1 f2).
Qed.

Lemma digest_independent_of_chunking_witness :
  exists digest t1 t2,
    @compute_hash example_hashlib never
      [[Byte.x67; Byte.x61]; [Byte.x6d; Byte.x65]] 0%nat = (Ok digest, t1)
    /\ @compute_hash example_hashlib never
         [[Byte.x67]; [Byte.x61; Byte.x6d; Byte.x65]] 0%nat = (Ok digest, t2).
Proof.
  apply (@digest_independent_of_chunking example_hashlib
           [[Byte.x67; Byte.x61]; [Byte.x6d; Byte.x65]]
           [[Byte.x67]; [Byte.x61; Byte.x6d; Byte.x65]] 0%nat).
  - intros h a b. cbn. by rewrite app_assoc.
  - by repeat constructor.
  - by repeat constructor.
  - reflexivity.
Defined.

(** ** Options: the filters *)

Lemma read_opts_filters `{Env} (opts : list (string * string)) :
  forall c c',
    read_opts c opts = Ok c' ->
    filter_unlicensed (filters c')
    = filter_unlicensed (filters c) || given ["--no-unlicensed"] opts
    /\ forall flag name,
         (flag, name) ∈
           [(filter_bios, "--no-bios"); (filter_program, "--no-program");
            (filter_enhancement_chip, "--no-enhancement-chip");
            (filter_pirate, "--no-pirate"); (filter_promo, "--no-promo");
            (filter_proto, "--no-proto"); (filter_beta, "--no-beta");
            (filter_demo, "--no-demo"); (filter_sample, "--no-sample")] ->
         flag (filters c')
         = flag (filters c) || given [name; "--no-all"] opts.
Proof.
  induction opts as [|[opt arg] rest IH]; intros c c' E.
  - injection E as <-. unfold given. cbn. rewrite orb_false_r.
    split; [done|]. intros flag name _. by rewrite orb_false_r.
  - cbn [read_opts] in E.
    destruct (check_opt opt arg) as [[]|]; [|done]. cbn [res_bind] in E.
    destruct (IH _ _ E) as [Hu Hall]. split.
    + rewrite Hu. unfold given. cbn [existsb fst update_opt filters
                                       filters_with filter_unlicensed].
      unfold is_opt. cbn [existsb]. by rewrite orb_false_r, orb_assoc.
    + intros flag name Hin. rewrite (Hall flag name Hin).
      unfold given. cbn [existsb fst]. rewrite orb_assoc. f_equal.
      repeat (apply elem_of_cons in Hin as [[= -> ->]|Hin]; [done|]).
      by apply elem_of_nil in Hin.
Qed.

(** [--no-all] turns on nine of the ten filters: the filter of unlicensed
    items is on exactly when [--no-unlicensed] itself is given. *)
Theorem no_all_leaves_unlicensed `{Env} (opts : list (string * string))
  (c : Config) :
  read_opts defaults opts = Ok c ->
  given ["--no-all"] opts = true ->
  let f := filters c in
  filter_bios f = true /\ filter_program f = true
  /\ filter_enhancement_chip f = true /\ filter_pirate f = true
  /\ filter_promo f = true /\ filter_proto f = true /\ filter_beta f = true
  /\ filter_demo f = true /\ filter_sample f = true
  /\ filter_unlicensed f = given ["--no-unlicensed"] opts.
Proof.
  intros E Hall. destruct (read_opts_filters opts _ _ E) as [Hu Hf].
  assert (forall name, given [name; "--no-all"] opts = true) as Hg.
  { intros name. unfold given in *.
    apply existsb_exists in Hall as (o & Hin & Ho).
    apply existsb_exists. exists o. split; [done|].
    unfold is_opt in *. cbn [existsb] in *. rewrite orb_false_r in Ho.
    by rewrite Ho, orb_true_r. }
  assert (forall flag name,
            (flag, name) ∈
              [(filter_bios, "--no-bios"); (filter_program, "--no-program");
               (filter_enhancement_chip, "--no-enhancement-chip");
               (filter_pirate, "--no-pirate"); (filter_promo, "--no-promo");
               (filter_proto, "--no-proto"); (filter_beta, "--no-beta");
               (filter_demo, "--no-demo"); (filter_sample, "--no-sample")] ->
            flag (filters c) = true) as Ht.
  { intros flag name Hin. by rewrite (Hf flag name Hin), Hg, orb_true_r. }
  cbn zeta.
  split; [apply (Ht _ "--no-bios"); repeat constructor|].
  split; [apply (Ht _ "--no-program"); repeat constructor|].
  split; [apply (Ht _ "--no-enhancement-chip"); repeat constructor|].
  split; [apply (Ht _ "--no-pirate"); repeat constructor|].
  split; [apply (Ht _ "--no-promo"); repeat constructor|].
  split; [apply (Ht _ "--no-proto"); repeat constructor|].
  split; [apply (Ht _ "--no-beta"); repeat constructor|].
  split; [apply (Ht _ "--no-demo"); repeat constructor|].
  split; [apply (Ht _ "--no-sample"); repeat constructor|].
  by rewrite Hu.
Qed.

Lemma no_all_leaves_unlicensed_witness :
  let f := filters (@update_opt example_env defaults "--no-all" "") in
  filter_bios f = true /\ filter_program f = true
  /\ filter_enhancement_chip f = true /\ filter_pirate f = true
  /\ filter_promo f = true /\ filter_proto f = true /\ filter_beta f = true
  /\ filter_demo f = true /\ filter_sample f = true
  /\ filter_unlicensed f = given ["--no-unlicensed"] [("--no-all", "")].
Proof.
  apply (@no_all_leaves_unlicensed example_env [("--no-all", "")]
           (@update_opt example_env defaults "--no-all" "")).
  - reflexivity.
  - reflexivity.
Defined.

(** ** Names without a parenthesised section *)

Lemma match_at_sections_None (s : list ascii) :
  match s with [] => True | x :: _ => x <> "("%char end ->
  Re.match_at sections_regex s = None.
Proof.
  unfold Re.match_at, sections_regex, Re.seqs. cbn [fold_right Re.run Re.chr].
  destruct s as [|x s]; [done|]. intros Hx.
  unfold Text.char_eqb. apply Ascii.eqb_neq in Hx. by rewrite Hx.
Qed.

Lemma finditer_no_section (s : list ascii) :
  Forall (fun x => x <> "("%char) s ->
  forall skip, Re.finditer_chars sections_regex skip s = [].
Proof.
  intros Hs. induction Hs as [|x s Hx Hs IH]; intros skip;
    cbn [Re.finditer_chars].
  - rewrite match_at_sections_None by done. by destruct skip.
  - destruct skip as [|k]; [|apply IH].
    rewrite match_at_sections_None by done. apply IH.
Qed.

(** An item whose name has no opening parenthesis and that declares no
    release yields no candidate: the families and the region table are
    left as they are and, unless the item is filtered out or warnings are
    suppressed, the diagnostic of an item without region is written. *)
Theorem unparenthesised_item_has_no_candidate (no_warning : bool)
  (f : Filters) (exclude : list Re.regex) (st : ParseState) (i : nat)
  (game : Dat.game) :
  Forall (fun x => x <> "("%char) (Text.chars (Dat.name game)) ->
  Dat.releases game = [] ->
  let st' := parse_game no_warning f exclude st i game in
  games st' = games st
  /\ registry st' = registry st
  /\ (filtered_out f exclude (Dat.name game) = false ->
      no_warning = false ->
      Warn (NoRegions (Dat.name game)) ∈ stderr st').
Proof.
  intros Hn Hr. cbn zeta. unfold parse_game.
  destruct (filtered_out f exclude (Dat.name game)); [done|].
  unfold game_regions, parse_region_data, Re.finditer.
  rewrite Hr, finditer_no_section by done.
  cbn [flat_map add_release_regions map games registry stderr].
  split; [done|]. split; [done|]. intros _ ->.
  apply elem_of_app. right. apply elem_of_cons. by left.
Qed.

Lemma unparenthesised_item_has_no_candidate_witness :
  let st' := parse_game false no_filters [] fresh 0 (named "Game") in
  games st' = games fresh
  /\ registry st' = registry fresh
  /\ (filtered_out no_filters [] (Dat.name (named "Game")) = false ->
      false = false ->
      Warn (NoRegions (Dat.name (named "Game"))) ∈ stderr st').
Proof.
  apply (unparenthesised_item_has_no_candidate false no_filters [] fresh 0
           (named "Game")).
  - by repeat constructor.
  - reflexivity.
Defined.

(** ** Archives *)

Lemma search_chars_Some (r : Re.regex) (s : list ascii) :
  is_Some (Re.search_chars r s)
  <-> exists pre suf, s = pre ++ suf /\ is_Some (Re.match_at r suf).
Proof.
  induction s as [|x s IH]; cbn [Re.search_chars].
  - destruct (Re.match_at r []) eqn:Em.
    + split; [|by eexists]. intros _. exists [], []. by rewrite Em.
    + split; [by intros [? ?]|]. intros (pre & suf & E & Hm).
      symmetry in E. apply app_eq_nil in E as [-> ->]. by rewrite Em in Hm.
  - destruct (Re.match_at r (x :: s)) eqn:Em.
    + split; [|by eexists]. intros _. exists [], (x :: s). by rewrite Em.
    + rewrite IH. split.
      * intros (pre & suf & -> & Hm). by exists (x :: pre), suf.
      * intros (pre & suf & E & Hm). destruct pre as [|y pre].
        -- cbn in E. subst suf. rewrite Em in Hm. by destruct Hm.
        -- injection E as -> ->. by exists pre, suf.
Qed.

Lemma endswith_suffix (s p : string) :
  Text.endswith s p = true
  <-> exists pre, Text.chars s = pre ++ Text.chars p.
Proof.
  unfold Text.endswith. rewrite starts_with_chars_prefix. split.
  - intros [r E]. exists (rev r).
    apply (f_equal (@rev ascii)) in E.
    by rewrite rev_involutive, rev_app_distr, rev_involutive in E.
  - intros [pre E]. exists (rev pre). by rewrite E, rev_app_distr.
Qed.

Lemma lower_char_newline (x : ascii) :
  Text.lower_char x = Re.newline <-> x = Re.newline.
Proof.
  destruct x as [[] [] [] [] [] [] [] []]; vm_compute; split; congruence.
Qed.

Lemma match_at_zip (suf : list ascii) :
  is_Some (Re.match_at zip_regex suf)
  <-> map Text.lower_char suf = Text.chars ".zip"
      \/ map Text.lower_char suf = Text.chars ".zip" ++ [Re.newline].
Proof.
  unfold Re.match_at, zip_regex. cbn [Re.run].
  change (Re.escape true ".zip") with (literal true (Text.chars ".zip")).
  rewrite run_literal.
  change (map (fold_char true) (Text.chars ".zip")) with (Text.chars ".zip").
  change (fold_char true) with Text.lower_char.
  destruct (Text.starts_with_chars (Text.chars ".zip")
              (map Text.lower_char suf)) eqn:Es.
  - apply starts_with_chars_prefix in Es as [r Er]. rewrite Er.
    assert (r = map Text.lower_char (drop (length (Text.chars ".zip")) suf))
      as Hr.
    { rewrite <- skipn_map, Er. by rewrite drop_app_length. }
    destruct (drop (length (Text.chars ".zip")) suf) as [|x [|y rest]];
      cbn [map] in Hr; subst r.
    + cbn [fmap option_fmap option_map]. split; [|by eexists].
      intros _. left. by rewrite app_nil_r.
    + unfold Text.char_eqb.
      destruct (Ascii.eqb x Re.newline) eqn:Ex.
      * apply Ascii.eqb_eq in Ex. subst x.
        split; [|by eexists]. intros _. by right.
      * apply Ascii.eqb_neq in Ex. split; [by intros [? ?]|].
        intros [E|E]; [by cbn in E|].
        apply app_inv_head in E. injection E as E.
        destruct (Ex (proj1 (lower_char_newline x) E)).
    + split; [by intros [? ?]|].
      intros [E|E]; [by cbn in E | by apply app_inv_head in E].
  - split; [by intros [? ?]|]. intros HE.
    assert (Text.starts_with_chars (Text.chars ".zip")
              (map Text.lower_char suf) = true) as Es'; [|congruence].
    apply starts_with_chars_prefix.
    destruct HE as [E|E]; rewrite E; [exists [] | exists [Re.newline]];
      by rewrite ?app_nil_r.
Qed.

